(** * task_logger: the asynchronous logging pipeline and the task repository

    A shallow embedding of the Go sources of the task service:

    - package [logger]: [LogLevel], [Config], [asyncLogger], the options,
      [NewAsyncLogger], the worker loop [run], the leveled emit methods,
      [With], [log], [appendValue], [ParseLevel] and [generateTraceFlags];
    - package [repository]: [TaskRepository.GetAll];
    - package [service] and package [handler]: [GetAllTasks],
      [parseIntQueryParam] and [getTasks].

    Go's [int] is a 64-bit two's complement integer: it is a [Z] with the
    wrap-around written out.  A Go string and a [[]byte] are byte sequences:
    both are a [string] here (a list of 8-bit characters).  A Go slice is a
    pointer, a length and a capacity over a shared backing array: slices of
    [interface{}] live in a store of arrays, so that aliasing is visible.
    Buffered channels are FIFO lists with a capacity, and a goroutine
    scheduling is a list of actions. *)

From Stdlib Require Import ZArith String Ascii List Bool Lia DecimalString
  DecimalPos.
From stdpp Require Import base gmap list strings fin_maps.

Set Warnings "-clear-no-such-hyp".

(** ** Go integers *)

Module GoInt.
Local Open Scope Z_scope.

(** The value of a [bits]-bit two's complement integer holding [x]. *)
Definition wrap (bits x : Z) : Z :=
  (x + 2 ^ (bits - 1)) mod 2 ^ bits - 2 ^ (bits - 1).

Definition min_int : Z := - 2 ^ 63.
Definition max_int : Z := 2 ^ 63 - 1.

Definition in_int (x : Z) : Prop := min_int <= x <= max_int.

(** [x + y] on [int] and on [int64]. *)
Definition add (x y : Z) : Z := wrap 64 (x + y).
End GoInt.

(** The line feed that ends every record. *)
Definition nl : string := String "010"%char EmptyString.

(** ** Dynamic values and slices of them *)

Module Slice.

(** A value of type [interface{}], by the cases [appendValue] and the key
    assertion of [log] tell apart.  A [float64] is held as the text
    [strconv.FormatFloat(v, 'f', -1, 64)] gives for it, and a value of any
    other type as its [%v] text: both renderings are the Go library's. *)
Inductive value :=
| VNil
| VString (s : string)
| VInt (n : Z)
| VInt64 (n : Z)
| VUint (n : Z)
| VUint64 (n : Z)
| VFloat64 (text : string)
| VBool (b : bool)
| VError (msg : string)
| VOther (text : string).

(** Backing arrays are addressed by a natural number. *)
Record slice := { ptr : nat; len : nat; cap : nat }.

(** The nil slice: no array, no length, no capacity. *)
Definition nil_slice : slice := {| ptr := 0; len := 0; cap := 0 |}.

(** What [append] asks of the runtime when it must grow: the capacity of
    the new array, from the old capacity and the length needed.  The
    allocator's rounding is the runtime's; only its lower bound is used. *)
Class GrowthPolicy := {
  growcap : nat -> nat -> nat;
  growcap_ge : forall old needed, needed <= growcap old needed
}.

(** Doubling, the policy of small slices. *)
#[export] Instance doubling : GrowthPolicy :=
  {| growcap old needed := Nat.max needed (2 * old);
     growcap_ge old needed := Nat.le_max_l needed (2 * old) |}.

Section Store.
Context `{GrowthPolicy}.

(** The elements a slice shows: the first [len] cells of its array. *)
Definition elems (h : gmap nat (list value)) (s : slice) : list value :=
  take (len s) (default [] (h !! ptr s)).

(** [make([]interface{}, n)]: a new array of [n] nil cells. *)
Definition make (n : nat) (h : gmap nat (list value))
  : slice * gmap nat (list value) :=
  let p := fresh (dom h) in
  ({| ptr := p; len := n; cap := n |}, <[p := replicate n VNil]> h).

(** [copy(dst, src)]: the first [min(len dst, len src)] cells of [dst]
    are overwritten by those of [src]. *)
Definition copy (dst src : slice) (h : gmap nat (list value))
  : gmap nat (list value) :=
  let n := Nat.min (len dst) (len src) in
  alter (list_inserts 0 (take n (elems h src))) (ptr dst) h.

(** [append(s, xs...)]: in place, into the cells after [len s], when the
    capacity allows; otherwise into a new, larger array. *)
Definition append (s : slice) (xs : list value) (h : gmap nat (list value))
  : slice * gmap nat (list value) :=
  let n := len s + length xs in
  if decide (n <= cap s) then
    ({| ptr := ptr s; len := n; cap := cap s |},
     alter (list_inserts (len s) xs) (ptr s) h)
  else
    let p := fresh (dom h) in
    let c := growcap (cap s) n in
    ({| ptr := p; len := n; cap := c |},
     <[p := elems h s ++ xs ++ replicate (c - n) VNil]> h).

(** A slice the program can hold: its array is allocated, as long as the
    capacity, and the length is within the capacity. *)
Definition slice_ok (h : gmap nat (list value)) (s : slice) : Prop :=
  len s <= cap s /\
  (cap s = 0 \/ exists arr, h !! ptr s = Some arr /\ length arr = cap s).

(** The store [h'] keeps every array of [h]. *)
Definition extends (h h' : gmap nat (list value)) : Prop :=
  forall p, p ∈ dom h -> h' !! p = h !! p.

End Store.
End Slice.

(** ** Package logger *)

Module Logger.
Import Slice.

(** [type LogLevel int8] and its constants, [iota - 1] onwards. *)
Definition LogLevel := Z.

Definition DebugLevel : LogLevel := (-1)%Z.
Definition InfoLevel : LogLevel := 0%Z.
Definition WarnLevel : LogLevel := 1%Z.
Definition ErrorLevel : LogLevel := 2%Z.
Definition DPanicLevel : LogLevel := 3%Z.
Definition PanicLevel : LogLevel := 4%Z.
Definition FatalLevel : LogLevel := 5%Z.

Definition defaultBufferSize : Z := 4096%Z.
(** [100 * time.Millisecond], in nanoseconds. *)
Definition defaultFlushInterval : Z := 100000000%Z.

Record Config := { Level : LogLevel; IsProduction : bool }.

(** The two streams of the process. *)
Inductive file := Stdout | Stderr.

(** [asyncLogger].  [logChan] is a reference to a channel of the world
    ([None] is the nil channel), [writer] the stream its [*log.Logger]
    writes to, [contextFields] a slice over the store of arrays.  The
    wait group only serves [Close] and is left out. *)
Record asyncLogger := {
  cfg : Config;
  logChan : option nat;
  writer : file;
  bufferSize : Z;
  flushInterval : Z;
  contextFields : slice
}.

Definition set_logChan (c : option nat) (l : asyncLogger) : asyncLogger :=
  {| cfg := cfg l; logChan := c; writer := writer l;
     bufferSize := bufferSize l; flushInterval := flushInterval l;
     contextFields := contextFields l |}.

Definition set_bufferSize (n : Z) (l : asyncLogger) : asyncLogger :=
  {| cfg := cfg l; logChan := logChan l; writer := writer l;
     bufferSize := n; flushInterval := flushInterval l;
     contextFields := contextFields l |}.

Definition set_flushInterval (d : Z) (l : asyncLogger) : asyncLogger :=
  {| cfg := cfg l; logChan := logChan l; writer := writer l;
     bufferSize := bufferSize l; flushInterval := d;
     contextFields := contextFields l |}.

Definition set_contextFields (s : slice) (l : asyncLogger) : asyncLogger :=
  {| cfg := cfg l; logChan := logChan l; writer := writer l;
     bufferSize := bufferSize l; flushInterval := flushInterval l;
     contextFields := s |}.

(** [type Option], a function on a pointer to [asyncLogger]. *)
Definition Option := asyncLogger -> asyncLogger.

Definition WithBufferSize (size : Z) : Option :=
  fun l => if decide (0 < size)%Z then set_bufferSize size l else l.

Definition WithFlushInterval (interval : Z) : Option :=
  fun l => if decide (0 < interval)%Z then set_flushInterval interval l else l.

(** A buffered channel of byte slices: its capacity and the items sent
    and not yet received, oldest first.  The program never closes it. *)
Record chanState := { ch_cap : nat; ch_buf : list string }.

(** What the loggers share: the arrays behind the field slices, the
    channels, and every write made to the two streams, oldest first. *)
Record world := {
  arrays : gmap nat (list value);
  chans : gmap nat chanState;
  stdout : list string;
  stderr : list string
}.

Definition set_arrays (h : gmap nat (list value)) (w : world) : world :=
  {| arrays := h; chans := chans w; stdout := stdout w; stderr := stderr w |}.

Definition set_chans (cs : gmap nat chanState) (w : world) : world :=
  {| arrays := arrays w; chans := cs; stdout := stdout w; stderr := stderr w |}.

(** One [Write] call on a stream. *)
Definition write (f : file) (data : string) (w : world) : world :=
  match f with
  | Stdout => {| arrays := arrays w; chans := chans w;
                 stdout := stdout w ++ [data]; stderr := stderr w |}
  | Stderr => {| arrays := arrays w; chans := chans w;
                 stdout := stdout w; stderr := stderr w ++ [data] |}
  end.

(** The items pending on a channel reference. *)
Definition pending (c : option nat) (w : world) : list string :=
  match c with
  | Some i => match chans w !! i with Some ch => ch_buf ch | None => [] end
  | None => []
  end.

(** The send case of a [select]: ready when the channel exists and has
    room, and then the item joins the end of the buffer. *)
Definition try_send (c : option nat) (item : string) (w : world) : option world :=
  match c with
  | Some i =>
      match chans w !! i with
      | Some ch =>
          if decide (length (ch_buf ch) < ch_cap ch) then
            Some (set_chans
                    (<[i := {| ch_cap := ch_cap ch; ch_buf := ch_buf ch ++ [item] |}]>
                       (chans w)) w)
          else None
      | None => None
      end
  | None => None
  end.

(** The receive case of a [select]: ready when an item is pending, and
    then the oldest one leaves the buffer. *)
Definition try_recv (c : option nat) (w : world) : option (string * world) :=
  match c with
  | Some i =>
      match chans w !! i with
      | Some ch =>
          match ch_buf ch with
          | msg :: rest =>
              Some (msg, set_chans
                           (<[i := {| ch_cap := ch_cap ch; ch_buf := rest |}]>
                              (chans w)) w)
          | [] => None
          end
      | None => None
      end
  | None => None
  end.

(** The channel exists and holds fewer items than its capacity. *)
Definition has_room (c : option nat) (w : world) : bool :=
  match c with
  | Some i =>
      match chans w !! i with
      | Some ch => bool_decide (length (ch_buf ch) < ch_cap ch)
      | None => false
      end
  | None => false
  end.

(** The capacity of the channel behind a reference. *)
Definition capacity (c : option nat) (w : world) : option nat :=
  match c with
  | Some i => ch_cap <$> chans w !! i
  | None => None
  end.

(** The bytes a list of writes or of queued lines makes, in order. *)
Fixpoint join (items : list string) : string :=
  match items with
  | [] => EmptyString
  | item :: rest => item +:+ join rest
  end.

(** The options of the package. *)
Definition package_option (opt : Option) : Prop :=
  (exists size, GoInt.in_int size /\ opt = WithBufferSize size) \/
  (exists interval, opt = WithFlushInterval interval).

(** The struct [NewAsyncLogger] starts from; the channel is still nil. *)
Definition defaults (c : Config) : asyncLogger :=
  {| cfg := c; logChan := None; writer := Stdout;
     bufferSize := defaultBufferSize;
     flushInterval := defaultFlushInterval;
     contextFields := nil_slice |}.

(** An empty world, for examples. *)
Definition empty_world : world :=
  {| arrays := ∅; chans := ∅; stdout := []; stderr := [] |}.

(** [NewAsyncLogger]: the defaults, then the options in order, then
    [make(chan []byte, l.bufferSize+1)], which panics on a negative size
    ([None]); the worker it starts is the [worker] of a [system] below. *)
Definition NewAsyncLogger (c : Config) (opts : list Option) (w : world)
  : option (asyncLogger * world) :=
  let l := defaults c in
  let l := foldl (fun l opt => opt l) l opts in
  let size := GoInt.add (bufferSize l) 1 in
  if decide (0 <= size)%Z then
    let i := fresh (dom (chans w)) in
    Some (set_logChan (Some i) l,
          set_chans (<[i := {| ch_cap := Z.to_nat size; ch_buf := [] |}]> (chans w)) w)
  else None.

(** [strconv.FormatInt(n, 10)], also [strconv.Itoa] and [FormatUint]. *)
Definition FormatInt (n : Z) : string := NilZero.string_of_int (Z.to_int n).

(** [appendValue]: the type switch, case by case. *)
Definition appendValue (sb : string) (v : value) : string :=
  match v with
  | VString val => sb +:+ val
  | VInt val => sb +:+ FormatInt val
  | VInt64 val => sb +:+ FormatInt val
  | VUint val => sb +:+ FormatInt val
  | VUint64 val => sb +:+ FormatInt val
  | VFloat64 text => sb +:+ text
  | VBool val => sb +:+ (if val then "true" else "false")
  | VError msg => sb +:+ msg
  | VOther text => sb +:+ text
  | VNil => sb +:+ "<nil>"
  end.

(** The loop [for i := 0; i < len(allFields); i += 2] of [log], from
    index [i] on; [fuel] bounds the iterations left. *)
Fixpoint fields_loop (fuel i : nat) (allFields : list value) (sb : string)
  : string :=
  match fuel with
  | 0 => sb
  | S fuel' =>
      if decide (i < length allFields) then
        let sb := sb +:+ " " in
        match allFields !! i with
        | Some (VString key) =>
            let sb := sb +:+ key in
            let sb := sb +:+ "=" in
            let sb :=
              if decide (i + 1 < length allFields)
              then appendValue sb (default VNil (allFields !! (i + 1)))
              else sb in
            fields_loop fuel' (i + 2) allFields sb
        | _ => fields_loop fuel' (i + 2) allFields sb
        end
      else sb
  end.

(** The line [log] builds in its [strings.Builder]; [now] is
    [time.Now().Format(time.RFC3339Nano)] as read by the call. *)
Definition build_line (now level msg : string) (allFields : list value)
  : string :=
  let sb := EmptyString in
  let sb := sb +:+ now in
  let sb := sb +:+ " " in
  let sb := sb +:+ level in
  let sb := sb +:+ " " in
  let sb := sb +:+ msg in
  let sb :=
    if decide (0 < length allFields)
    then fields_loop (length allFields) 0 allFields sb
    else sb in
  sb +:+ nl.

(** What the loop adds to an empty builder for a field list. *)
Definition fields_text (allFields : list value) : string :=
  fields_loop (length allFields) 0 allFields EmptyString.

(** The assertion [allFields[i].(string)] holds. *)
Definition is_string (v : value) : bool :=
  match v with VString _ => true | _ => false end.

(** The field list read by pairs, to compare with the loop: a string key
    gives [ key=value], any other key a lone separator, and a last element
    without a partner is read as a key without a value. *)
Fixpoint pairs_text (allFields : list value) : string :=
  match allFields with
  | [] => EmptyString
  | [VString key] => " " +:+ key +:+ "="
  | [_] => " "
  | VString key :: v :: rest =>
      " " +:+ key +:+ "=" +:+ appendValue EmptyString v +:+ pairs_text rest
  | _ :: _ :: rest => " " +:+ pairs_text rest
  end.

Definition dropped_warning (line : string) : string :=
  "WARNING: Logger channel is full. Log message dropped: " +:+ line +:+ nl.

(** The context fields of a logger, as the store shows them, and the
    loggers the program can hold. *)
Definition context_of (w : world) (l : asyncLogger) : list value :=
  elems (arrays w) (contextFields l).

Definition logger_ok (w : world) (l : asyncLogger) : Prop :=
  slice_ok (arrays w) (contextFields l).

Section WithGrowth.
Context `{GrowthPolicy}.

(** The first half of [log]: [allFields := append(l.contextFields,
    fields...)], which may write into the spare cells of the logger's
    own array, and the line built from [allFields]. *)
Definition log_line (l : asyncLogger) (level msg : string)
  (fields : list value) (now : string) (w : world) : string * world :=
  let '(allFields, h) := append (contextFields l) fields (arrays w) in
  (build_line now level msg (elems h allFields), set_arrays h w).

(** The second half of [log]: the [select] that sends the line or, by
    [default], reports the drop on the error stream. *)
Definition enqueue (l : asyncLogger) (line : string) (w : world) : world :=
  match try_send (logChan l) line w with
  | Some w' => w'
  | None => write Stderr (dropped_warning line) w
  end.

Definition log (l : asyncLogger) (level msg : string) (fields : list value)
  (now : string) (w : world) : world :=
  let '(line, w) := log_line l level msg fields now w in
  enqueue l line w.

(** [With]: [newLogger := *l], a new slice as long as the parent's, the
    parent's fields copied into it, the new fields appended. *)
Definition With (l : asyncLogger) (fields : list value) (w : world)
  : asyncLogger * world :=
  let newLogger := l in
  let '(s, h) := make (len (contextFields l)) (arrays w) in
  let h := copy s (contextFields l) h in
  let '(s, h) := append s fields h in
  (set_contextFields s newLogger, set_arrays h w).

(** How a call ends: it returns, it panics with a value, or it ends the
    process with an exit code. *)
Inductive outcome := Normal | Panics (v : string) | Exits (code : Z).

Definition Debug (l : asyncLogger) (msg : string) (fields : list value)
  (now : string) (w : world) : world * outcome :=
  if decide (Level (cfg l) <= DebugLevel)%Z
  then (log l "DEBUG" msg fields now w, Normal)
  else (w, Normal).

Definition Info (l : asyncLogger) (msg : string) (fields : list value)
  (now : string) (w : world) : world * outcome :=
  if decide (Level (cfg l) <= InfoLevel)%Z
  then (log l "INFO" msg fields now w, Normal)
  else (w, Normal).

Definition Warn (l : asyncLogger) (msg : string) (fields : list value)
  (now : string) (w : world) : world * outcome :=
  if decide (Level (cfg l) <= WarnLevel)%Z
  then (log l "WARN" msg fields now w, Normal)
  else (w, Normal).

Definition Error (l : asyncLogger) (msg : string) (fields : list value)
  (now : string) (w : world) : world * outcome :=
  if decide (Level (cfg l) <= ErrorLevel)%Z
  then (log l "ERROR" msg fields now w, Normal)
  else (w, Normal).

Definition DPanic (l : asyncLogger) (msg : string) (fields : list value)
  (now : string) (w : world) : world * outcome :=
  if decide (Level (cfg l) <= DPanicLevel)%Z
  then
    let w := log l "DPANIC" msg fields now w in
    if negb (IsProduction (cfg l)) then (w, Panics msg) else (w, Normal)
  else (w, Normal).

Definition Panic (l : asyncLogger) (msg : string) (fields : list value)
  (now : string) (w : world) : world * outcome :=
  if decide (Level (cfg l) <= PanicLevel)%Z
  then
    let w := log l "PANIC" msg fields now w in
    (w, Panics msg)
  else (w, Normal).

Definition Fatal (l : asyncLogger) (msg : string) (fields : list value)
  (now : string) (w : world) : world * outcome :=
  if decide (Level (cfg l) <= FatalLevel)%Z
  then
    let w := log l "FATAL" msg fields now w in
    (w, Exits 1)
  else (w, Normal).

(** The seven leveled methods of the [Logger] interface, by severity. *)
Inductive severity :=
| SevDebug | SevInfo | SevWarn | SevError | SevDPanic | SevPanic | SevFatal.

Definition level_of (s : severity) : LogLevel :=
  match s with
  | SevDebug => DebugLevel
  | SevInfo => InfoLevel
  | SevWarn => WarnLevel
  | SevError => ErrorLevel
  | SevDPanic => DPanicLevel
  | SevPanic => PanicLevel
  | SevFatal => FatalLevel
  end.

Definition level_name (s : severity) : string :=
  match s with
  | SevDebug => "DEBUG"
  | SevInfo => "INFO"
  | SevWarn => "WARN"
  | SevError => "ERROR"
  | SevDPanic => "DPANIC"
  | SevPanic => "PANIC"
  | SevFatal => "FATAL"
  end.

Definition emit (s : severity) (l : asyncLogger) (msg : string)
  (fields : list value) (now : string) (w : world) : world * outcome :=
  match s with
  | SevDebug => Debug l msg fields now w
  | SevInfo => Info l msg fields now w
  | SevWarn => Warn l msg fields now w
  | SevError => Error l msg fields now w
  | SevDPanic => DPanic l msg fields now w
  | SevPanic => Panic l msg fields now w
  | SevFatal => Fatal l msg fields now w
  end.

End WithGrowth.

(** *** The worker [run]

    The goroutine's own variables are the batch buffer and the place it
    is at: in the outer [select], in the drain loop entered on
    [ctx.Done()], or returned.  A [select] picks any of its ready cases,
    so the case picked is given from outside. *)
Inductive select_case := CaseDone | CaseTick | CaseRecv.

Inductive phase := Selecting | Draining | Returned.

(** The closure [flush]: one [Write] of the whole batch when it is not
    empty, and the batch is reset; the result of [Write] is ignored. *)
Definition flush (l : asyncLogger) (batch : string) (w : world)
  : string * world :=
  if decide (0 < String.length batch)
  then (EmptyString, write (writer l) batch w)
  else (batch, w).

(** One round of the outer [select] with case [c] picked; [None] when
    [c] is not ready.  The ticker may have fired at any time. *)
Definition run_select (l : asyncLogger) (done : bool) (c : select_case)
  (batch : string) (w : world) : option (string * phase * world) :=
  match c with
  | CaseDone => if done then Some (batch, Draining, w) else None
  | CaseTick =>
      let '(batch, w) := flush l batch w in Some (batch, Selecting, w)
  | CaseRecv =>
      match try_recv (logChan l) w with
      | Some (msg, w) =>
          let batch := batch +:+ msg in
          if decide (bufferSize l <= Z.of_nat (String.length batch))%Z
          then let '(batch, w) := flush l batch w in Some (batch, Selecting, w)
          else Some (batch, Selecting, w)
      | None => None
      end
  end.

(** One round of the drain loop: receive when an item is pending, else
    the [default] case flushes and returns. *)
Definition run_drain (l : asyncLogger) (batch : string) (w : world)
  : string * phase * world :=
  match try_recv (logChan l) w with
  | Some (msg, w) => (batch +:+ msg, Draining, w)
  | None => let '(batch, w) := flush l batch w in (batch, Returned, w)
  end.

(** *** One writer, its worker and its producers

    [accepted] is a history variable, not program state: the lines the
    channel of the writer took, in the order it took them. *)
Record system := {
  sys_world : world;
  ctx_done : bool;
  batch : string;
  at_ : phase;
  accepted : list string
}.

(** What can happen next: some goroutine calls [lg.log], the context is
    cancelled, the worker's outer [select] picks a case, or the worker
    makes one round of its drain loop. *)
Inductive action :=
| ALog (lg : asyncLogger) (level msg : string) (fields : list value)
    (now : string)
| ACancel
| ASelect (c : select_case)
| ADrain.

Definition is_log (a : action) : bool :=
  match a with ALog _ _ _ _ _ => true | _ => false end.

(** The system right after [NewAsyncLogger] returned. *)
Definition boot (w : world) : system :=
  {| sys_world := w; ctx_done := false; batch := EmptyString;
     at_ := Selecting; accepted := [] |}.

(** The one write a flush of [data] makes, none when [data] is empty. *)
Definition flushed (data : string) : list string :=
  if decide (0 < String.length data) then [data] else [].

(** What holds of the writer of [l] in every state: its channel keeps its
    capacity [K] and holds at most [K] items; the bytes written, batched
    and pending, in this order, are the bytes of the accepted lines after
    the bytes [base] the stream held at the start; and the worker leaves
    the outer [select] only once the context is cancelled. *)
Definition writer_inv (l : asyncLogger) (base : string) (K : nat)
  (s : system) : Prop :=
  capacity (logChan l) (sys_world s) = Some K /\
  length (pending (logChan l) (sys_world s)) <= K /\
  join (stdout (sys_world s)) +:+ batch s
    +:+ join (pending (logChan l) (sys_world s))
  = base +:+ join (accepted s) /\
  (ctx_done s = false -> at_ s = Selecting).

(** What holds from the cancellation on, as long as nobody logs: the
    context stays cancelled, the accepted lines stay [acc], and a worker
    that returned left nothing batched and nothing pending. *)
Definition after_cancel (l : asyncLogger) (acc : list string) (s : system)
  : Prop :=
  ctx_done s = true /\ accepted s = acc /\
  (at_ s = Returned ->
   batch s = EmptyString /\ pending (logChan l) (sys_world s) = []).

Section System.
Context `{GrowthPolicy}.

(** A step of the system whose worker runs [l.run]; [None] when the
    action cannot happen in this state. *)
Definition step (l : asyncLogger) (a : action) (s : system) : option system :=
  match a with
  | ALog lg level msg fields now =>
      let '(line, w1) := log_line lg level msg fields now (sys_world s) in
      let took :=
        if decide (logChan lg = logChan l)
        then match try_send (logChan lg) line w1 with
             | Some _ => [line]
             | None => []
             end
        else [] in
      Some {| sys_world := enqueue lg line w1; ctx_done := ctx_done s;
              batch := batch s; at_ := at_ s;
              accepted := accepted s ++ took |}
  | ACancel =>
      Some {| sys_world := sys_world s; ctx_done := true;
              batch := batch s; at_ := at_ s; accepted := accepted s |}
  | ASelect c =>
      match at_ s with
      | Selecting =>
          match run_select l (ctx_done s) c (batch s) (sys_world s) with
          | Some (b, ph, w) =>
              Some {| sys_world := w; ctx_done := ctx_done s;
                      batch := b; at_ := ph; accepted := accepted s |}
          | None => None
          end
      | _ => None
      end
  | ADrain =>
      match at_ s with
      | Draining =>
          let '(b, ph, w) := run_drain l (batch s) (sys_world s) in
          Some {| sys_world := w; ctx_done := ctx_done s;
                  batch := b; at_ := ph; accepted := accepted s |}
      | _ => None
      end
  end.

Fixpoint exec (l : asyncLogger) (tr : list action) (s : system)
  : option system :=
  match tr with
  | [] => Some s
  | a :: tr' =>
      match step l a s with
      | Some s' => exec l tr' s'
      | None => None
      end
  end.

(** The worker's way out once the context is cancelled: the outer
    [select] picks [ctx.Done()], then the drain loop runs once per
    pending item and once more. *)
Definition shutdown (l : asyncLogger) (s : system) : list action :=
  match at_ s with
  | Selecting =>
      ASelect CaseDone
        :: repeat ADrain (S (length (pending (logChan l) (sys_world s))))
  | Draining =>
      repeat ADrain (S (length (pending (logChan l) (sys_world s))))
  | Returned => []
  end.

End System.

(** *** [ParseLevel]

    [strings.ToLower] is the Go library's.  On a string of ASCII bytes
    it returns the string itself when no byte is an upper-case letter and
    otherwise lowers the bytes [A] to [Z]; on any other string it is
    [strings.Map(unicode.ToLower, s)], which goes through the Unicode
    tables and is taken as the parameter [mapToLower]. *)
Definition isASCIIByte (c : ascii) : bool := nat_of_ascii c <? 128.

Definition isUpperByte (c : ascii) : bool :=
  (65 <=? nat_of_ascii c) && (nat_of_ascii c <=? 90).

Definition lowerByte (c : ascii) : ascii :=
  if isUpperByte c then ascii_of_nat (nat_of_ascii c + 32) else c.

Fixpoint isASCII (s : string) : bool :=
  match s with
  | EmptyString => true
  | String c s' => isASCIIByte c && isASCII s'
  end.

Fixpoint hasUpper (s : string) : bool :=
  match s with
  | EmptyString => false
  | String c s' => isUpperByte c || hasUpper s'
  end.

Fixpoint lowerBytes (s : string) : string :=
  match s with
  | EmptyString => EmptyString
  | String c s' => String (lowerByte c) (lowerBytes s')
  end.

Section ParseLevel.
Variable mapToLower : string -> string.

Definition ToLower (s : string) : string :=
  if isASCII s
  then (if hasUpper s then lowerBytes s else s)
  else mapToLower s.

(** The [switch] on the lowered name, case by case. *)
Definition ParseLevel (level : string) : LogLevel :=
  let name := ToLower level in
  if decide (name = "debug") then DebugLevel
  else if decide (name = "info") then InfoLevel
  else if decide (name = "warn" \/ name = "warning") then WarnLevel
  else if decide (name = "error") then ErrorLevel
  else if decide (name = "dpanic") then DPanicLevel
  else if decide (name = "panic") then PanicLevel
  else if decide (name = "fatal") then FatalLevel
  else InfoLevel.
End ParseLevel.

(** *** The sampling flag of the correlation token

    [requests] is the process-wide [atomic.Int64]; a generation reads it,
    decides, and the deferred [Add(1)] runs as the function returns. *)
Definition generateTraceFlags (requests : Z) : string * Z :=
  let flags := if decide (Z.rem requests 100 = 0)%Z then "01" else "00" in
  (flags, GoInt.add requests 1).

(** [generateTraceparent], given the two identifiers as drawn and
    formatted: [version-traceID-spanID-traceFlags]. *)
Definition generateTraceparent (traceID spanID : string) (requests : Z)
  : string * Z :=
  let version := "00" in
  let '(traceFlags, requests) := generateTraceFlags requests in
  (version +:+ "-" +:+ traceID +:+ "-" +:+ spanID +:+ "-" +:+ traceFlags,
   requests).

(** [n] generations one after the other: the flags in order and the
    counter left behind. *)
Fixpoint generations (n : nat) (requests : Z) : list string * Z :=
  match n with
  | 0 => ([], requests)
  | S n' =>
      let '(flags, requests) := generateTraceFlags requests in
      let '(rest, requests) := generations n' requests in
      (flags :: rest, requests)
  end.

End Logger.

(** ** Results of calls that can fail or panic *)

Inductive error :=
| ErrSyntax (input : string)
| ErrRange (input : string)
| Wrapped (prefix : string) (e : error).

Inductive result (A : Type) :=
| Ok (a : A)
| Err (e : error)
| Panicked (reason : string).

Arguments Ok {A} a.
Arguments Err {A} e.
Arguments Panicked {A} reason.

(** ** Package repository *)

Module Repository.

Record Task := { ID : Z; Title : string; Status : string }.

(** [TaskRepository] without its lock and its logger; a [*task.Task] is
    the task it points to. *)
Record TaskRepository := {
  tasksByID : gmap Z Task;
  tasksByStatus : gmap string (list Z);
  allTasksIDs : list Z;
  counter : Z
}.

Definition NewTaskRepository : TaskRepository :=
  {| tasksByID := ∅; tasksByStatus := ∅; allTasksIDs := []; counter := 0 |}.

(** [Create]: the next id is given to the task, and the task enters the
    map, the list of its status and the list of all ids. *)
Definition Create (r : TaskRepository) (t : Task) : TaskRepository * Task :=
  let counter' := GoInt.add (counter r) 1 in
  let t := {| ID := counter'; Title := Title t; Status := Status t |} in
  ({| tasksByID := <[ID t := t]> (tasksByID r);
      tasksByStatus :=
        <[Status t := default [] (tasksByStatus r !! Status t) ++ [ID t]]>
          (tasksByStatus r);
      allTasksIDs := allTasksIDs r ++ [ID t];
      counter := counter' |}, t).

(** The slice expression [s[low:high]]: the runtime checks
    [0 <= low <= high <= cap(s)] and panics otherwise.  [GetAll] caps
    [high] at [len(s)], which is within the capacity, so the length
    stands for the capacity here. *)
Definition slice_expr (s : list Z) (low high : Z) : option (list Z) :=
  if decide (0 <= low /\ low <= high /\ high <= Z.of_nat (length s))%Z
  then Some (take (Z.to_nat (high - low)) (drop (Z.to_nat low) s))
  else None.

(** The id list [GetAll] pages over: [r.tasksByStatus[statusFilter]] when a
    filter is given, else [r.allTasksIDs]. *)
Definition selectIDs (r : TaskRepository) (statusFilter : string) : list Z :=
  if decide (statusFilter <> EmptyString)
  then default [] (tasksByStatus r !! statusFilter)
  else allTasksIDs r.

(** [GetAll].  The [Debug] calls go to the logger of the context; they
    return normally and have no part in the result.  A missing key of
    [tasksByStatus] gives the nil slice, a missing id of [tasksByID]
    the nil pointer ([None]). *)
Definition GetAll (r : TaskRepository) (statusFilter : string)
  (limit offset : Z) : result (list (option Task)) :=
  let taskIDs := selectIDs r statusFilter in
  if decide (Z.of_nat (length taskIDs) <= offset)%Z then Ok []
  else
    let end_ := GoInt.add offset limit in
    let end_ :=
      if decide (Z.of_nat (length taskIDs) < end_)%Z
      then Z.of_nat (length taskIDs) else end_ in
    match slice_expr taskIDs offset end_ with
    | None => Panicked "slice bounds out of range"
    | Some paginateIDs => Ok (map (fun id => tasksByID r !! id) paginateIDs)
    end.

End Repository.

(** ** Package service *)

Module Service.
Import Repository.

(** [TaskService.GetAllTasks]: the repository's answer, its error
    wrapped; a panic goes up unchanged. *)
Definition GetAllTasks (repo : TaskRepository) (statusFilter : string)
  (limit offset : Z) : result (list (option Task)) :=
  match GetAll repo statusFilter limit offset with
  | Ok tasks => Ok tasks
  | Err e => Err (Wrapped "service: error getting all tasks: " e)
  | Panicked reason => Panicked reason
  end.

End Service.

(** ** Package handler *)

Module Handler.
Import Repository.

Definition defaultLimit : Z := 10%Z.
Definition defaultOffset : Z := 0%Z.

Definition StatusOK : Z := 200%Z.
Definition StatusBadRequest : Z := 400%Z.
Definition StatusInternalServerError : Z := 500%Z.

Definition isDigit (c : ascii) : bool :=
  (48 <=? nat_of_ascii c) && (nat_of_ascii c <=? 57).

(** The value of a string of decimal digits, [None] on any other byte. *)
Fixpoint digits (s : string) (acc : Z) : option Z :=
  match s with
  | EmptyString => Some acc
  | String c s' =>
      if isDigit c
      then digits s' (10 * acc + Z.of_nat (nat_of_ascii c - 48))%Z
      else None
  end.

(** [strconv.Atoi]: an optional sign, then one decimal digit or more;
    the value must fit an [int]. *)
Definition Atoi (s : string) : result Z :=
  let '(neg, body) :=
    match s with
    | String "-"%char s' => (true, s')
    | String "+"%char s' => (false, s')
    | _ => (false, s)
    end in
  match body with
  | EmptyString => Err (ErrSyntax s)
  | _ =>
      match digits body 0 with
      | None => Err (ErrSyntax s)
      | Some n =>
          let val := if neg then (- n)%Z else n in
          if decide (GoInt.min_int <= val <= GoInt.max_int)%Z
          then Ok val else Err (ErrRange s)
      end
  end.

(** [r.URL.Query().Get(key)]: the first value of the key, or the empty
    string. *)
Definition Get (query : gmap string (list string)) (key : string) : string :=
  match query !! key with
  | Some (v :: _) => v
  | _ => EmptyString
  end.

Definition parseIntQueryParam (query : gmap string (list string))
  (key : string) (defaultValue : Z) : result Z :=
  let valStr := Get query key in
  if decide (valStr = EmptyString) then Ok defaultValue
  else
    match Atoi valStr with
    | Ok val => Ok val
    | Err err => Err err
    | Panicked reason => Panicked reason
    end.

(** What [getTasks] does to the response: [pkg.WriteError], [pkg.WriteJSON],
    or it panics before writing. *)
Inductive response :=
| WriteError (status : Z) (message : string)
| WriteJSON (status : Z) (tasks : list (option Task))
| Panics (reason : string).

(** [getTasks] over the service of [main], a [TaskService] on the
    repository. *)
Definition getTasks (repo : TaskRepository) (query : gmap string (list string))
  : response :=
  let statusFilter := Get query "status" in
  match parseIntQueryParam query "limit" defaultLimit with
  | Err _ => WriteError StatusBadRequest "Invalid limit"
  | Panicked reason => Panics reason
  | Ok limit =>
      match parseIntQueryParam query "offset" defaultOffset with
      | Err _ => WriteError StatusBadRequest "Invalid offset"
      | Panicked reason => Panics reason
      | Ok offset =>
          match Service.GetAllTasks repo statusFilter limit offset with
          | Err _ => WriteError StatusInternalServerError "error getting tasks"
          | Panicked reason => Panics reason
          | Ok tasks => WriteJSON StatusOK tasks
          end
      end
  end.

End Handler.

(** ** More of package logger: options by kind, what a trace logs *)

Module LoggerMore.
Import Slice Logger.

(** A call of one of the two option constructors of the package. *)
Inductive option_call :=
| BufferSizeCall (size : Z)
| FlushIntervalCall (interval : Z).

Definition option_of (o : option_call) : Option :=
  match o with
  | BufferSizeCall size => WithBufferSize size
  | FlushIntervalCall interval => WithFlushInterval interval
  end.

(** The last positive value of a list, after a start value. *)
Fixpoint last_positive (start : Z) (values : list Z) : Z :=
  match values with
  | [] => start
  | v :: rest => last_positive (if decide (0 < v)%Z then v else start) rest
  end.

Definition sizes_of (calls : list option_call) : list Z :=
  omap (fun o => match o with BufferSizeCall n => Some n | _ => None end) calls.

Definition intervals_of (calls : list option_call) : list Z :=
  omap (fun o => match o with FlushIntervalCall d => Some d | _ => None end) calls.

(** The action is no call of [log], or one through a logger on the
    channel of [l]. *)
Definition on_channel (l : asyncLogger) (a : action) : Prop :=
  match a with
  | ALog lg _ _ _ _ => logChan lg = logChan l
  | _ => True
  end.

(** The calls of [log] of a trace. *)
Definition log_calls (tr : list action) : nat :=
  length (filter (fun a => is_log a = true) tr).

(** [Close]: [l.wg.Wait()] returns once the worker has returned, and
    blocks ([None]) until then. *)
Definition Close (s : system) : option system :=
  match at_ s with
  | Returned => Some s
  | _ => None
  end.

(** The worker holds fewer bytes than the buffer size whenever it is back
    at the outer [select]. *)
Definition batch_small (l : asyncLogger) (s : system) : Prop :=
  at_ s = Selecting -> (Z.of_nat (String.length (batch s)) < bufferSize l)%Z.

(** The accepted lines are the lines consumed by the worker followed by
    the lines pending; the sink got only non-empty writes after its first
    content [base]; and the bytes written and batched are the bytes of the
    consumed lines. *)
Definition records_inv (l : asyncLogger) (base : list string) (s : system)
  : Prop :=
  exists consumed written,
    accepted s = consumed ++ pending (logChan l) (sys_world s) /\
    stdout (sys_world s) = base ++ written /\
    Forall (fun data => data <> EmptyString) written /\
    join written +:+ batch s = join consumed.

End LoggerMore.

(** ** Tasks by id: the rest of repository, service and handler *)

Module TaskAPI.
Import Repository.

(** The errors of the by-id path: [ErrNotFound], the error of
    [strconv.ParseInt], and [fmt.Errorf] with a prefix and [%w]. *)
Inductive lookup_error :=
| ErrNotFound
| ErrParse (e : error)
| Wrap (prefix : string) (cause : lookup_error).

Inductive fetched :=
| Found (t : Task)
| Failed (e : lookup_error).

(** [errors.Is(err, repository.ErrNotFound)]: down the chain of wrapped
    errors; the error of [strconv] unwraps to a syntax or range error. *)
Fixpoint Is_ErrNotFound (e : lookup_error) : bool :=
  match e with
  | ErrNotFound => true
  | ErrParse _ => false
  | Wrap _ cause => Is_ErrNotFound cause
  end.

(** [strconv.ParseInt(id, 10, 64)]: the syntax and the range of
    [strconv.Atoi] on a 64-bit [int]. *)
Definition ParseInt (id : string) : result Z := Handler.Atoi id.

(** [GetByID]; the [Debug] calls have no part in the result.  The
    parser never panics: the last branch is there for the type only. *)
Definition GetByID (r : TaskRepository) (id : string) : fetched :=
  match ParseInt id with
  | Ok taskID =>
      match tasksByID r !! taskID with
      | Some t => Found t
      | None => Failed ErrNotFound
      end
  | Err err => Failed (Wrap "invalid task ID format: " (ErrParse err))
  | Panicked _ => Failed (Wrap "invalid task ID format: " (ErrParse (ErrSyntax id)))
  end.

(** [TaskService.CreateTask]: a task of status [new]; [Create] never
    fails, so the error branch is never taken. *)
Definition CreateTask (repo : TaskRepository) (title : string)
  : TaskRepository * Task :=
  let t := {| ID := 0; Title := title; Status := "new" |} in
  Create repo t.

Definition GetTaskByID (repo : TaskRepository) (id : string) : fetched :=
  match GetByID repo id with
  | Found t => Found t
  | Failed err => Failed (Wrap "service: error getting task: " err)
  end.

(** The tasks a sequence of [CreateTask] calls leaves, oldest first. *)
Definition creates (titles : list string) (repo : TaskRepository)
  : TaskRepository :=
  foldl (fun r title => (CreateTask r title).1) repo titles.

Definition StatusCreated : Z := 201%Z.
Definition StatusNotFound : Z := 404%Z.
Definition StatusMethodNotAllowed : Z := 405%Z.

(** What a handler answers: the answer of [getTasks], an error written
    by [pkg.WriteError], or one task written by [pkg.WriteJSON]. *)
Inductive reply :=
| Listed (r : Handler.response)
| Failure (status : Z) (message : string)
| One (status : Z) (t : Task).

(** [strings.TrimPrefix]. *)
Definition TrimPrefix (s prefix : string) : string :=
  if String.prefix prefix s
  then String.substring (String.length prefix)
         (String.length s - String.length prefix) s
  else s.

Section Handlers.
(** The text of an error of [strconv], the Go library's. *)
Variable strconvText : error -> string.

(** [err.Error()]. *)
Fixpoint Error_text (e : lookup_error) : string :=
  match e with
  | ErrNotFound => "task not found"
  | ErrParse e => strconvText e
  | Wrap prefix cause => prefix +:+ Error_text cause
  end.

Definition getTaskByID (repo : TaskRepository) (id : string) : reply :=
  match GetTaskByID repo id with
  | Failed err =>
      if Is_ErrNotFound err
      then Failure StatusNotFound (Error_text err)
      else Failure Handler.StatusInternalServerError "error getting task"
  | Found t => One Handler.StatusOK t
  end.

Definition handleTaskByID (repo : TaskRepository) (method path : string)
  : reply :=
  if decide (method <> "GET")
  then Failure StatusMethodNotAllowed "Method not allowed"
  else
    let id := TrimPrefix path "/tasks/" in
    if decide (id = EmptyString)
    then Failure Handler.StatusBadRequest "Invalid task ID"
    else getTaskByID repo id.

End Handlers.

(** [createTask]; [body] is the request body as [encoding/json] decodes
    it: [None] for a decoding error, else the [title] field, empty when
    the field is missing. *)
Definition createTask (repo : TaskRepository) (body : option string)
  : TaskRepository * reply :=
  match body with
  | None => (repo, Failure Handler.StatusBadRequest "Invalid request body")
  | Some title =>
      if decide (title = EmptyString)
      then (repo, Failure Handler.StatusBadRequest "Title is required")
      else
        let '(repo, createdTask) := CreateTask repo title in
        (repo, One StatusCreated createdTask)
  end.

Definition handleTasks (repo : TaskRepository) (method : string)
  (query : gmap string (list string)) (body : option string)
  : TaskRepository * reply :=
  if decide (method = "GET") then (repo, Listed (Handler.getTasks repo query))
  else if decide (method = "POST") then createTask repo body
  else (repo, Failure StatusMethodNotAllowed "Method not allowed").

(** The ids [1..n] in order. *)
Definition ids_upto (n : nat) : list Z := (fun k => Z.of_nat (S k)) <$> seq 0 n.

(** The task [CreateTask] stores as the [k]-th (from 0) with a title. *)
Definition nth_task (k : nat) (title : string) : Task :=
  {| ID := Z.of_nat (S k); Title := title; Status := "new" |}.

(** A page of a list: at most [limit] elements from [offset] on. *)
Definition page {A} (l : list A) (offset limit : Z) : list A :=
  take (Z.to_nat limit) (drop (Z.to_nat offset) l).

End TaskAPI.

(** ** The logger in the request scope: contexts, the no-op logger, the
    middleware and the identifiers of the correlation token *)

Module Middleware.
Import Slice Logger.

(** A value of the interface [Logger]: a pointer to an [asyncLogger], held
    by its fields, or to the [noOpLogger]. *)
Inductive Logger :=
| Async (l : asyncLogger)
| NoOp.

Definition NewNoOpLogger : Logger := NoOp.

(** The keys of a [context.Context]: [loggerKey], of the unexported type
    [key], and the keys of other packages, which are of other types and
    so never equal to it. *)
Inductive ctx_key :=
| loggerKey
| foreignKey (name : string).

(** The key comparison of [Context.Value]. *)
Definition key_eqb (a b : ctx_key) : bool :=
  match a, b with
  | loggerKey, loggerKey => true
  | foreignKey x, foreignKey y => bool_decide (x = y)
  | _, _ => false
  end.

(** What a context holds under a key: a [Logger], the nil interface, or
    a value of another package. *)
Inductive ctx_value :=
| LoggerValue (l : Logger)
| NilValue
| ForeignValue (v : value).

(** A context: the background, or a parent with one more key. *)
Inductive context :=
| Background
| WithValue (parent : context) (key : ctx_key) (val : ctx_value).

(** [ctx.Value(key)]: the nearest value of the key, nil when there is
    none. *)
Fixpoint Value (ctx : context) (key : ctx_key) : ctx_value :=
  match ctx with
  | Background => NilValue
  | WithValue parent k val => if key_eqb k key then val else Value parent key
  end.

(** [NewContext]; the logger is an interface value, [None] when nil. *)
Definition NewContext (ctx : context) (l : option Logger) : context :=
  WithValue ctx loggerKey
    (match l with Some l => LoggerValue l | None => NilValue end).

(** [FromContext]: the assertion [.(Logger)] holds for a logger only. *)
Definition FromContext (ctx : context) : Logger :=
  match Value ctx loggerKey with
  | LoggerValue l => l
  | _ => NewNoOpLogger
  end.

Section Calls.
Context `{GrowthPolicy}.

(** The calls [l.With(fields...)] and [l.Info(msg, fields...)] on a value
    of the interface. *)
Definition call_With (lg : Logger) (fields : list value) (w : world)
  : Logger * world :=
  match lg with
  | Async l => let '(l', w') := With l fields w in (Async l', w')
  | NoOp => (NoOp, w)
  end.

Definition call_Info (lg : Logger) (msg : string) (fields : list value)
  (now : string) (w : world) : world * outcome :=
  match lg with
  | Async l => Info l msg fields now w
  | NoOp => (w, Normal)
  end.

End Calls.

(** The digit of [%x] for a value below 16. *)
Definition hexDigit (d : Z) : ascii :=
  match d with
  | 0 => "0" | 1 => "1" | 2 => "2" | 3 => "3" | 4 => "4" | 5 => "5"
  | 6 => "6" | 7 => "7" | 8 => "8" | 9 => "9" | 10 => "a" | 11 => "b"
  | 12 => "c" | 13 => "d" | 14 => "e" | _ => "f"
  end%Z%char.

(** The last [n] hexadecimal digits of [x], the most significant first. *)
Fixpoint hex (n : nat) (x : Z) : string :=
  match n with
  | 0 => EmptyString
  | S n' => hex n' (x / 16) +:+ String (hexDigit (x mod 16)) EmptyString
  end.

(** [fmt.Sprintf] with the verb [%016x] on a [uint64]: sixteen digits,
    which is all a [uint64] has. *)
Definition Sprintf_016x (x : Z) : string := hex 16 x.

(** [generateTraceID] and [generateSpanID], given the draws of
    [rand.Uint64]. *)
Definition generateTraceID (hi lo : Z) : string :=
  Sprintf_016x hi +:+ Sprintf_016x lo.

Definition generateSpanID (randomNum : Z) : string := Sprintf_016x randomNum.

(** A value of [uint64]. *)
Definition is_uint64 (x : Z) : Prop := (0 <= x < 2 ^ 64)%Z.

(** A lower-case hexadecimal digit, and a string of them. *)
Definition isHexDigit (c : ascii) : bool :=
  let n := nat_of_ascii c in
  ((48 <=? n) && (n <=? 57)) || ((97 <=? n) && (n <=? 102)).

Fixpoint allHex (s : string) : bool :=
  match s with
  | EmptyString => true
  | String c s' => isHexDigit c && allHex s'
  end.

(** A request, by what the middleware reads of it. *)
Record Request := { Method : string; Path : string; Ctx : context }.

(** [r.WithContext(ctx)]. *)
Definition WithContext (r : Request) (ctx : context) : Request :=
  {| Method := Method r; Path := Path r; Ctx := ctx |}.

(** What a handler can change: the world of the loggers and the counter
    [requests] of the package. *)
Record state := { st_world : world; requests : Z }.

(** [next.ServeHTTP]: it returns or panics. *)
Definition http_Handler := Request -> state -> state * outcome.

Section Serve.
Context `{GrowthPolicy}.

(** The handler [RequestLogger(baseLogger)(next)] on one request. [hi],
    [lo] and [randomNum] are the draws of [rand.Uint64], [started] and
    [completed] the two readings of the clock as [log] formats them,
    [elapsed] the text of [time.Since(start)], a [time.Duration], which
    [appendValue] renders by [%v]. *)
Definition RequestLogger (baseLogger : Logger) (next : http_Handler)
  (hi lo randomNum : Z) (started completed elapsed : string)
  (r : Request) (st : state) : state * outcome :=
  let '(traceparent, requests') :=
    generateTraceparent (generateTraceID hi lo) (generateSpanID randomNum)
      (requests st) in
  let '(reqLogger, w) :=
    call_With baseLogger [VString "traceparent"; VString traceparent]
      (st_world st) in
  let '(w, o) :=
    call_Info reqLogger "request started"
      [VString "method"; VString (Method r); VString "path"; VString (Path r)]
      started w in
  match o with
  | Normal =>
      let ctx := NewContext (Ctx r) (Some reqLogger) in
      let '(st', o) :=
        next (WithContext r ctx) {| st_world := w; requests := requests' |} in
      match o with
      | Normal =>
          let '(w', o) :=
            call_Info reqLogger "request completed"
              [VString "duration"; VOther elapsed] completed (st_world st') in
          ({| st_world := w'; requests := requests st' |}, o)
      | _ => (st', o)
      end
  | _ => ({| st_world := w; requests := requests' |}, o)
  end.

End Serve.

End Middleware.

(** * Facts and theorems *)

(** ** Go integers *)

Module GoIntFacts.
Import GoInt.
Local Open Scope Z_scope.

Lemma wrap_small x : in_int x -> wrap 64 x = x.
Proof.
  unfold in_int, min_int, max_int, wrap. intros Hx.
  change (2 ^ (64 - 1)) with 9223372036854775808.
  change (2 ^ 64) with 18446744073709551616.
  change (2 ^ 63) with 9223372036854775808 in Hx.
  rewrite Z.mod_small; lia.
Qed.

Lemma wrap_in_int x : in_int (wrap 64 x).
Proof.
  unfold in_int, min_int, max_int, wrap.
  change (2 ^ (64 - 1)) with 9223372036854775808.
  change (2 ^ 64) with 18446744073709551616.
  change (2 ^ 63) with 9223372036854775808.
  pose proof (Z.mod_pos_bound (x + 9223372036854775808) 18446744073709551616).
  lia.
Qed.

Lemma add_small x y : in_int (x + y) -> add x y = x + y.
Proof. apply wrap_small. Qed.

Lemma max_int_val : max_int = 9223372036854775807.
Proof. reflexivity. Qed.

Lemma min_int_val : min_int = -9223372036854775808.
Proof. reflexivity. Qed.

End GoIntFacts.

(** ** The sampling flag *)

Module TraceFlagsSpec.
Import Logger.
Local Open Scope Z_scope.

Lemma flag_sampled requests :
  fst (generateTraceFlags requests) = "01" <-> Z.rem requests 100 = 0.
Proof.
  unfold generateTraceFlags. simpl. case_decide; split; intros; congruence.
Qed.

Lemma flag_two_valued requests :
  fst (generateTraceFlags requests) = "00" <-> Z.rem requests 100 <> 0.
Proof.
  unfold generateTraceFlags. simpl. case_decide; split; intros; congruence.
Qed.

Lemma counter_after requests :
  snd (generateTraceFlags requests) = GoInt.add requests 1.
Proof. reflexivity. Qed.

(** [n] generations from a counter that does not overflow: the [k]-th flag
    is the one decided on the value [c + k], and the counter ends [n]
    higher. *)
Lemma generations_run n : forall c,
  0 <= c -> c + Z.of_nat n <= GoInt.max_int ->
  snd (generations n c) = c + Z.of_nat n /\
  length (fst (generations n c)) = n /\
  forall k, (k < n)%nat ->
    nth k (fst (generations n c)) EmptyString
    = fst (generateTraceFlags (c + Z.of_nat k)).
Proof.
  induction n as [|n IH]; intros c Hc Hmax.
  - simpl. split; [lia |]. split; [reflexivity |]. intros k Hk. lia.
  - cbn [generations].
    assert (Hadd : GoInt.add c 1 = c + 1).
    { apply GoIntFacts.add_small. unfold GoInt.in_int.
      rewrite GoIntFacts.max_int_val in *. rewrite GoIntFacts.min_int_val. lia. }
    pose proof (counter_after c) as Hc1. rewrite Hadd in Hc1.
    destruct (generateTraceFlags c) as [f c1] eqn:Ef. cbn [snd] in Hc1. subst c1.
    destruct (IH (c + 1)) as (Hs & Hl & Hn); [lia | lia |].
    destruct (generations n (c + 1)) as [rest c'] eqn:E.
    cbn [fst snd length] in *.
    split; [lia |]. split; [lia |].
    intros [|k] Hk; cbn [nth].
    + rewrite Z.add_0_r, Ef. reflexivity.
    + rewrite Hn by lia. do 2 f_equal. lia.
Qed.

(** C8. Under sequential generation the flag is [01] exactly when the
    counter is a multiple of 100 at the check and [00] otherwise; the
    counter is incremented once, after the check; and over 1000
    generations from a fresh counter the flags are ten runs of one [01]
    followed by ninety-nine [00], so the [k]-th generation (from 0) is
    sampled exactly when [k] is a multiple of 100. *)
Theorem sampling_every_hundredth :
  (forall requests,
      fst (generateTraceFlags requests) = "01" <-> Z.rem requests 100 = 0) /\
  (forall requests,
      fst (generateTraceFlags requests) = "00" <-> Z.rem requests 100 <> 0) /\
  (forall requests,
      snd (generateTraceFlags requests) = GoInt.add requests 1) /\
  (forall requests,
      GoInt.min_int <= requests < GoInt.max_int ->
      snd (generateTraceFlags requests) = requests + 1) /\
  (forall traceID spanID requests,
      generateTraceparent traceID spanID requests
      = ("00-" +:+ traceID +:+ "-" +:+ spanID +:+ "-"
           +:+ fst (generateTraceFlags requests),
         snd (generateTraceFlags requests))) /\
  generations 1000 0
  = (mjoin (replicate 10 ("01" :: replicate 99 "00")), 1000) /\
  (forall k, (k < 1000)%nat ->
      nth k (fst (generations 1000 0)) EmptyString = "01"
      <-> (k mod 100 = 0)%nat) /\
  length (filter (fun flags => flags = "01") (fst (generations 1000 0))) = 10%nat.
Proof.
  split; [exact flag_sampled |].
  split; [exact flag_two_valued |].
  split; [exact counter_after |].
  split.
  { intros requests Hr. rewrite counter_after. apply GoIntFacts.add_small.
    unfold GoInt.in_int. lia. }
  split; [reflexivity |].
  split; [vm_compute; reflexivity |].
  split.
  - intros k Hk.
    destruct (generations_run 1000 0) as (_ & _ & Hn);
      [lia | rewrite GoIntFacts.max_int_val; lia |].
    rewrite Hn by exact Hk. rewrite flag_sampled, Z.add_0_l.
    rewrite Z.rem_mod_nonneg by lia. clear Hn.
    change 100 with (Z.of_nat 100). rewrite <- Nat2Z.inj_mod. lia.
  - vm_compute. reflexivity.
Qed.

End TraceFlagsSpec.

(** ** [ParseLevel] *)

Module ParseLevelSpec.
Import Logger.

Lemma lowerByte_not_upper c : isUpperByte (lowerByte c) = false.
Proof. destruct c as [[] [] [] [] [] [] [] []]; reflexivity. Qed.

Lemma lowerByte_ascii c : isASCIIByte (lowerByte c) = isASCIIByte c.
Proof. destruct c as [[] [] [] [] [] [] [] []]; reflexivity. Qed.

Lemma lowerByte_fixed c : isUpperByte c = false -> lowerByte c = c.
Proof. unfold lowerByte. intros ->. reflexivity. Qed.

Lemma hasUpper_lowerBytes s : hasUpper (lowerBytes s) = false.
Proof.
  induction s as [|c s IH]; [reflexivity |].
  cbn [lowerBytes hasUpper]. rewrite lowerByte_not_upper, IH. reflexivity.
Qed.

Lemma isASCII_lowerBytes s : isASCII (lowerBytes s) = isASCII s.
Proof.
  induction s as [|c s IH]; [reflexivity |].
  cbn [lowerBytes isASCII]. rewrite lowerByte_ascii, IH. reflexivity.
Qed.

Lemma lowerBytes_fixed s : hasUpper s = false -> lowerBytes s = s.
Proof.
  induction s as [|c s IH]; [reflexivity |].
  cbn [lowerBytes hasUpper]. intros Hu.
  apply orb_false_iff in Hu as [Hc Hs].
  rewrite (lowerByte_fixed c Hc), (IH Hs). reflexivity.
Qed.

Lemma lowerBytes_idem s : lowerBytes (lowerBytes s) = lowerBytes s.
Proof. apply lowerBytes_fixed, hasUpper_lowerBytes. Qed.

Section Lowering.
Variable mapToLower : string -> string.

(** On ASCII strings [strings.ToLower] lowers the bytes, whatever the
    Unicode tables hold. *)
Lemma ToLower_ascii s : isASCII s = true -> ToLower mapToLower s = lowerBytes s.
Proof.
  unfold ToLower. intros ->.
  destruct (hasUpper s) eqn:Hu; [reflexivity |].
  symmetry. apply lowerBytes_fixed, Hu.
Qed.

(** Lowering what [strings.Map(unicode.ToLower, s)] returned changes
    nothing: the simple lower-case mapping of Unicode is idempotent. *)
Hypothesis mapToLower_stable :
  forall s, isASCII s = false ->
            ToLower mapToLower (mapToLower s) = mapToLower s.

Lemma ToLower_idem s :
  ToLower mapToLower (ToLower mapToLower s) = ToLower mapToLower s.
Proof.
  destruct (isASCII s) eqn:Ha.
  - rewrite (ToLower_ascii s Ha).
    rewrite ToLower_ascii by (rewrite isASCII_lowerBytes; exact Ha).
    apply lowerBytes_idem.
  - unfold ToLower at 2 3. rewrite Ha. apply mapToLower_stable, Ha.
Qed.

(** C9. [ParseLevel] is a total function into the seven levels; it gives
    the same level for a name and for its lower-cased form, hence for any
    two names with the same lower-cased form; on ASCII names lowering is
    the byte-wise lowering of [A]..[Z]; each recognized lower-cased name
    gives its level and every other input gives [InfoLevel]. *)
Theorem ParseLevel_case_insensitive_total :
  (forall s, ParseLevel mapToLower s
             = ParseLevel mapToLower (ToLower mapToLower s)) /\
  (forall s t, ToLower mapToLower s = ToLower mapToLower t ->
               ParseLevel mapToLower s = ParseLevel mapToLower t) /\
  (forall s, isASCII s = true -> ToLower mapToLower s = lowerBytes s) /\
  (forall s, ParseLevel mapToLower s
             ∈ [DebugLevel; InfoLevel; WarnLevel; ErrorLevel; DPanicLevel;
                PanicLevel; FatalLevel]) /\
  (forall s,
      let name := ToLower mapToLower s in
      (name = "debug" -> ParseLevel mapToLower s = DebugLevel) /\
      (name = "info" -> ParseLevel mapToLower s = InfoLevel) /\
      (name = "warn" -> ParseLevel mapToLower s = WarnLevel) /\
      (name = "warning" -> ParseLevel mapToLower s = WarnLevel) /\
      (name = "error" -> ParseLevel mapToLower s = ErrorLevel) /\
      (name = "dpanic" -> ParseLevel mapToLower s = DPanicLevel) /\
      (name = "panic" -> ParseLevel mapToLower s = PanicLevel) /\
      (name = "fatal" -> ParseLevel mapToLower s = FatalLevel)) /\
  (forall s,
      ToLower mapToLower s
      ∉ ["debug"; "info"; "warn"; "warning"; "error"; "dpanic"; "panic";
         "fatal"] ->
      ParseLevel mapToLower s = InfoLevel).
Proof.
  split.
  { intros s. unfold ParseLevel. rewrite ToLower_idem. reflexivity. }
  split.
  { intros s t Hst. unfold ParseLevel. rewrite Hst. reflexivity. }
  split; [exact ToLower_ascii |].
  split.
  { intros s. unfold ParseLevel.
    repeat case_decide; set_solver. }
  split.
  { intros s name. subst name. unfold ParseLevel.
    repeat split; intros ->; reflexivity. }
  intros s Hs. unfold ParseLevel.
  repeat case_decide; try reflexivity; exfalso; apply Hs; set_solver.
Qed.

End Lowering.

(** Byte-wise lowering is a lower-casing that is stable in the sense the
    theorem asks for. *)
Lemma lowerBytes_stable s :
  isASCII s = false -> ToLower lowerBytes (lowerBytes s) = lowerBytes s.
Proof.
  intros Ha. unfold ToLower. rewrite isASCII_lowerBytes, Ha.
  apply lowerBytes_idem.
Qed.

Lemma ParseLevel_case_insensitive_total_witness :
  ParseLevel lowerBytes "WaRnInG" = WarnLevel /\
  ParseLevel lowerBytes "WaRnInG" = ParseLevel lowerBytes "warning" /\
  ParseLevel lowerBytes "verbose" = InfoLevel.
Proof.
  pose proof (ParseLevel_case_insensitive_total lowerBytes lowerBytes_stable)
    as (Hlow & Hsame & _ & _ & Hnames & Hdefault).
  split; [| split].
  - apply (Hnames "WaRnInG"). reflexivity.
  - apply Hsame. reflexivity.
  - apply Hdefault. vm_compute. set_solver.
Defined.

End ParseLevelSpec.

(** ** [GetAll] and its callers *)

Module GetAllSpec.
Import Repository.
Local Open Scope Z_scope.

Lemma slice_expr_negative_low s low high : low < 0 -> slice_expr s low high = None.
Proof. intros Hl. unfold slice_expr. case_decide; [lia | reflexivity]. Qed.

Lemma slice_expr_high_below_low s low high :
  high < low -> slice_expr s low high = None.
Proof. intros Hl. unfold slice_expr. case_decide; [lia | reflexivity]. Qed.

Lemma GetAll_guarded r statusFilter limit offset :
  Z.of_nat (length (selectIDs r statusFilter)) <= offset ->
  GetAll r statusFilter limit offset = Ok [].
Proof. intros Ho. unfold GetAll. case_decide; [reflexivity | lia]. Qed.

Lemma GetAll_negative_offset r statusFilter limit offset :
  offset < 0 ->
  GetAll r statusFilter limit offset = Panicked "slice bounds out of range".
Proof.
  intros Ho. unfold GetAll. case_decide; [lia |].
  rewrite slice_expr_negative_low by exact Ho. reflexivity.
Qed.

Lemma GetAll_negative_limit r statusFilter limit offset :
  GoInt.min_int <= limit < 0 ->
  0 <= offset < Z.of_nat (length (selectIDs r statusFilter)) ->
  offset <= GoInt.max_int ->
  GetAll r statusFilter limit offset = Panicked "slice bounds out of range".
Proof.
  intros Hl Ho Hmax. unfold GetAll. case_decide; [lia |].
  rewrite GoIntFacts.add_small
    by (unfold GoInt.in_int; rewrite GoIntFacts.max_int_val, GoIntFacts.min_int_val in *; lia).
  case_decide; [lia |].
  rewrite slice_expr_high_below_low by lia. reflexivity.
Qed.

Lemma parseIntQueryParam_given query key defaultValue :
  Handler.Get query key <> EmptyString ->
  Handler.parseIntQueryParam query key defaultValue
  = Handler.Atoi (Handler.Get query key).
Proof.
  intros Hv. unfold Handler.parseIntQueryParam. case_decide; [done |].
  destruct (Handler.Atoi _); reflexivity.
Qed.

Lemma parseIntQueryParam_absent query key defaultValue :
  Handler.Get query key = EmptyString ->
  Handler.parseIntQueryParam query key defaultValue = Ok defaultValue.
Proof.
  intros Hv. unfold Handler.parseIntQueryParam. case_decide; done.
Qed.

Lemma getTasks_negative_offset repo query :
  Handler.Get query "limit" = EmptyString ->
  Handler.Get query "offset" = "-1" ->
  Handler.getTasks repo query = Handler.Panics "slice bounds out of range".
Proof.
  intros Hl Ho. unfold Handler.getTasks.
  rewrite (parseIntQueryParam_absent _ _ _ Hl).
  rewrite parseIntQueryParam_given by (rewrite Ho; discriminate).
  rewrite Ho. change (Handler.Atoi "-1") with (@Ok Z (-1)).
  unfold Service.GetAllTasks.
  rewrite GetAll_negative_offset by lia. reflexivity.
Qed.

Lemma getTasks_negative_limit repo query :
  Handler.Get query "limit" = "-1" ->
  Handler.Get query "offset" = EmptyString ->
  selectIDs repo (Handler.Get query "status") <> [] ->
  Handler.getTasks repo query = Handler.Panics "slice bounds out of range".
Proof.
  intros Hl Ho Hne. unfold Handler.getTasks.
  rewrite parseIntQueryParam_given by (rewrite Hl; discriminate).
  rewrite Hl. change (Handler.Atoi "-1") with (@Ok Z (-1)).
  rewrite (parseIntQueryParam_absent _ _ _ Ho).
  unfold Service.GetAllTasks, Handler.defaultOffset.
  rewrite GetAll_negative_limit; [reflexivity | | | ].
  - rewrite GoIntFacts.min_int_val. lia.
  - destruct (selectIDs repo _); [done | cbn [length]; lia].
  - rewrite GoIntFacts.max_int_val. lia.
Qed.

(** C10, as the code has it. [GetAll] guards the offset from above only:
    an offset at or past the length of the selected id list gives the
    empty slice and no error.  A negative offset reaches the slice
    expression and panics there in every repository state and for every
    limit; a negative limit does so when the offset is non-negative and
    below the length of the selected list.  Both are reachable from the
    query parameters: [offset=-1] makes [getTasks] panic on every
    repository, [limit=-1] on every repository whose selected list is not
    empty. *)
Theorem GetAll_offset_guarded_from_above_only :
  (forall r statusFilter limit offset,
      Z.of_nat (length (selectIDs r statusFilter)) <= offset ->
      GetAll r statusFilter limit offset = Ok []) /\
  (forall r statusFilter limit offset,
      offset < 0 ->
      GetAll r statusFilter limit offset
      = Panicked "slice bounds out of range") /\
  (forall r statusFilter limit offset,
      GoInt.min_int <= limit < 0 ->
      0 <= offset < Z.of_nat (length (selectIDs r statusFilter)) ->
      offset <= GoInt.max_int ->
      GetAll r statusFilter limit offset
      = Panicked "slice bounds out of range") /\
  (forall query key defaultValue,
      Handler.Get query key = "-1" ->
      Handler.parseIntQueryParam query key defaultValue = Ok (-1)) /\
  (forall repo query,
      Handler.Get query "limit" = EmptyString ->
      Handler.Get query "offset" = "-1" ->
      Handler.getTasks repo query
      = Handler.Panics "slice bounds out of range") /\
  (forall repo query,
      Handler.Get query "limit" = "-1" ->
      Handler.Get query "offset" = EmptyString ->
      selectIDs repo (Handler.Get query "status") <> [] ->
      Handler.getTasks repo query
      = Handler.Panics "slice bounds out of range").
Proof.
  split; [exact GetAll_guarded |].
  split; [exact GetAll_negative_offset |].
  split; [exact GetAll_negative_limit |].
  split.
  { intros query key d Hv.
    rewrite parseIntQueryParam_given by (rewrite Hv; discriminate).
    rewrite Hv. reflexivity. }
  split; [exact getTasks_negative_offset | exact getTasks_negative_limit].
Qed.

(** C10, the case the claim as worded gets wrong: on the empty repository
    a call with offset 0 and limit -1 has a negative limit and
    [offset + limit] below [offset], yet the guard on the offset answers
    first, with the empty slice and no error; the same call on a
    repository holding one task panics. *)
Lemma GetAll_negative_limit_on_empty :
  (-1 < 0) /\
  GoInt.add 0 (-1) < 0 /\
  GetAll NewTaskRepository EmptyString (-1) 0 = Ok [] /\
  Handler.getTasks NewTaskRepository {[ "limit" := ["-1"] ]}
  = Handler.WriteJSON Handler.StatusOK [] /\
  GetAll (fst (Create NewTaskRepository
                 {| ID := 0; Title := "t"; Status := "new" |}))
    EmptyString (-1) 0
  = Panicked "slice bounds out of range".
Proof.
  split; [lia |].
  split; [vm_compute; reflexivity |].
  split; [vm_compute; reflexivity |].
  split; [vm_compute; reflexivity |].
  vm_compute; reflexivity.
Qed.

End GetAllSpec.

(** ** The store of arrays *)

Module SliceFacts.
Import Slice.

Lemma list_inserts_take_drop {A} (i : nat) (k l : list A) :
  i + length k <= length l ->
  list_inserts i k l = take i l ++ k ++ drop (i + length k) l.
Proof.
  intros Hlen.
  rewrite <- (take_drop i l) at 1.
  assert (Hi : length (take i l) = i) by (rewrite length_take; lia).
  rewrite <- Hi at 1. rewrite <- (Nat.add_0_r (length (take i l))).
  rewrite list_inserts_app_r. f_equal.
  rewrite <- (take_drop (length k) (drop i l)) at 1.
  rewrite list_inserts_0_r.
  - rewrite drop_drop. reflexivity.
  - rewrite length_take, length_drop. lia.
Qed.

Lemma take_inserts_le {A} (j i : nat) (k l : list A) :
  j <= i -> take j (list_inserts i k l) = take j l.
Proof.
  intros Hj. apply list_eq. intros n.
  destruct (decide (n < j)) as [Hn | Hn].
  - rewrite !lookup_take_lt by exact Hn.
    apply list_lookup_inserts_lt. lia.
  - rewrite !lookup_take_ge by lia. reflexivity.
Qed.

Section Facts.
Context `{GrowthPolicy}.
Implicit Types (h : gmap nat (list value)) (s t : slice) (xs : list value).

Lemma elems_length h s : slice_ok h s -> length (elems h s) = len s.
Proof.
  intros [Hle [H0 | (arr & Ha & Hl)]]; unfold elems.
  - assert (len s = 0) as -> by lia. reflexivity.
  - rewrite Ha. cbn [from_option id]. rewrite length_take. lia.
Qed.

Lemma elems_empty h s : len s = 0 -> elems h s = [].
Proof. intros Hs. unfold elems. rewrite Hs. reflexivity. Qed.


Lemma extends_refl h : extends h h.
Proof. intros p _. reflexivity. Qed.

Lemma extends_trans h1 h2 h3 : extends h1 h2 -> extends h2 h3 -> extends h1 h3.
Proof.
  intros H12 H23 p Hp. rewrite H23, H12; [reflexivity | exact Hp |].
  apply elem_of_dom. rewrite H12 by exact Hp. apply elem_of_dom, Hp.
Qed.

Lemma extends_fresh h arr : extends h (<[fresh (dom h) := arr]> h).
Proof.
  intros p Hp. apply lookup_insert_ne. intros Heq. subst p.
  exact (is_fresh (dom h) Hp).
Qed.

Lemma extends_elems h h' t : extends h h' -> slice_ok h t -> elems h' t = elems h t.
Proof.
  intros He [Hle [H0 | (arr & Ha & Hl)]].
  - rewrite !elems_empty by lia. reflexivity.
  - unfold elems. rewrite He; [reflexivity |]. apply elem_of_dom. eauto.
Qed.

Lemma extends_ok h h' t : extends h h' -> slice_ok h t -> slice_ok h' t.
Proof.
  intros He [Hle [H0 | (arr & Ha & Hl)]]; split; auto.
  right. exists arr. split; [| exact Hl].
  rewrite He; [exact Ha |]. apply elem_of_dom. eauto.
Qed.

(** [append] shows the old elements followed by the new ones. *)
Lemma append_elems h s xs :
  slice_ok h s ->
  elems (append s xs h).2 (append s xs h).1 = elems h s ++ xs.
Proof.
  intros Hok. pose proof (elems_length h s Hok) as Hlen.
  destruct Hok as [Hle Harr]. unfold append.
  case_decide as Hfit; cbn [fst snd].
  - destruct Harr as [H0 | (arr & Ha & Hl)].
    + assert (len s = 0) by lia. assert (xs = []) as ->.
      { destruct xs; [reflexivity | cbn [length] in Hfit; lia]. }
      rewrite !elems_empty by (cbn; lia). reflexivity.
    + unfold elems. cbn [ptr len]. rewrite lookup_alter_eq, Ha. cbn [fmap option_fmap option_map from_option id].
      rewrite list_inserts_take_drop by lia.
      rewrite take_app_add' by (rewrite length_take; lia).
      rewrite take_app_length. reflexivity.
  - unfold elems at 1. cbn [ptr len]. rewrite lookup_insert_eq. cbn [from_option id].
    rewrite app_assoc. rewrite take_app_length'; [reflexivity |].
    rewrite length_app. lia.
Qed.

Lemma append_ok h s xs : slice_ok h s -> slice_ok (append s xs h).2 (append s xs h).1.
Proof.
  intros Hok. pose proof (elems_length h s Hok) as Hlen.
  destruct Hok as [Hle Harr]. unfold append.
  case_decide as Hfit; cbn [fst snd]; split; cbn [ptr len cap].
  - exact Hfit.
  - destruct Harr as [H0 | (arr & Ha & Hl)]; [left; exact H0 |].
    right. exists (list_inserts (len s) xs arr). split.
    + rewrite lookup_alter_eq, Ha. reflexivity.
    + rewrite length_inserts. exact Hl.
  - apply growcap_ge.
  - right. eexists. split; [apply lookup_insert_eq |].
    rewrite !length_app, length_replicate, Hlen.
    pose proof (growcap_ge (cap s) (len s + length xs)). lia.
Qed.

(** [append] leaves alone what any other slice shows, and what a slice
    over the same array shows up to the length appended to. *)
Lemma append_frame h s xs t :
  slice_ok h s -> slice_ok h t ->
  ptr t <> ptr s \/ len t <= len s ->
  elems (append s xs h).2 t = elems h t /\ slice_ok (append s xs h).2 t.
Proof.
  intros Hs Ht Hsep. unfold append.
  case_decide as Hfit; cbn [snd].
  - destruct Ht as [Htle [Ht0 | (arrt & Hta & Htl)]].
    { split; [rewrite !elems_empty by lia; reflexivity | split; auto]. }
    destruct (decide (ptr t = ptr s)) as [Heq | Hne].
    + destruct Hsep as [Hne | Hlen]; [done |].
      split.
      * unfold elems. rewrite Heq, lookup_alter_eq. rewrite <- Heq, Hta.
        cbn [fmap option_fmap option_map from_option id]. apply take_inserts_le, Hlen.
      * split; [exact Htle |]. right.
        exists (list_inserts (len s) xs arrt). split.
        -- rewrite Heq, lookup_alter_eq, <- Heq, Hta. reflexivity.
        -- rewrite length_inserts. exact Htl.
    + split.
      * unfold elems. rewrite lookup_alter_ne by done. reflexivity.
      * split; [exact Htle |]. right. exists arrt.
        rewrite lookup_alter_ne by done. auto.
  - split.
    + apply extends_elems; [apply extends_fresh | exact Ht].
    + eapply extends_ok; [apply extends_fresh | exact Ht].
Qed.

Lemma extends_dom h h' p : extends h h' -> p ∈ dom h -> p ∈ dom h'.
Proof.
  intros He Hp. apply elem_of_dom. rewrite He by exact Hp.
  apply elem_of_dom, Hp.
Qed.

(** [append] on a slice whose array is not one of [h0] keeps the arrays
    of [h0]. *)
Lemma append_extends h0 h s xs :
  extends h0 h -> ptr s ∉ dom h0 -> extends h0 (append s xs h).2.
Proof.
  intros He Hs p Hp. unfold append. case_decide; cbn [snd].
  - rewrite lookup_alter_ne; [apply He, Hp |]. intros Heq. subst p. done.
  - rewrite lookup_insert_ne; [apply He, Hp |]. intros Heq. subst p.
    apply (is_fresh (dom h)). eapply extends_dom; eauto.
Qed.

Lemma append_ptr_fresh h0 h s xs :
  extends h0 h -> ptr s ∉ dom h0 -> ptr (append s xs h).1 ∉ dom h0.
Proof.
  intros He Hs. unfold append. case_decide; cbn [fst ptr]; [exact Hs |].
  intros Hp. apply (is_fresh (dom h)). eapply extends_dom; eauto.
Qed.

Lemma append_len h s xs : len (append s xs h).1 = len s + length xs.
Proof. unfold append. case_decide; reflexivity. Qed.

End Facts.
End SliceFacts.

(** ** Loggers and their context fields *)

Module LoggerFacts.
Import Slice Logger SliceFacts.


Section Facts.
Context `{GrowthPolicy}.

Lemma log_line_text l level msg fields now w :
  logger_ok w l ->
  (log_line l level msg fields now w).1
  = build_line now level msg (context_of w l ++ fields).
Proof.
  intros Hok. unfold log_line.
  pose proof (append_elems (arrays w) (contextFields l) fields Hok) as He.
  destruct (append (contextFields l) fields (arrays w)) as [allFields h'].
  cbn [fst snd] in *. rewrite He. reflexivity.
Qed.

Lemma log_line_streams l level msg fields now w :
  chans (log_line l level msg fields now w).2 = chans w /\
  stdout (log_line l level msg fields now w).2 = stdout w /\
  stderr (log_line l level msg fields now w).2 = stderr w.
Proof.
  unfold log_line.
  destruct (append (contextFields l) fields (arrays w)) as [allFields h'].
  auto.
Qed.

Lemma log_line_arrays l level msg fields now w :
  arrays (log_line l level msg fields now w).2
  = (append (contextFields l) fields (arrays w)).2.
Proof.
  unfold log_line.
  destruct (append (contextFields l) fields (arrays w)) as [allFields h'].
  reflexivity.
Qed.

Lemma enqueue_arrays l line w : arrays (enqueue l line w) = arrays w.
Proof.
  unfold enqueue, try_send.
  destruct (logChan l) as [i|]; [| reflexivity].
  destruct (chans w !! i) as [ch|]; [| reflexivity].
  case_decide; reflexivity.
Qed.

Lemma log_arrays l level msg fields now w :
  arrays (log l level msg fields now w)
  = (append (contextFields l) fields (arrays w)).2.
Proof.
  unfold log. rewrite <- (log_line_arrays l level msg fields now w).
  destruct (log_line l level msg fields now w) as [line w1].
  apply enqueue_arrays.
Qed.

(** A call of [log] through [l] leaves alone what a logger [t] shows when
    [t] has another array, or the same array and no more fields. *)
Lemma log_frame l level msg fields now w t :
  logger_ok w l -> logger_ok w t ->
  (ptr (contextFields t) <> ptr (contextFields l)
   \/ len (contextFields t) <= len (contextFields l)) ->
  context_of (log l level msg fields now w) t = context_of w t /\
  logger_ok (log l level msg fields now w) t.
Proof.
  intros Hl Ht Hsep. unfold context_of, logger_ok.
  rewrite log_arrays. apply append_frame; assumption.
Qed.

Lemma With_spec l fields w :
  logger_ok w l ->
  cfg (With l fields w).1 = cfg l /\
  logChan (With l fields w).1 = logChan l /\
  writer (With l fields w).1 = writer l /\
  bufferSize (With l fields w).1 = bufferSize l /\
  flushInterval (With l fields w).1 = flushInterval l /\
  chans (With l fields w).2 = chans w /\
  stdout (With l fields w).2 = stdout w /\
  stderr (With l fields w).2 = stderr w /\
  extends (arrays w) (arrays (With l fields w).2) /\
  (ptr (contextFields (With l fields w).1) ∉ dom (arrays w)) /\
  len (contextFields (With l fields w).1)
  = len (contextFields l) + length fields /\
  logger_ok (With l fields w).2 (With l fields w).1 /\
  context_of (With l fields w).2 (With l fields w).1
  = context_of w l ++ fields.
Proof.
  intros Hok. unfold With, make, copy. cbv beta iota zeta.
  set (h := arrays w). set (src := contextFields l).
  set (p1 := fresh (dom h)).
  set (h1 := <[p1 := replicate (len src) VNil]> h).
  set (s0 := {| ptr := p1; len := len src; cap := len src |}).
  cbn [len ptr s0].
  set (h2 := alter _ p1 h1).
  assert (Hfresh : p1 ∉ dom h) by apply is_fresh.
  assert (He1 : extends h h1) by apply extends_fresh.
  assert (Helems1 : elems h1 src = elems h src) by (apply extends_elems; assumption).
  assert (Hlen : length (elems h src) = len src) by (apply elems_length; exact Hok).
  assert (Hh2 : h2 !! p1 = Some (elems h src)).
  { subst h2 h1. rewrite lookup_alter_eq, lookup_insert_eq.
    cbn [fmap option_fmap option_map]. f_equal.
    rewrite Nat.min_id, Helems1.
    rewrite firstn_all2 by lia.
    rewrite <- (app_nil_r (replicate _ _)).
    rewrite list_inserts_0_r by (rewrite length_replicate; lia).
    apply app_nil_r. }
  assert (He2 : extends h h2).
  { intros p Hp. subst h2. rewrite lookup_alter_ne; [apply He1, Hp |].
    intros Heq. subst p. done. }
  assert (Hok0 : slice_ok h2 s0).
  { split; [reflexivity |]. right. exists (elems h src). auto. }
  assert (Hel0 : elems h2 s0 = elems h src).
  { unfold elems at 1. cbn [ptr len s0]. rewrite Hh2. cbn [from_option id].
    apply firstn_all2. lia. }
  pose proof (append_elems h2 s0 fields Hok0) as Hae.
  pose proof (append_ok h2 s0 fields Hok0) as Hao.
  pose proof (append_extends h h2 s0 fields He2 Hfresh) as Hax.
  pose proof (append_ptr_fresh h h2 s0 fields He2 Hfresh) as Hap.
  pose proof (append_len h2 s0 fields) as Hal.
  destruct (append s0 fields h2) as [s3 h3]. cbn [fst snd] in *.
  unfold logger_ok, context_of. cbn.
  rewrite Hae, Hel0. repeat split; auto; apply Hao.
Qed.

(** C6. [With] returns a logger with the configuration, channel and
    writer of its parent whose context fields are the parent's followed by
    the new ones, in a new array: the parent's array is not written and
    its fields are unchanged.  So through [l.With(fs1).With(fs2)] a record
    is built from the fields of [l], then [fs1], then [fs2], then the
    call's own, in this order, while through [l.With(fs1)] it is built
    from the fields of [l], [fs1] and the call's own only, also after the
    child has logged. *)
Theorem With_copies_then_appends l fs1 fs2 w :
  logger_ok w l ->
  let p := (With l fs1 w).1 in
  let w1 := (With l fs1 w).2 in
  let q := (With p fs2 w1).1 in
  let w2 := (With p fs2 w1).2 in
  (cfg p = cfg l /\ logChan p = logChan l /\ writer p = writer l) /\
  (cfg q = cfg l /\ logChan q = logChan l /\ writer q = writer l) /\
  (ptr (contextFields p) ∉ dom (arrays w)) /\
  (ptr (contextFields q) ∉ dom (arrays w1)) /\
  context_of w1 p = context_of w l ++ fs1 /\
  context_of w1 l = context_of w l /\
  context_of w2 q = context_of w l ++ fs1 ++ fs2 /\
  context_of w2 p = context_of w l ++ fs1 /\
  context_of w2 l = context_of w l /\
  (forall level msg fields now,
      (log_line q level msg fields now w2).1
      = build_line now level msg (context_of w l ++ fs1 ++ fs2 ++ fields)) /\
  (forall level msg fields now,
      (log_line p level msg fields now w2).1
      = build_line now level msg (context_of w l ++ fs1 ++ fields)) /\
  (forall level msg fields now level' msg' fields' now',
      (log_line p level' msg' fields' now'
         (log q level msg fields now w2)).1
      = build_line now' level' msg' (context_of w l ++ fs1 ++ fields')).
Proof.
  intros Hl p w1 q w2.
  destruct (With_spec l fs1 w Hl)
    as (Hc1 & Hch1 & Hw1 & _ & _ & _ & _ & _ & Hx1 & Hp1 & Hlen1 & Hok1 & Hctx1).
  fold p w1 in Hc1, Hch1, Hw1, Hx1, Hp1, Hlen1, Hok1, Hctx1.
  destruct (With_spec p fs2 w1 Hok1)
    as (Hc2 & Hch2 & Hw2 & _ & _ & _ & _ & _ & Hx2 & Hp2 & Hlen2 & Hok2 & Hctx2).
  fold q w2 in Hc2, Hch2, Hw2, Hx2, Hp2, Hlen2, Hok2, Hctx2.
  assert (Hl1 : logger_ok w1 l) by (eapply extends_ok; eauto).
  assert (Hcl1 : context_of w1 l = context_of w l)
    by (apply extends_elems; assumption).
  assert (Hp2ok : logger_ok w2 p) by (eapply extends_ok; eauto).
  assert (Hcp2 : context_of w2 p = context_of w l ++ fs1).
  { rewrite <- Hctx1. apply extends_elems; assumption. }
  assert (Hcl2 : context_of w2 l = context_of w l).
  { rewrite <- Hcl1. apply extends_elems; assumption. }
  assert (Hcq2 : context_of w2 q = context_of w l ++ fs1 ++ fs2).
  { rewrite Hctx2, Hctx1, <- app_assoc. reflexivity. }
  split; [repeat split; assumption |].
  split; [repeat split; congruence |].
  split; [exact Hp1 |]. split; [exact Hp2 |].
  split; [exact Hctx1 |]. split; [exact Hcl1 |].
  split; [exact Hcq2 |]. split; [exact Hcp2 |]. split; [exact Hcl2 |].
  split.
  { intros. rewrite log_line_text by exact Hok2.
    rewrite Hcq2, <- !app_assoc. reflexivity. }
  split.
  { intros. rewrite log_line_text by exact Hp2ok.
    rewrite Hcp2, <- !app_assoc. reflexivity. }
  intros level msg fields now level' msg' fields' now'.
  destruct (log_frame q level msg fields now w2 p Hok2 Hp2ok) as [Hc3 Hok3].
  { right. lia. }
  rewrite log_line_text by exact Hok3.
  rewrite Hc3, Hcp2, <- !app_assoc. reflexivity.
Qed.

End Facts.
End LoggerFacts.

(** ** Strings and the rendering of fields *)

Module StringFacts.
Import Logger.

Lemma append_cons c (s t : string) : String c s +:+ t = String c (s +:+ t).
Proof. reflexivity. Qed.

Lemma append_nil_l (s : string) : EmptyString +:+ s = s.
Proof. reflexivity. Qed.

Lemma append_nil_r (s : string) : s +:+ EmptyString = s.
Proof.
  induction s as [|c s IH]; [reflexivity |].
  rewrite append_cons, IH. reflexivity.
Qed.

Lemma append_assoc (s1 s2 s3 : string) : (s1 +:+ s2) +:+ s3 = s1 +:+ (s2 +:+ s3).
Proof.
  induction s1 as [|c s1 IH]; [reflexivity |].
  rewrite !append_cons, IH. reflexivity.
Qed.

Lemma append_length (s1 s2 : string) :
  String.length (s1 +:+ s2) = String.length s1 + String.length s2.
Proof.
  induction s1 as [|c s1 IH]; [reflexivity |].
  rewrite append_cons. cbn [String.length]. rewrite IH. reflexivity.
Qed.

Lemma join_app (xs ys : list string) : join (xs ++ ys) = join xs +:+ join ys.
Proof.
  induction xs as [|x xs IH]; [reflexivity |].
  cbn [join app]. rewrite IH, append_assoc. reflexivity.
Qed.

Ltac string_norm :=
  rewrite ?append_assoc, ?append_nil_l, ?append_nil_r.

End StringFacts.

Module FieldsSpec.
Import Slice Logger StringFacts.

Lemma appendValue_app sb v : appendValue sb v = sb +:+ appendValue EmptyString v.
Proof. destruct v; reflexivity. Qed.

(** With fuel for every pair left, the loop from index [i] adds the text
    of the fields from [i] on, read by pairs. *)
Lemma fields_loop_pairs fuel : forall i all sb,
  length all <= i + 2 * fuel ->
  fields_loop fuel i all sb = sb +:+ pairs_text (drop i all).
Proof.
  induction fuel as [|fuel IH]; intros i all sb Hfuel.
  - cbn [fields_loop]. rewrite drop_ge by lia. symmetry. apply append_nil_r.
  - cbn [fields_loop]. case_decide as Hi.
    + destruct (lookup_lt_is_Some_2 all i Hi) as [k Hk].
      rewrite Hk, (drop_S all k i Hk).
      case_decide as Hi1.
      * assert (Hi1' : S i < length all) by lia.
        destruct (lookup_lt_is_Some_2 all (S i) Hi1') as [v Hv].
        rewrite (drop_S all v (S i) Hv).
        replace (i + 1) with (S i) by lia. rewrite Hv. cbn [from_option id default].
        replace (i + 2) with (S (S i)) by lia.
        destruct k; rewrite IH by lia; cbn [pairs_text];
          rewrite ?(appendValue_app (_ +:+ _)), ?append_assoc; reflexivity.
      * rewrite (drop_ge all (S i)) by lia.
        destruct k; rewrite IH by lia; rewrite (drop_ge all (i + 2)) by lia;
          cbn [pairs_text]; rewrite ?append_assoc, ?append_nil_r; reflexivity.
    + rewrite drop_ge by lia. symmetry. apply append_nil_r.
Qed.

Lemma fields_text_pairs all : fields_text all = pairs_text all.
Proof.
  unfold fields_text. rewrite fields_loop_pairs by lia. reflexivity.
Qed.

Lemma build_line_parts now level msg all :
  build_line now level msg all
  = now +:+ " " +:+ level +:+ " " +:+ msg +:+ fields_text all +:+ nl.
Proof.
  unfold build_line. rewrite append_nil_l.
  case_decide as Hlen.
  - rewrite fields_loop_pairs by lia. rewrite fields_text_pairs.
    rewrite !append_assoc. reflexivity.
  - assert (all = []) as -> by (destruct all; [reflexivity | cbn in Hlen; lia]).
    cbn [fields_text fields_loop length]. rewrite !append_assoc. reflexivity.
Qed.

End FieldsSpec.

(** ** Channels *)

Module ChannelFacts.
Import Slice Logger SliceFacts LoggerFacts StringFacts.

Lemma try_send_Some c item w w' :
  try_send c item w = Some w' ->
  has_room c w = true /\
  pending c w' = pending c w ++ [item] /\
  capacity c w' = capacity c w /\
  arrays w' = arrays w /\ stdout w' = stdout w /\ stderr w' = stderr w /\
  forall c', c' <> c ->
    pending c' w' = pending c' w /\ capacity c' w' = capacity c' w.
Proof.
  unfold try_send, has_room, pending, capacity.
  destruct c as [i|]; [| discriminate].
  destruct (chans w !! i) as [ch|] eqn:Hch; [| discriminate].
  case_decide as Hroom; [| discriminate].
  intros [= <-]. cbn [chans set_chans arrays stdout stderr].
  rewrite lookup_insert_eq. cbn [ch_buf ch_cap fmap option_fmap option_map].
  split; [apply bool_decide_eq_true_2, Hroom |].
  repeat split; try reflexivity.
  - destruct c' as [j|]; [| reflexivity].
    rewrite lookup_insert_ne by congruence. reflexivity.
  - destruct c' as [j|]; [| reflexivity].
    rewrite lookup_insert_ne by congruence. reflexivity.
Qed.

Lemma try_send_None c item w :
  try_send c item w = None -> has_room c w = false.
Proof.
  unfold try_send, has_room.
  destruct c as [i|]; [| reflexivity].
  destruct (chans w !! i) as [ch|]; [| reflexivity].
  case_decide as Hroom; [discriminate |].
  intros _. apply bool_decide_eq_false_2, Hroom.
Qed.

Lemma has_room_lt c w K :
  capacity c w = Some K ->
  has_room c w = true <-> length (pending c w) < K.
Proof.
  unfold capacity, has_room, pending.
  destruct c as [i|]; [| discriminate].
  destruct (chans w !! i) as [ch|]; [| discriminate].
  cbn [fmap option_fmap option_map]. intros [= <-].
  apply bool_decide_eq_true.
Qed.

Lemma try_recv_Some c w msg w' :
  try_recv c w = Some (msg, w') ->
  pending c w = msg :: pending c w' /\
  capacity c w' = capacity c w /\
  arrays w' = arrays w /\ stdout w' = stdout w /\ stderr w' = stderr w.
Proof.
  unfold try_recv, pending, capacity.
  destruct c as [i|]; [| discriminate].
  destruct (chans w !! i) as [ch|] eqn:Hch; [| discriminate].
  destruct (ch_buf ch) as [|m rest] eqn:Hbuf; [discriminate |].
  intros [= <- <-]. cbn [chans set_chans arrays stdout stderr].
  rewrite lookup_insert_eq. cbn [ch_buf ch_cap fmap option_fmap option_map].
  auto.
Qed.

Lemma try_recv_None c w : try_recv c w = None -> pending c w = [].
Proof.
  unfold try_recv, pending.
  destruct c as [i|]; [| reflexivity].
  destruct (chans w !! i) as [ch|]; [| reflexivity].
  destruct (ch_buf ch); [reflexivity | discriminate].
Qed.

Lemma pending_write c f data w : pending c (write f data w) = pending c w.
Proof. destruct f; reflexivity. Qed.

Lemma capacity_write c f data w : capacity c (write f data w) = capacity c w.
Proof. destruct f; reflexivity. Qed.

Lemma pending_log_line `{GrowthPolicy} c l level msg fields now w :
  pending c (log_line l level msg fields now w).2 = pending c w.
Proof.
  unfold pending. destruct (log_line_streams l level msg fields now w) as (-> & _).
  reflexivity.
Qed.

Lemma capacity_log_line `{GrowthPolicy} c l level msg fields now w :
  capacity c (log_line l level msg fields now w).2 = capacity c w.
Proof.
  unfold capacity. destruct (log_line_streams l level msg fields now w) as (-> & _).
  reflexivity.
Qed.

Lemma has_room_log_line `{GrowthPolicy} c l level msg fields now w :
  has_room c (log_line l level msg fields now w).2 = has_room c w.
Proof.
  unfold has_room. destruct (log_line_streams l level msg fields now w) as (-> & _).
  reflexivity.
Qed.

(** What [enqueue] does, by whether the channel has room. *)
Lemma enqueue_room l line w :
  has_room (logChan l) w = true ->
  try_send (logChan l) line w = Some (enqueue l line w) /\
  pending (logChan l) (enqueue l line w) = pending (logChan l) w ++ [line] /\
  capacity (logChan l) (enqueue l line w) = capacity (logChan l) w /\
  stdout (enqueue l line w) = stdout w /\
  stderr (enqueue l line w) = stderr w.
Proof.
  intros Hroom. unfold enqueue.
  destruct (try_send (logChan l) line w) as [w'|] eqn:Hs.
  - apply try_send_Some in Hs as (_ & Hp & Hc & _ & Ho & He & _). auto.
  - apply try_send_None in Hs. congruence.
Qed.

Lemma enqueue_full l line w :
  has_room (logChan l) w = false ->
  try_send (logChan l) line w = None /\
  enqueue l line w = write Stderr (dropped_warning line) w /\
  chans (enqueue l line w) = chans w /\
  stdout (enqueue l line w) = stdout w /\
  stderr (enqueue l line w) = stderr w ++ [dropped_warning line].
Proof.
  intros Hroom. unfold enqueue.
  destruct (try_send (logChan l) line w) as [w'|] eqn:Hs.
  - apply try_send_Some in Hs as (Hr & _). congruence.
  - auto.
Qed.

End ChannelFacts.

(** ** The writer and its worker *)

Module SystemFacts.
Import Slice Logger SliceFacts LoggerFacts StringFacts ChannelFacts.

Lemma length_zero_empty (s : string) : ~ 0 < String.length s -> s = EmptyString.
Proof. destruct s; [reflexivity | cbn [String.length]; lia]. Qed.

Lemma join_flushed data : join (flushed data) = data.
Proof.
  unfold flushed. case_decide as Hd; cbn [join].
  - apply append_nil_r.
  - symmetry. apply length_zero_empty, Hd.
Qed.

Lemma flush_spec l b w :
  writer l = Stdout ->
  (flush l b w).1 = EmptyString /\
  stdout (flush l b w).2 = stdout w ++ flushed b /\
  stderr (flush l b w).2 = stderr w /\
  chans (flush l b w).2 = chans w /\
  arrays (flush l b w).2 = arrays w.
Proof.
  intros Hw. unfold flush, flushed. case_decide as Hb; cbn [fst snd].
  - rewrite Hw. cbn. auto.
  - rewrite app_nil_r. split; [apply length_zero_empty, Hb | auto].
Qed.

Lemma pending_chans c w w' : chans w' = chans w -> pending c w' = pending c w.
Proof. unfold pending. intros ->. reflexivity. Qed.

Lemma capacity_chans c w w' : chans w' = chans w -> capacity c w' = capacity c w.
Proof. unfold capacity. intros ->. reflexivity. Qed.

Lemma try_recv_pending c w msg rest :
  pending c w = msg :: rest ->
  exists w', try_recv c w = Some (msg, w') /\ pending c w' = rest.
Proof.
  intros Hp. destruct (try_recv c w) as [[m w']|] eqn:Hr.
  - destruct (try_recv_Some c w m w' Hr) as (Hp' & _).
    rewrite Hp in Hp'. injection Hp' as -> ->. eauto.
  - apply try_recv_None in Hr. congruence.
Qed.

Lemma try_recv_empty c w : pending c w = [] -> try_recv c w = None.
Proof.
  intros Hp. destruct (try_recv c w) as [[m w']|] eqn:Hr; [| reflexivity].
  destruct (try_recv_Some c w m w' Hr) as (Hp' & _). congruence.
Qed.

Section Invariant.
Context `{GrowthPolicy}.
Variable l : asyncLogger.
Hypothesis Hwriter : writer l = Stdout.
Variable base : string.
Variable K : nat.

Lemma step_inv a s s' :
  writer_inv l base K s -> step l a s = Some s' -> writer_inv l base K s'.
Proof.
  intros (Hcap & Hlen & Hbytes & Hph) Hstep.
  destruct a as [lg level msg fields now | | c |]; cbn [step] in Hstep.
  - (* a call of log *)
    destruct (log_line lg level msg fields now (sys_world s)) as [line w1] eqn:Hll.
    pose proof (pending_log_line (logChan l) lg level msg fields now (sys_world s)) as Hp1.
    pose proof (capacity_log_line (logChan l) lg level msg fields now (sys_world s)) as Hc1.
    destruct (log_line_streams lg level msg fields now (sys_world s)) as (_ & Ho1 & _).
    rewrite Hll in Hp1, Hc1, Ho1. cbn [snd] in Hp1, Hc1, Ho1.
    injection Hstep as <-. unfold writer_inv. cbn [sys_world batch accepted ctx_done at_].
    unfold enqueue.
    destruct (try_send (logChan lg) line w1) as [w2|] eqn:Hs.
    + apply try_send_Some in Hs as (Hroom & Hp2 & Hc2 & _ & Ho2 & _ & Hother).
      case_decide as Hsame.
      * rewrite Hsame in *. rewrite Hc2, Hc1, Hp2, Hp1, Ho2, Ho1.
        apply (has_room_lt _ _ K) in Hroom; [| congruence].
        rewrite Hp1 in Hroom.
        split; [exact Hcap |]. split; [rewrite length_app; cbn [length]; lia |].
        split; [| exact Hph].
        rewrite !join_app. cbn [join]. rewrite append_nil_r.
        rewrite <- !append_assoc. rewrite <- !append_assoc in Hbytes.
        rewrite Hbytes. reflexivity.
      * destruct (Hother (logChan l)) as [Hp3 Hc3]; [congruence |].
        rewrite Hp3, Hc3, Hp1, Hc1, Ho2, Ho1, app_nil_r. auto.
    + rewrite pending_write, capacity_write, Hp1, Hc1.
      cbn [write stdout]. rewrite Ho1.
      assert ((if decide (logChan lg = logChan l) then [] else []) = @nil string)
        as -> by (case_decide; reflexivity).
      rewrite app_nil_r. auto.
  - (* the context is cancelled *)
    injection Hstep as <-. unfold writer_inv. cbn. repeat split; auto. discriminate.
  - (* the outer select *)
    destruct (at_ s) eqn:Hat; try discriminate.
    destruct c; cbn [run_select] in Hstep.
    + destruct (ctx_done s) eqn:Hd; [| discriminate].
      injection Hstep as <-. unfold writer_inv. cbn. repeat split; auto. discriminate.
    + destruct (flush_spec l (batch s) (sys_world s) Hwriter) as (Hb & Ho & _ & Hc & _).
      destruct (flush l (batch s) (sys_world s)) as [b w']. cbn [fst snd] in *.
      injection Hstep as <-. unfold writer_inv. cbn [sys_world batch accepted ctx_done at_].
      rewrite (pending_chans _ _ _ Hc), (capacity_chans _ _ _ Hc), Ho, Hb.
      rewrite join_app, join_flushed. repeat split; auto.
      string_norm. exact Hbytes.
    + destruct (try_recv (logChan l) (sys_world s)) as [[m w1]|] eqn:Hr; [| discriminate].
      apply try_recv_Some in Hr as (Hp1 & Hc1 & _ & Ho1 & _).
      assert (Hbytes1 : join (stdout w1) +:+ (batch s +:+ m) +:+ join (pending (logChan l) w1)
                        = base +:+ join (accepted s)).
      { rewrite Ho1, <- Hbytes, Hp1. cbn [join]. rewrite !append_assoc. reflexivity. }
      assert (Hlen1 : length (pending (logChan l) w1) <= K)
        by (rewrite Hp1 in Hlen; cbn [length] in Hlen; lia).
      case_decide as Hbig.
      * destruct (flush_spec l (batch s +:+ m) w1 Hwriter) as (Hb & Ho & _ & Hc & _).
        destruct (flush l (batch s +:+ m) w1) as [b w']. cbn [fst snd] in *.
        injection Hstep as <-. unfold writer_inv. cbn [sys_world batch accepted ctx_done at_].
        rewrite (pending_chans _ _ _ Hc), (capacity_chans _ _ _ Hc), Ho, Hb.
        rewrite join_app, join_flushed. rewrite Hc1. repeat split; auto.
        rewrite <- Hbytes1. string_norm. reflexivity.
      * injection Hstep as <-. unfold writer_inv. cbn [sys_world batch accepted ctx_done at_].
        rewrite Hc1. repeat split; auto.
  - (* the drain loop *)
    destruct (at_ s) eqn:Hat; try discriminate.
    assert (Hd : ctx_done s = true).
    { destruct (ctx_done s); [reflexivity |]. specialize (Hph eq_refl). discriminate. }
    unfold run_drain in Hstep.
    destruct (try_recv (logChan l) (sys_world s)) as [[m w1]|] eqn:Hr.
    + apply try_recv_Some in Hr as (Hp1 & Hc1 & _ & Ho1 & _).
      injection Hstep as <-. unfold writer_inv. cbn [sys_world batch accepted ctx_done at_].
      rewrite Hc1, Ho1. split; [exact Hcap |].
      split; [rewrite Hp1 in Hlen; cbn [length] in Hlen; lia |].
      split; [| rewrite Hd; discriminate].
      rewrite <- Hbytes, Hp1. cbn [join]. rewrite !append_assoc. reflexivity.
    + destruct (flush_spec l (batch s) (sys_world s) Hwriter) as (Hb & Ho & _ & Hc & _).
      destruct (flush l (batch s) (sys_world s)) as [b w']. cbn [fst snd] in *.
      injection Hstep as <-. unfold writer_inv. cbn [sys_world batch accepted ctx_done at_].
      rewrite (pending_chans _ _ _ Hc), (capacity_chans _ _ _ Hc), Ho, Hb.
      rewrite join_app, join_flushed. repeat split; auto.
      * string_norm. exact Hbytes.
      * rewrite Hd. discriminate.
Qed.

Lemma exec_inv tr : forall s s',
  writer_inv l base K s -> exec l tr s = Some s' -> writer_inv l base K s'.
Proof.
  induction tr as [|a tr IH]; intros s s' Hinv Hex; cbn [exec] in Hex.
  - injection Hex as <-. exact Hinv.
  - destruct (step l a s) as [s1|] eqn:Hst; [| discriminate].
    eapply IH; [| exact Hex]. eapply step_inv; eauto.
Qed.

End Invariant.
End SystemFacts.

Module WriterFacts.
Import Slice Logger SliceFacts LoggerFacts StringFacts ChannelFacts SystemFacts.

(** The options of the package keep everything but the two fields they
    set, and keep the buffer size a positive [int]. *)
Lemma options_keep opts : forall l0,
  Forall package_option opts ->
  let l := foldl (fun l opt => opt l) l0 opts in
  cfg l = cfg l0 /\ writer l = writer l0 /\ logChan l = logChan l0 /\
  contextFields l = contextFields l0 /\
  ((0 < bufferSize l0)%Z /\ GoInt.in_int (bufferSize l0) ->
   (0 < bufferSize l)%Z /\ GoInt.in_int (bufferSize l)).
Proof.
  induction opts as [|opt opts IH]; intros l0 Hopts; cbn [foldl].
  - auto.
  - apply Forall_cons in Hopts as [Hopt Hopts].
    destruct (IH (opt l0) Hopts) as (Hc & Hw & Hch & Hctx & Hb).
    assert (Hstep : cfg (opt l0) = cfg l0 /\ writer (opt l0) = writer l0 /\
                    logChan (opt l0) = logChan l0 /\
                    contextFields (opt l0) = contextFields l0 /\
                    ((0 < bufferSize l0)%Z /\ GoInt.in_int (bufferSize l0) ->
                     (0 < bufferSize (opt l0))%Z /\ GoInt.in_int (bufferSize (opt l0)))).
    { destruct Hopt as [(size & Hsize & ->) | (interval & ->)].
      - unfold WithBufferSize. case_decide as Hs; cbn; [repeat split; auto; apply Hsize | auto].
      - unfold WithFlushInterval. case_decide; cbn; auto. }
    destruct Hstep as (Hc' & Hw' & Hch' & Hctx' & Hb').
    repeat split; try congruence; apply Hb, Hb'; assumption.
Qed.

Lemma NewAsyncLogger_spec c opts w0 l w1 :
  Forall package_option opts ->
  NewAsyncLogger c opts w0 = Some (l, w1) ->
  cfg l = c /\ writer l = Stdout /\ contextFields l = nil_slice /\
  (0 < bufferSize l < GoInt.max_int)%Z /\
  logChan l = Some (fresh (dom (chans w0))) /\
  capacity (logChan l) w1 = Some (Z.to_nat (bufferSize l + 1)) /\
  pending (logChan l) w1 = [] /\
  arrays w1 = arrays w0 /\ stdout w1 = stdout w0 /\ stderr w1 = stderr w0.
Proof.
  intros Hopts. unfold NewAsyncLogger. cbv zeta.
  destruct (options_keep opts (defaults c) Hopts) as (Hc & Hw & Hch & Hctx & Hb).
  set (l1 := foldl (fun l opt => opt l) (defaults c) opts) in *.
  destruct Hb as [Hpos Hint].
  { cbn. unfold defaultBufferSize, GoInt.in_int.
    rewrite GoIntFacts.max_int_val, GoIntFacts.min_int_val. lia. }
  case_decide as Hsize; [| discriminate].
  intros [= <- <-].
  unfold capacity, pending.
  cbn [cfg writer contextFields bufferSize logChan set_logChan chans set_chans
       arrays stdout stderr].
  rewrite lookup_insert_eq. cbn [fmap option_fmap option_map ch_cap ch_buf].
  assert (Hlt : (bufferSize l1 < GoInt.max_int)%Z).
  { destruct (decide (bufferSize l1 < GoInt.max_int)%Z) as [Hlt | Hge]; [exact Hlt |].
    exfalso. unfold GoInt.in_int in Hint.
    assert (bufferSize l1 = GoInt.max_int) as Heq by lia.
    rewrite Heq in Hsize. vm_compute in Hsize. apply Hsize. reflexivity. }
  rewrite GoIntFacts.add_small.
  2:{ unfold GoInt.in_int in *. lia. }
  repeat split; auto; lia.
Qed.

Section Writer.
Context `{GrowthPolicy}.
Variable l : asyncLogger.
Hypothesis Hwriter : writer l = Stdout.

(** From the drain loop the worker receives every pending item in order,
    flushes once and returns. *)
Lemma drain_run items : forall s,
  at_ s = Draining ->
  pending (logChan l) (sys_world s) = items ->
  exists s',
    exec l (repeat ADrain (S (length items))) s = Some s' /\
    at_ s' = Returned /\ batch s' = EmptyString /\
    pending (logChan l) (sys_world s') = [] /\
    accepted s' = accepted s /\ ctx_done s' = ctx_done s /\
    stdout (sys_world s')
    = stdout (sys_world s) ++ flushed (batch s +:+ join items).
Proof.
  induction items as [|m rest IH]; intros s Hat Hp.
  - cbn [length repeat exec step]. rewrite Hat. unfold run_drain.
    rewrite (try_recv_empty _ _ Hp).
    destruct (flush_spec l (batch s) (sys_world s) Hwriter) as (Hb & Ho & _ & Hc & _).
    destruct (flush l (batch s) (sys_world s)) as [b w']. cbn [fst snd] in *.
    eexists. split; [reflexivity |]. cbn [sys_world batch accepted ctx_done at_].
    rewrite (pending_chans _ _ _ Hc), Hp, Ho. cbn [join]. rewrite append_nil_r.
    repeat split; auto.
  - cbn [length]. cbn [repeat exec step]. rewrite Hat. unfold run_drain.
    destruct (try_recv_pending _ _ _ _ Hp) as (w1 & Hr & Hp1).
    rewrite Hr.
    pose proof (try_recv_Some _ _ _ _ Hr) as (_ & _ & _ & Ho1 & _).
    edestruct (IH {| sys_world := w1; ctx_done := ctx_done s;
                     batch := batch s +:+ m; at_ := Draining;
                     accepted := accepted s |})
      as (s' & Hex & Hret & Hb & Hpe & Hacc & Hd & Hout);
      [reflexivity | exact Hp1 |].
    exists s'. cbn [sys_world batch accepted ctx_done at_] in *.
    split; [exact Hex |]. repeat split; auto.
    rewrite Hout, Ho1. cbn [join]. rewrite append_assoc. reflexivity.
Qed.

(** The outer [select] never returns by itself. *)
Lemma run_select_phase done c b w b' ph w' :
  run_select l done c b w = Some (b', ph, w') -> ph <> Returned.
Proof.
  destruct c; cbn [run_select].
  - destruct done; [| discriminate]. intros [= _ <- _]. discriminate.
  - destruct (flush l b w). intros [= _ <- _]. discriminate.
  - destruct (try_recv (logChan l) w) as [[m w1]|]; [| discriminate].
    case_decide.
    + destruct (flush l (b +:+ m) w1). intros [= _ <- _]. discriminate.
    + intros [= _ <- _]. discriminate.
Qed.

Lemma step_after_cancel acc a s s' :
  is_log a = false -> after_cancel l acc s -> step l a s = Some s' ->
  after_cancel l acc s'.
Proof.
  intros Hlog (Hd & Hacc & Hret) Hstep.
  destruct a as [lg level msg fields now | | c |]; [discriminate | | |];
    cbn [step] in Hstep.
  - injection Hstep as <-. unfold after_cancel. cbn. auto.
  - destruct (at_ s) eqn:Hat; try discriminate.
    destruct (run_select l (ctx_done s) c (batch s) (sys_world s))
      as [[[b ph] w]|] eqn:Hsel; [| discriminate].
    apply run_select_phase in Hsel.
    injection Hstep as <-. unfold after_cancel. cbn. repeat split; auto; done.
  - destruct (at_ s) eqn:Hat; try discriminate.
    unfold run_drain in Hstep.
    destruct (try_recv (logChan l) (sys_world s)) as [[m w1]|] eqn:Hr.
    + injection Hstep as <-. unfold after_cancel. cbn. repeat split; auto; discriminate.
    + apply try_recv_None in Hr.
      destruct (flush_spec l (batch s) (sys_world s) Hwriter) as (Hb & _ & _ & Hc & _).
      destruct (flush l (batch s) (sys_world s)) as [b w']. cbn [fst snd] in *.
      injection Hstep as <-. unfold after_cancel. cbn [sys_world batch accepted ctx_done at_].
      rewrite (pending_chans _ _ _ Hc). auto.
Qed.

Lemma exec_after_cancel acc tr : forall s s',
  Forall (fun a => is_log a = false) tr ->
  after_cancel l acc s -> exec l tr s = Some s' -> after_cancel l acc s'.
Proof.
  induction tr as [|a tr IH]; intros s s' Htr Hinv Hex; cbn [exec] in Hex.
  - injection Hex as <-. exact Hinv.
  - apply Forall_cons in Htr as [Ha Htr].
    destruct (step l a s) as [s1|] eqn:Hst; [| discriminate].
    eapply IH; [exact Htr | | exact Hex]. eapply step_after_cancel; eauto.
Qed.

(** Before the first cancellation the context is not done. *)
Lemma exec_not_cancelled tr : forall s s',
  Forall (fun a => a <> ACancel) tr ->
  ctx_done s = false -> exec l tr s = Some s' -> ctx_done s' = false.
Proof.
  induction tr as [|a tr IH]; intros s s' Htr Hd Hex; cbn [exec] in Hex.
  - injection Hex as <-. exact Hd.
  - apply Forall_cons in Htr as [Ha Htr].
    destruct (step l a s) as [s1|] eqn:Hst; [| discriminate].
    eapply IH; [exact Htr | | exact Hex].
    destruct a as [lg level msg fields now | | c |]; cbn [step] in Hst.
    + destruct (log_line lg level msg fields now (sys_world s)).
      injection Hst as <-. exact Hd.
    + done.
    + destruct (at_ s); try discriminate.
      destruct (run_select l (ctx_done s) c (batch s) (sys_world s))
        as [[[b ph] w]|]; [| discriminate].
      injection Hst as <-. exact Hd.
    + destruct (at_ s); try discriminate.
      destruct (run_drain l (batch s) (sys_world s)) as [[b ph] w].
      injection Hst as <-. exact Hd.
Qed.

Lemma exec_app tr1 tr2 s :
  exec l (tr1 ++ tr2) s
  = match exec l tr1 s with Some s1 => exec l tr2 s1 | None => None end.
Proof.
  revert s. induction tr1 as [|a tr1 IH]; intros s; cbn [exec app]; [reflexivity |].
  destruct (step l a s); [apply IH | reflexivity].
Qed.

(** Once the context is cancelled the worker can always leave: the
    [shutdown] schedule runs and ends with the worker returned, nothing
    batched, nothing pending, and at most one more write. *)
Lemma shutdown_run s :
  ctx_done s = true ->
  (at_ s = Returned ->
   batch s = EmptyString /\ pending (logChan l) (sys_world s) = []) ->
  exists s',
    exec l (shutdown l s) s = Some s' /\
    at_ s' = Returned /\ batch s' = EmptyString /\
    pending (logChan l) (sys_world s') = [] /\
    accepted s' = accepted s /\
    stdout (sys_world s')
    = stdout (sys_world s)
        ++ flushed (batch s +:+ join (pending (logChan l) (sys_world s))).
Proof.
  intros Hd Hret. unfold shutdown. destruct (at_ s) eqn:Hat.
  - cbn [exec step]. rewrite Hat. cbn [run_select]. rewrite Hd.
    edestruct (drain_run (pending (logChan l) (sys_world s))
                 {| sys_world := sys_world s; ctx_done := ctx_done s;
                    batch := batch s; at_ := Draining;
                    accepted := accepted s |})
      as (s' & Hex & Hr & Hb & Hp & Hacc & _ & Hout); [reflexivity | reflexivity |].
    exists s'. cbn [sys_world batch accepted] in *. rewrite Hd in Hex. auto 10.
  - destruct (drain_run (pending (logChan l) (sys_world s)) s Hat eq_refl)
      as (s' & Hex & Hr & Hb & Hp & Hacc & _ & Hout).
    exists s'. auto 10.
  - destruct (Hret eq_refl) as [Hb Hp].
    exists s. cbn [exec]. rewrite Hb, Hp. cbn [join]. unfold flushed. cbn.
    rewrite app_nil_r. auto 10.
Qed.

End Writer.
End WriterFacts.

(** ** The leveled methods *)

Module EmitSpec.
Import Slice Logger SliceFacts LoggerFacts StringFacts FieldsSpec ChannelFacts SystemFacts WriterFacts.

Lemma pairs_text_even_app pre : forall rest,
  Nat.even (length pre) = true ->
  pairs_text (pre ++ rest) = pairs_text pre +:+ pairs_text rest.
Proof.
  induction pre as [pre IH] using (induction_ltof1 _ (@length value)).
  unfold ltof in IH. intros rest Hev.
  destruct pre as [|k [|v pre]]; [reflexivity | discriminate |].
  cbn [length] in Hev. change (Nat.even (S (S (length pre)))) with (Nat.even (length pre)) in Hev.
  cbn [app]. cbn [pairs_text].
  rewrite (IH pre) by (cbn [length]; lia || exact Hev); try exact Hev.
  destruct k; rewrite ?append_assoc; reflexivity.
Qed.

Section Emit.
Context `{GrowthPolicy}.

Lemma log_unfold l level msg fields now w :
  log l level msg fields now w
  = enqueue l (log_line l level msg fields now w).1
      (log_line l level msg fields now w).2.
Proof.
  unfold log. destruct (log_line l level msg fields now w). reflexivity.
Qed.

(** A call of [log] always leaves a trace: a line more in the channel or
    a line more on the error stream. *)
Lemma log_changes l level msg fields now w : log l level msg fields now w <> w.
Proof.
  rewrite log_unfold.
  destruct (log_line_streams l level msg fields now w) as (Hc & _ & He).
  set (line := (log_line l level msg fields now w).1) in *.
  set (w1 := (log_line l level msg fields now w).2) in *.
  intros Heq.
  destruct (has_room (logChan l) w1) eqn:Hroom.
  - destruct (enqueue_room l line w1 Hroom) as (_ & Hp & _).
    rewrite Heq in Hp.
    assert (Hpw : pending (logChan l) w1 = pending (logChan l) w)
      by (apply pending_chans, Hc).
    rewrite Hpw in Hp. apply (f_equal length) in Hp.
    rewrite length_app in Hp. cbn [length] in Hp. lia.
  - destruct (enqueue_full l line w1 Hroom) as (_ & _ & _ & _ & Herr).
    rewrite Heq, He in Herr. apply (f_equal length) in Herr.
    rewrite length_app in Herr. cbn [length] in Herr. lia.
Qed.

Lemma emit_enabled s l msg fields now w :
  (Level (cfg l) <= level_of s)%Z ->
  (emit s l msg fields now w).1 = log l (level_name s) msg fields now w.
Proof.
  intros Hle. destruct s; cbn [emit level_of level_name] in *;
    unfold Debug, Info, Warn, Error, DPanic, Panic, Fatal;
    (case_decide; [| lia]); try reflexivity.
  destruct (negb (IsProduction (cfg l))); reflexivity.
Qed.

Lemma emit_disabled s l msg fields now w :
  ~ (Level (cfg l) <= level_of s)%Z ->
  emit s l msg fields now w = (w, Normal).
Proof.
  intros Hle. destruct s; cbn [emit level_of level_name] in *;
    unfold Debug, Info, Warn, Error, DPanic, Panic, Fatal;
    (case_decide; [lia |]); reflexivity.
Qed.

End Emit.
End EmitSpec.

(** ** The claims on the writer, the leveled methods and the fields *)

Module ClaimsSpec.
Import Slice Logger SliceFacts LoggerFacts StringFacts FieldsSpec ChannelFacts SystemFacts WriterFacts EmitSpec.

Section Claims.
Context `{GrowthPolicy}.

(** C3. The enqueue step of [log], which every leveled method goes
    through, is a [select] with a [default]: it is a total function of the
    world and returns nothing to the caller.  When the channel has room the
    line joins the end of the queue and neither stream is written; when it
    has none (or is nil) the channels are unchanged and one line
    [WARNING: Logger channel is full. Log message dropped: <line>] is
    written to the error stream, once.  Having room means holding fewer
    items than the capacity.  Building the line touches neither the
    channels nor the streams. *)
Theorem enqueue_never_blocks :
  (forall l line w,
      has_room (logChan l) w = true ->
      pending (logChan l) (enqueue l line w) = pending (logChan l) w ++ [line] /\
      capacity (logChan l) (enqueue l line w) = capacity (logChan l) w /\
      stdout (enqueue l line w) = stdout w /\
      stderr (enqueue l line w) = stderr w) /\
  (forall l line w,
      has_room (logChan l) w = false ->
      enqueue l line w
      = write Stderr
          ("WARNING: Logger channel is full. Log message dropped: "
             +:+ line +:+ nl) w /\
      chans (enqueue l line w) = chans w /\
      stdout (enqueue l line w) = stdout w /\
      stderr (enqueue l line w)
      = stderr w
          ++ ["WARNING: Logger channel is full. Log message dropped: "
                +:+ line +:+ nl]) /\
  (forall c w K,
      capacity c w = Some K ->
      has_room c w = true <-> length (pending c w) < K) /\
  (forall c w, capacity c w = None -> has_room c w = false) /\
  (forall l level msg fields now w,
      log l level msg fields now w
      = enqueue l (log_line l level msg fields now w).1
          (log_line l level msg fields now w).2) /\
  (forall l level msg fields now w,
      chans (log_line l level msg fields now w).2 = chans w /\
      stdout (log_line l level msg fields now w).2 = stdout w /\
      stderr (log_line l level msg fields now w).2 = stderr w) /\
  (forall s l msg fields now w,
      (emit s l msg fields now w).1 = w \/
      (emit s l msg fields now w).1 = log l (level_name s) msg fields now w).
Proof.
  split.
  { intros l line w Hroom.
    destruct (enqueue_room l line w Hroom) as (_ & Hp & Hc & Ho & He). auto. }
  split.
  { intros l line w Hroom.
    destruct (enqueue_full l line w Hroom) as (_ & Heq & Hc & Ho & He). auto. }
  split; [exact has_room_lt |].
  split.
  { intros c w. unfold capacity, has_room. destruct c as [i|]; [| reflexivity].
    destruct (chans w !! i); [discriminate | reflexivity]. }
  split; [exact log_unfold |].
  split; [exact log_line_streams |].
  intros s l msg fields now w.
  destruct (decide (Level (cfg l) <= level_of s)%Z) as [Hle | Hgt].
  - right. apply emit_enabled, Hle.
  - left. rewrite emit_disabled by exact Hgt. reflexivity.
Qed.

(** C4, as the code has it. [Panic] is gated like the other leveled
    methods: when the threshold is at most [PanicLevel] it logs the record
    at level PANIC and then panics with the message; when the threshold is
    above [PanicLevel], as [FatalLevel] is, it does nothing at all: no
    record and no panic. *)
Theorem Panic_gated_by_threshold :
  (forall l msg fields now w,
      (Level (cfg l) <= PanicLevel)%Z ->
      Panic l msg fields now w
      = (log l "PANIC" msg fields now w, Panics msg)) /\
  (forall l msg fields now w,
      (PanicLevel < Level (cfg l))%Z ->
      Panic l msg fields now w = (w, Normal)) /\
  (forall l msg fields now w,
      Level (cfg l) = FatalLevel ->
      Panic l msg fields now w = (w, Normal)).
Proof.
  split; [| split]; intros l msg fields now w Hl; unfold Panic;
    case_decide as Hd; try reflexivity.
  - lia.
  - lia.
  - rewrite Hl in Hd. unfold FatalLevel, PanicLevel in Hd. lia.
Qed.

(** C5. A leveled method at severity [s] on a logger of threshold [T]
    makes exactly one call of [log], at the level name of [s], when
    [T <= s], and otherwise returns with the world unchanged; the world
    changes exactly when [T <= s]; with room in the channel the queue
    grows by exactly the one line.  On a fresh logger of threshold Warn,
    after one call of Debug, Info, Warn or Error followed by cancellation
    and the worker's shutdown, the sink holds no new line for Debug and
    Info and exactly the one line for Warn and Error. *)
Theorem emit_iff_threshold_reached :
  (forall s l msg fields now w,
      (Level (cfg l) <= level_of s)%Z ->
      (emit s l msg fields now w).1
      = log l (level_name s) msg fields now w) /\
  (forall s l msg fields now w,
      ~ (Level (cfg l) <= level_of s)%Z ->
      emit s l msg fields now w = (w, Normal)) /\
  (forall s l msg fields now w,
      (emit s l msg fields now w).1 <> w
      <-> (Level (cfg l) <= level_of s)%Z) /\
  (forall s l msg fields now w,
      (Level (cfg l) <= level_of s)%Z ->
      has_room (logChan l) w = true ->
      pending (logChan l) (emit s l msg fields now w).1
      = pending (logChan l) w
          ++ [(log_line l (level_name s) msg fields now w).1]) /\
  (forall c opts w0 l w1 s msg fields now,
      Forall package_option opts ->
      NewAsyncLogger c opts w0 = Some (l, w1) ->
      Level c = WarnLevel ->
      s ∈ [SevDebug; SevInfo; SevWarn; SevError] ->
      (emit s l msg fields now w1).2 = Normal /\
      exists s',
        exec l (ACancel :: shutdown l (boot (emit s l msg fields now w1).1))
          (boot (emit s l msg fields now w1).1)
        = Some s' /\
        at_ s' = Returned /\
        stdout (sys_world s')
        = stdout w0
            ++ (if decide (WarnLevel <= level_of s)%Z
                then [build_line now (level_name s) msg fields]
                else [])).
Proof.
  split; [exact emit_enabled |].
  split; [exact emit_disabled |].
  split.
  { intros s l msg fields now w. split.
    - intros Hne. destruct (decide (Level (cfg l) <= level_of s)%Z) as [Hle | Hgt];
        [exact Hle |].
      exfalso. apply Hne. rewrite emit_disabled by exact Hgt. reflexivity.
    - intros Hle. rewrite emit_enabled by exact Hle. apply log_changes. }
  split.
  { intros s l msg fields now w Hle Hroom.
    rewrite emit_enabled by exact Hle. rewrite log_unfold.
    rewrite <- (has_room_log_line (logChan l) l (level_name s) msg fields now w) in Hroom.
    destruct (enqueue_room l (log_line l (level_name s) msg fields now w).1 _ Hroom)
      as (_ & Hp & _).
    rewrite Hp, pending_log_line. reflexivity. }
  intros c opts w0 l w1 s msg fields now Hopts Hnew Hlevel Hs.
  destruct (NewAsyncLogger_spec c opts w0 l w1 Hopts Hnew)
    as (Hcfg & Hw & Hctx & Hsize & Hch & Hcap & Hpend & Harr & Hout & Herr).
  assert (Hok : logger_ok w1 l).
  { unfold logger_ok. rewrite Hctx. split; [reflexivity | left; reflexivity]. }
  assert (Hctx0 : context_of w1 l = []).
  { unfold context_of. rewrite Hctx. reflexivity. }
  assert (Hroom : has_room (logChan l) w1 = true).
  { apply (has_room_lt _ _ _ Hcap). rewrite Hpend. cbn [length]. lia. }
  assert (Hnormal : (emit s l msg fields now w1).2 = Normal).
  { rewrite !elem_of_cons in Hs.
    destruct Hs as [-> | [-> | [-> | [-> | Hs]]]];
      [| | | | apply elem_of_nil in Hs; done];
      cbn [emit]; unfold Debug, Info, Warn, Error; case_decide; reflexivity. }
  split; [exact Hnormal |].
  set (w2 := (emit s l msg fields now w1).1).
  assert (Hw2 : stdout w2 = stdout w0 /\
                pending (logChan l) w2
                = if decide (WarnLevel <= level_of s)%Z
                  then [build_line now (level_name s) msg fields] else []).
  { subst w2. case_decide as Hsev.
    - assert (Hle : (Level (cfg l) <= level_of s)%Z)
        by (rewrite Hcfg, Hlevel; exact Hsev).
      rewrite emit_enabled by exact Hle. rewrite log_unfold.
      rewrite <- (has_room_log_line (logChan l) l (level_name s) msg fields now w1) in Hroom.
      destruct (enqueue_room l (log_line l (level_name s) msg fields now w1).1 _ Hroom)
        as (_ & Hp & _ & Ho & _).
      rewrite Hp, Ho, pending_log_line, Hpend.
      destruct (log_line_streams l (level_name s) msg fields now w1) as (_ & -> & _).
      rewrite log_line_text by exact Hok. rewrite Hctx0. auto.
    - assert (Hgt : ~ (Level (cfg l) <= level_of s)%Z)
        by (rewrite Hcfg, Hlevel; exact Hsev).
      rewrite emit_disabled by exact Hgt. auto. }
  destruct Hw2 as [Hout2 Hpend2].
  set (s1 := {| sys_world := w2; ctx_done := true; batch := EmptyString;
                at_ := Selecting; accepted := [] |}).
  destruct (shutdown_run l Hw s1) as (s' & Hex & Hret & _ & _ & _ & Hso);
    [reflexivity | discriminate |].
  exists s'. cbn [exec step]. fold s1.
  change (shutdown l (boot w2)) with (shutdown l s1).
  split; [exact Hex |]. split; [exact Hret |].
  rewrite Hso. cbn [sys_world batch s1]. rewrite Hout2, Hpend2.
  f_equal. case_decide as Hsev.
  - cbn [join]. rewrite append_nil_l, append_nil_r.
    unfold flushed. case_decide as Hlen; [reflexivity |].
    exfalso. apply Hlen. rewrite build_line_parts, !append_length.
    unfold nl. cbn [String.length]. lia.
  - reflexivity.
Qed.

End Claims.
End ClaimsSpec.

Module WriterSpec.
Import Slice Logger SliceFacts LoggerFacts StringFacts FieldsSpec ChannelFacts SystemFacts WriterFacts EmitSpec.

Section Writer.
Context `{GrowthPolicy}.

Lemma boot_inv l w K :
  capacity (logChan l) w = Some K ->
  pending (logChan l) w = [] ->
  writer_inv l (join (stdout w)) K (boot w).
Proof.
  intros Hc Hp. unfold writer_inv, boot. cbn [sys_world batch accepted ctx_done at_].
  rewrite Hp. cbn [join length]. string_norm.
  repeat split; auto. lia.
Qed.

(** C1, as the code has it. [NewAsyncLogger] makes the channel with
    capacity [bufferSize + 1], where [bufferSize] is the positive option
    value, else the default 4096.  In every state the system reaches the
    channel keeps that capacity and holds at most [bufferSize + 1] lines:
    an enqueue arriving with fewer pending is queued, and one arriving
    with [bufferSize + 1] pending is dropped with the warning, never
    queued. *)
Theorem pending_bounded_by_size_plus_one c opts w0 l w1 :
  Forall package_option opts ->
  NewAsyncLogger c opts w0 = Some (l, w1) ->
  (opts = [] -> bufferSize l = defaultBufferSize) /\
  (forall size,
      opts = [WithBufferSize size] ->
      bufferSize l = if decide (0 < size)%Z then size else defaultBufferSize) /\
  (0 < bufferSize l < GoInt.max_int)%Z /\
  capacity (logChan l) w1 = Some (Z.to_nat (bufferSize l + 1)) /\
  forall tr s,
    exec l tr (boot w1) = Some s ->
    capacity (logChan l) (sys_world s) = Some (Z.to_nat (bufferSize l + 1)) /\
    length (pending (logChan l) (sys_world s)) <= Z.to_nat (bufferSize l + 1) /\
    forall lg line,
      logChan lg = logChan l ->
      (length (pending (logChan l) (sys_world s)) < Z.to_nat (bufferSize l + 1) ->
       pending (logChan l) (enqueue lg line (sys_world s))
       = pending (logChan l) (sys_world s) ++ [line] /\
       stderr (enqueue lg line (sys_world s)) = stderr (sys_world s)) /\
      (length (pending (logChan l) (sys_world s)) = Z.to_nat (bufferSize l + 1) ->
       pending (logChan l) (enqueue lg line (sys_world s))
       = pending (logChan l) (sys_world s) /\
       stderr (enqueue lg line (sys_world s))
       = stderr (sys_world s) ++ [dropped_warning line]).
Proof.
  intros Hopts Hnew.
  destruct (NewAsyncLogger_spec c opts w0 l w1 Hopts Hnew)
    as (Hcfg & Hw & Hctx & Hsize & Hch & Hcap & Hpend & Harr & Hout & Herr).
  assert (Hbuf : bufferSize l
                 = bufferSize (foldl (fun l opt => opt l) (defaults c) opts)).
  { clear -Hnew. unfold NewAsyncLogger in Hnew. cbv zeta in Hnew.
    case_decide; [| discriminate]. injection Hnew as <- _. reflexivity. }
  split; [intros ->; exact Hbuf |].
  split.
  { intros size ->. rewrite Hbuf. cbn [foldl]. unfold WithBufferSize.
    case_decide; reflexivity. }
  split; [exact Hsize |]. split; [exact Hcap |].
  intros tr s Hex.
  pose proof (exec_inv l Hw _ _ tr _ _ (boot_inv l w1 _ Hcap Hpend) Hex)
    as (Hc & Hl & _ & _).
  split; [exact Hc |]. split; [exact Hl |].
  intros lg line Hlg. rewrite <- Hlg in *. split.
  - intros Hlt. apply (has_room_lt _ _ _ Hc) in Hlt.
    destruct (enqueue_room lg line _ Hlt) as (_ & Hp & _ & _ & He). auto.
  - intros Heq.
    assert (Hfull : has_room (logChan lg) (sys_world s) = false).
    { destruct (has_room (logChan lg) (sys_world s)) eqn:Hr; [| reflexivity].
      apply (has_room_lt _ _ _ Hc) in Hr. lia. }
    destruct (enqueue_full lg line _ Hfull) as (_ & _ & Hchans & _ & He).
    split; [apply pending_chans, Hchans | exact He].
Qed.

(** C2. Take any run up to the first cancellation and any run after it
    in which nobody logs.  Then the worker can leave: the [shutdown]
    schedule runs, the drain loop receives every line still pending, in
    order, after the batch, makes one final flush of them (one write, none
    if there is nothing) and returns with nothing batched and nothing
    pending; and the bytes of the sink are then the bytes it held at the
    start followed by the lines accepted before the cancellation, each
    once, in the order they were accepted. *)
Theorem drain_completeness c opts w0 l w1 pre post s :
  Forall package_option opts ->
  NewAsyncLogger c opts w0 = Some (l, w1) ->
  Forall (fun a => a <> ACancel) pre ->
  Forall (fun a => is_log a = false) post ->
  exec l (pre ++ ACancel :: post) (boot w1) = Some s ->
  exists s0 s',
    exec l pre (boot w1) = Some s0 /\
    accepted s = accepted s0 /\
    exec l (shutdown l s) s = Some s' /\
    at_ s' = Returned /\
    batch s' = EmptyString /\
    pending (logChan l) (sys_world s') = [] /\
    accepted s' = accepted s0 /\
    stdout (sys_world s')
    = stdout (sys_world s)
        ++ flushed (batch s +:+ join (pending (logChan l) (sys_world s))) /\
    join (stdout (sys_world s')) = join (stdout w0) +:+ join (accepted s0).
Proof.
  intros Hopts Hnew Hpre Hpost Hex.
  destruct (NewAsyncLogger_spec c opts w0 l w1 Hopts Hnew)
    as (Hcfg & Hw & Hctx & Hsize & Hch & Hcap & Hpend & Harr & Hout & Herr).
  pose proof (boot_inv l w1 _ Hcap Hpend) as Hinv0.
  pose proof (exec_inv l Hw _ _ _ _ _ Hinv0 Hex) as Hinv.
  rewrite exec_app in Hex.
  destruct (exec l pre (boot w1)) as [s0|] eqn:Hex0; [| discriminate].
  cbn [exec step] in Hex.
  pose proof (exec_not_cancelled l pre (boot w1) s0 Hpre eq_refl Hex0) as Hd0.
  pose proof (exec_inv l Hw _ _ _ _ _ Hinv0 Hex0) as (_ & _ & _ & Hph0).
  specialize (Hph0 Hd0).
  assert (Hac : after_cancel l (accepted s0) s).
  { eapply (exec_after_cancel l Hw); [exact Hpost | | exact Hex].
    unfold after_cancel. cbn [ctx_done accepted at_ batch sys_world].
    rewrite Hph0. repeat split; discriminate. }
  destruct Hac as (Hd & Hacc & Hret).
  destruct (shutdown_run l Hw s Hd Hret) as (s' & Hex' & Hr' & Hb' & Hp' & Hacc' & Hso).
  pose proof (exec_inv l Hw _ _ _ _ _ Hinv Hex') as (_ & _ & Hbytes & _).
  rewrite Hb', Hp', Hacc', Hacc in Hbytes. cbn [join] in Hbytes.
  rewrite !append_nil_r, Hout in Hbytes.
  exists s0, s'. repeat split; auto. congruence.
Qed.

End Writer.
End WriterSpec.

Module FieldsClaim.
Import Slice Logger SliceFacts LoggerFacts StringFacts FieldsSpec ChannelFacts SystemFacts WriterFacts EmitSpec.

Section Fields.
Context `{GrowthPolicy}.

(** C7, as the code has it. The line is the timestamp, the level and
    the message followed by the text of the combined field list, context
    fields first, read by pairs: a pair with a string key gives
    [ key=value]; a pair whose key is not a string gives a lone separator
    space, neither the key nor the value; and the last element of a list
    of odd length is read as a key without a value: [ key=] when it is a
    string, a lone space otherwise. *)
Theorem fields_rendered_by_pairs :
  (forall now level msg allFields,
      build_line now level msg allFields
      = now +:+ " " +:+ level +:+ " " +:+ msg
          +:+ fields_text allFields +:+ nl) /\
  (forall l level msg fields now w,
      logger_ok w l ->
      (log_line l level msg fields now w).1
      = build_line now level msg (context_of w l ++ fields)) /\
  fields_text [] = EmptyString /\
  (forall key v rest,
      fields_text (VString key :: v :: rest)
      = " " +:+ key +:+ "=" +:+ appendValue EmptyString v
          +:+ fields_text rest) /\
  (forall k v rest,
      is_string k = false ->
      fields_text (k :: v :: rest) = " " +:+ fields_text rest) /\
  (forall pre last,
      Nat.even (length pre) = true ->
      fields_text (pre ++ [last]) = fields_text pre +:+ fields_text [last]) /\
  (forall key, fields_text [VString key] = " " +:+ key +:+ "=") /\
  (forall k, is_string k = false -> fields_text [k] = " ").
Proof.
  split; [exact build_line_parts |].
  split; [exact log_line_text |].
  split; [reflexivity |].
  split.
  { intros key v rest. rewrite !fields_text_pairs. reflexivity. }
  split.
  { intros k v rest Hk. rewrite !fields_text_pairs.
    destruct k; try discriminate; reflexivity. }
  split.
  { intros pre last Hev. rewrite !fields_text_pairs.
    apply pairs_text_even_app, Hev. }
  split.
  { intros key. rewrite fields_text_pairs. reflexivity. }
  intros k Hk. rewrite fields_text_pairs.
  destruct k; try discriminate; reflexivity.
Qed.

End Fields.

(** C7, the case the claim as worded gets wrong: the field list
    ["user"] has odd length, and its last element is not dropped: the
    line is [T INFO m user=], where the line without fields is
    [T INFO m]; the same line is what [Info] queues. *)
Lemma trailing_key_rendered :
  Nat.odd (length [VString "user"]) = true /\
  build_line "T" "INFO" "m" [VString "user"] = "T INFO m user=" +:+ nl /\
  build_line "T" "INFO" "m" [] = "T INFO m" +:+ nl /\
  String.index 0 "user" (build_line "T" "INFO" "m" [VString "user"]) = Some 9 /\
  match NewAsyncLogger {| Level := InfoLevel; IsProduction := false |} []
          empty_world with
  | Some (l, w) =>
      pending (logChan l) (Info l "m" [VString "user"] "T" w).1
      = ["T INFO m user=" +:+ nl]
  | None => False
  end.
Proof. vm_compute. auto 10. Qed.

End FieldsClaim.

Module ClaimExamples.
Import Slice Logger SliceFacts LoggerFacts StringFacts FieldsSpec ChannelFacts SystemFacts WriterFacts EmitSpec.
Import ClaimsSpec WriterSpec.

Lemma size_one_is_package_option :
  Forall package_option [WithBufferSize 1].
Proof.
  constructor; [| constructor]. left. exists 1%Z. split; [| reflexivity].
  unfold GoInt.in_int. rewrite GoIntFacts.min_int_val, GoIntFacts.max_int_val. lia.
Qed.

(** C1, the case the claim as worded gets wrong: with [WithBufferSize(1)]
    the second line arrives when one line is pending and is queued, not
    dropped: two lines are pending, one more than the configured size,
    and nothing is written to the error stream. *)
Lemma queue_takes_size_plus_one :
  match NewAsyncLogger {| Level := InfoLevel; IsProduction := false |}
          [WithBufferSize 1] empty_world with
  | Some (l, w) =>
      bufferSize l = 1%Z /\
      pending (logChan l) (log l "INFO" "a" [] "T" w) = ["T INFO a" +:+ nl] /\
      pending (logChan l) (log l "INFO" "b" [] "T" (log l "INFO" "a" [] "T" w))
      = ["T INFO a" +:+ nl; "T INFO b" +:+ nl] /\
      stderr (log l "INFO" "b" [] "T" (log l "INFO" "a" [] "T" w)) = []
  | None => False
  end.
Proof. vm_compute. auto. Qed.

Lemma pending_bounded_by_size_plus_one_witness :
  exists l w1,
    NewAsyncLogger {| Level := InfoLevel; IsProduction := false |}
      [WithBufferSize 1] empty_world = Some (l, w1) /\
    bufferSize l = 1%Z /\
    capacity (logChan l) w1 = Some 2 /\
    forall tr s, exec l tr (boot w1) = Some s ->
                 length (pending (logChan l) (sys_world s)) <= 2.
Proof.
  destruct (NewAsyncLogger {| Level := InfoLevel; IsProduction := false |}
              [WithBufferSize 1] empty_world) as [[l w1]|] eqn:Hnew;
    [| vm_compute in Hnew; discriminate].
  destruct (pending_bounded_by_size_plus_one _ _ _ _ _
              size_one_is_package_option Hnew)
    as (_ & Hsz & _ & Hcap & Hinv).
  specialize (Hsz 1%Z eq_refl). cbn in Hsz.
  exists l, w1. rewrite Hsz in Hcap, Hinv.
  split; [reflexivity |]. split; [exact Hsz |]. split; [exact Hcap |].
  intros tr s Hex. apply (Hinv tr s Hex).
Defined.

(** C4, the case the claim as worded gets wrong: at threshold
    [FatalLevel], which is above [PanicLevel], a call of [Panic] returns
    normally and leaves the world as it was. *)
Lemma Panic_silent_at_Fatal_threshold :
  (PanicLevel < FatalLevel)%Z /\
  match NewAsyncLogger {| Level := FatalLevel; IsProduction := false |} []
          empty_world with
  | Some (l, w) => Panic l "boom" [] "T" w = (w, Normal)
  | None => False
  end.
Proof. split; [reflexivity | vm_compute; reflexivity]. Qed.

End ClaimExamples.

Module ClaimWitnesses.
Import Slice Logger SliceFacts LoggerFacts StringFacts FieldsSpec ChannelFacts SystemFacts WriterFacts EmitSpec.
Import ClaimsSpec WriterSpec ClaimExamples.

Lemma drain_completeness_witness :
  exists l w1 s s',
    NewAsyncLogger {| Level := InfoLevel; IsProduction := false |}
      [WithBufferSize 1] empty_world = Some (l, w1) /\
    exec l ([ALog l "INFO" "a" [] "T"; ASelect CaseRecv;
             ALog l "INFO" "b" [] "T"; ALog l "INFO" "c" [] "T";
             ALog l "INFO" "d" [] "T"]
              ++ ACancel :: [ASelect CaseRecv])
      (boot w1) = Some s /\
    exec l (shutdown l s) s = Some s' /\
    at_ s' = Returned /\
    join (stdout (sys_world s'))
    = "T INFO a" +:+ nl +:+ "T INFO b" +:+ nl +:+ "T INFO c" +:+ nl.
Proof.
  destruct (NewAsyncLogger {| Level := InfoLevel; IsProduction := false |}
              [WithBufferSize 1] empty_world) as [[l w1]|] eqn:Hnew;
    [| vm_compute in Hnew; discriminate].
  assert (Hlw : l = {| cfg := {| Level := InfoLevel; IsProduction := false |};
                       logChan := Some 0; writer := Stdout; bufferSize := 1;
                       flushInterval := defaultFlushInterval;
                       contextFields := nil_slice |} /\
                w1 = set_chans {[ 0 := {| ch_cap := 2; ch_buf := [] |} ]} empty_world).
  { vm_compute in Hnew. injection Hnew as <- <-. split; vm_compute; reflexivity. }
  destruct (exec l ([ALog l "INFO" "a" [] "T"; ASelect CaseRecv;
                     ALog l "INFO" "b" [] "T"; ALog l "INFO" "c" [] "T";
                     ALog l "INFO" "d" [] "T"]
                      ++ ACancel :: [ASelect CaseRecv]) (boot w1))
    as [s|] eqn:Hex.
  2:{ destruct Hlw as [-> ->]. vm_compute in Hex. discriminate. }
  assert (Hpre : Forall (fun a => a <> ACancel)
                   [ALog l "INFO" "a" [] "T"; ASelect CaseRecv;
                    ALog l "INFO" "b" [] "T"; ALog l "INFO" "c" [] "T";
                    ALog l "INFO" "d" [] "T"])
    by (repeat constructor; discriminate).
  assert (Hpost : Forall (fun a => is_log a = false) [ASelect CaseRecv])
    by (repeat constructor).
  destruct (drain_completeness _ _ _ _ _ _ _ _
              size_one_is_package_option Hnew Hpre Hpost Hex)
    as (s0 & s' & Hex0 & _ & Hex' & Hret & _ & _ & _ & _ & Hjoin).
  exists l, w1, s, s'.
  split; [reflexivity |]. split; [exact Hex |].
  split; [exact Hex' |]. split; [exact Hret |].
  rewrite Hjoin. destruct Hlw as [-> ->].
  vm_compute in Hex0. injection Hex0 as <-. vm_compute. reflexivity.
Defined.

Lemma With_copies_then_appends_witness :
  let l := defaults {| Level := InfoLevel; IsProduction := false |} in
  let p := (With l [VString "a"; VString "b"] empty_world).1 in
  let w1 := (With l [VString "a"; VString "b"] empty_world).2 in
  let q := (With p [VString "c"; VString "d"] w1).1 in
  let w2 := (With p [VString "c"; VString "d"] w1).2 in
  logger_ok empty_world l /\
  (log_line q "INFO" "m" [] "T" w2).1 = "T INFO m a=b c=d" +:+ nl /\
  (log_line p "INFO" "m" [] "T" (log q "INFO" "m" [] "T" w2)).1
  = "T INFO m a=b" +:+ nl.
Proof.
  intros l p w1 q w2.
  assert (Hok : logger_ok empty_world l)
    by (split; [reflexivity | left; reflexivity]).
  pose proof (With_copies_then_appends l [VString "a"; VString "b"]
                [VString "c"; VString "d"] empty_world Hok) as Hthm.
  cbv zeta in Hthm. fold p w1 q w2 in Hthm.
  destruct Hthm as (_ & _ & _ & _ & _ & _ & _ & _ & _ & Hq & _ & Hp).
  split; [exact Hok |]. split.
  - rewrite Hq. vm_compute. reflexivity.
  - rewrite Hp. vm_compute. reflexivity.
Defined.

End ClaimWitnesses.

(** ** The options, the batch and the records of a created logger *)

Module LoggerMoreSpec.
Import Slice Logger LoggerMore SliceFacts LoggerFacts StringFacts FieldsSpec ChannelFacts SystemFacts WriterFacts EmitSpec WriterSpec.

Lemma last_positive_pos values : forall start,
  (0 < start)%Z -> (0 < last_positive start values)%Z.
Proof.
  induction values as [|v values IH]; intros start Hs; cbn [last_positive];
    [exact Hs |].
  apply IH. case_decide; assumption.
Qed.

Lemma options_fold calls : forall l0,
  bufferSize (foldl (fun l opt => opt l) l0 (option_of <$> calls))
  = last_positive (bufferSize l0) (sizes_of calls) /\
  flushInterval (foldl (fun l opt => opt l) l0 (option_of <$> calls))
  = last_positive (flushInterval l0) (intervals_of calls).
Proof.
  induction calls as [|o calls IH]; intros l0; [split; reflexivity |].
  cbn [fmap list_fmap foldl]. destruct (IH (option_of o l0)) as [Hb Hf].
  rewrite Hb, Hf. destruct o as [size | interval];
    cbn [option_of sizes_of intervals_of omap list_omap last_positive];
    unfold WithBufferSize, WithFlushInterval; case_decide; split; reflexivity.
Qed.

Lemma NewAsyncLogger_fields c opts w0 l w1 :
  NewAsyncLogger c opts w0 = Some (l, w1) ->
  bufferSize l = bufferSize (foldl (fun l opt => opt l) (defaults c) opts) /\
  flushInterval l = flushInterval (foldl (fun l opt => opt l) (defaults c) opts).
Proof.
  unfold NewAsyncLogger. cbv zeta. case_decide; [| discriminate].
  intros [= <- _]. split; reflexivity.
Qed.

(** X1. The options are applied in order: the buffer size of the logger is
    the last positive size given, the flush interval the last positive
    interval given, and a value that is not positive changes nothing; so
    both stay positive, and neither kind of option touches the other
    field. *)
Theorem options_last_positive_wins c calls w0 l w1 :
  NewAsyncLogger c (option_of <$> calls) w0 = Some (l, w1) ->
  bufferSize l = last_positive defaultBufferSize (sizes_of calls) /\
  flushInterval l = last_positive defaultFlushInterval (intervals_of calls) /\
  (0 < bufferSize l)%Z /\ (0 < flushInterval l)%Z.
Proof.
  intros Hnew. destruct (NewAsyncLogger_fields _ _ _ _ _ Hnew) as [Hb Hf].
  destruct (options_fold calls (defaults c)) as [Hb' Hf'].
  rewrite Hb, Hf, Hb', Hf'. cbn [defaults bufferSize flushInterval].
  repeat split; try reflexivity; apply last_positive_pos; reflexivity.
Qed.

Lemma options_last_positive_wins_witness :
  exists l w1,
    NewAsyncLogger {| Level := InfoLevel; IsProduction := false |}
      (option_of <$> [BufferSizeCall 8; FlushIntervalCall (-5);
                      BufferSizeCall 0; BufferSizeCall 16;
                      BufferSizeCall (-1)])
      empty_world = Some (l, w1) /\
    bufferSize l = 16%Z /\ flushInterval l = defaultFlushInterval.
Proof.
  destruct (NewAsyncLogger {| Level := InfoLevel; IsProduction := false |}
      (option_of <$> [BufferSizeCall 8; FlushIntervalCall (-5);
                      BufferSizeCall 0; BufferSizeCall 16;
                      BufferSizeCall (-1)])
      empty_world) as [[l w1]|] eqn:Hnew; [| vm_compute in Hnew; discriminate].
  destruct (options_last_positive_wins _ _ _ _ _ Hnew) as (Hb & Hf & _).
  exists l, w1. split; [reflexivity |]. split; [exact Hb | exact Hf].
Defined.

Section Writer.
Context `{GrowthPolicy}.
Variable l : asyncLogger.

Lemma exec_preserves (P : system -> Prop) :
  (forall a s s', P s -> step l a s = Some s' -> P s') ->
  forall tr s s', P s -> exec l tr s = Some s' -> P s'.
Proof.
  intros Hstep. induction tr as [|a tr IH]; intros s s' HP Hex; cbn [exec] in Hex.
  - injection Hex as <-. exact HP.
  - destruct (step l a s) as [s1|] eqn:Hst; [| discriminate].
    eapply IH; [| exact Hex]. eapply Hstep; eauto.
Qed.

Lemma flush_batch b w : (flush l b w).1 = EmptyString.
Proof.
  unfold flush. case_decide as Hb; [reflexivity |].
  cbn [fst]. apply length_zero_empty, Hb.
Qed.

Lemma step_batch_small a s s' :
  (0 < bufferSize l)%Z ->
  batch_small l s -> step l a s = Some s' -> batch_small l s'.
Proof.
  intros Hpos Hsmall Hstep. unfold batch_small in *.
  destruct a as [lg level msg fields now | | c |]; cbn [step] in Hstep.
  - destruct (log_line lg level msg fields now (sys_world s)).
    injection Hstep as <-. exact Hsmall.
  - injection Hstep as <-. exact Hsmall.
  - destruct (at_ s) eqn:Hat; try discriminate.
    destruct c; cbn [run_select] in Hstep.
    + destruct (ctx_done s); [| discriminate]. injection Hstep as <-. discriminate.
    + pose proof (flush_batch (batch s) (sys_world s)) as Hb.
      destruct (flush l (batch s) (sys_world s)) as [b w']. cbn [fst] in Hb.
      injection Hstep as <-. cbn. intros _. rewrite Hb. cbn. lia.
    + destruct (try_recv (logChan l) (sys_world s)) as [[m w1]|]; [| discriminate].
      case_decide as Hbig.
      * pose proof (flush_batch (batch s +:+ m) w1) as Hb.
        destruct (flush l (batch s +:+ m) w1) as [b w']. cbn [fst] in Hb.
        injection Hstep as <-. cbn. intros _. rewrite Hb. cbn. lia.
      * injection Hstep as <-. cbn. intros _. lia.
  - destruct (at_ s) eqn:Hat; try discriminate.
    unfold run_drain in Hstep.
    destruct (try_recv (logChan l) (sys_world s)) as [[m w1]|].
    + injection Hstep as <-. discriminate.
    + destruct (flush l (batch s) (sys_world s)) as [b w'].
      injection Hstep as <-. discriminate.
Qed.

Hypothesis Hwriter : writer l = Stdout.

Lemma flushed_nonempty data : Forall (fun d => d <> EmptyString) (flushed data).
Proof.
  unfold flushed. case_decide as Hd; constructor; [| constructor].
  intros ->. cbn in Hd. lia.
Qed.

Lemma records_flush base b w :
  forall consumed written,
  stdout w = base ++ written ->
  Forall (fun data => data <> EmptyString) written ->
  join written +:+ b = join consumed ->
  stdout (flush l b w).2 = base ++ (written ++ flushed b) /\
  Forall (fun data => data <> EmptyString) (written ++ flushed b) /\
  join (written ++ flushed b) +:+ (flush l b w).1 = join consumed /\
  pending (logChan l) (flush l b w).2 = pending (logChan l) w.
Proof.
  intros consumed written Hout Hne Hj.
  destruct (flush_spec l b w Hwriter) as (Hb & Ho & _ & Hc & _).
  rewrite Hb, Ho, Hout, app_assoc, join_app, join_flushed, append_nil_r.
  repeat split; auto.
  - apply Forall_app. split; [exact Hne | apply flushed_nonempty].
  - apply pending_chans, Hc.
Qed.

Lemma step_records base a s s' :
  records_inv l base s -> step l a s = Some s' -> records_inv l base s'.
Proof.
  intros (consumed & written & Hacc & Hout & Hne & Hj) Hstep.
  destruct a as [lg level msg fields now | | c |]; cbn [step] in Hstep.
  - destruct (log_line lg level msg fields now (sys_world s)) as [line w1] eqn:Hll.
    pose proof (pending_log_line (logChan l) lg level msg fields now (sys_world s)) as Hp1.
    destruct (log_line_streams lg level msg fields now (sys_world s)) as (_ & Ho1 & _).
    rewrite Hll in Hp1, Ho1. cbn [snd] in Hp1, Ho1.
    injection Hstep as <-. exists consumed, written.
    cbn [sys_world batch accepted]. unfold enqueue.
    destruct (try_send (logChan lg) line w1) as [w2|] eqn:Hs.
    + apply try_send_Some in Hs as (_ & Hp2 & _ & _ & Ho2 & _ & Hother).
      rewrite Ho2, Ho1. case_decide as Hsame.
      * rewrite <- Hsame, Hp2, Hsame, Hp1, Hacc, app_assoc. auto.
      * destruct (Hother (logChan l)) as [Hp3 _]; [congruence |].
        rewrite Hp3, Hp1, app_nil_r. auto.
    + rewrite pending_write, Hp1. cbn [write stdout]. rewrite Ho1.
      assert ((if decide (logChan lg = logChan l) then [] else []) = @nil string)
        as -> by (case_decide; reflexivity).
      rewrite app_nil_r. auto.
  - injection Hstep as <-. exists consumed, written. cbn. auto.
  - destruct (at_ s) eqn:Hat; try discriminate.
    destruct c; cbn [run_select] in Hstep.
    + destruct (ctx_done s); [| discriminate]. injection Hstep as <-.
      exists consumed, written. cbn. auto.
    + destruct (records_flush base (batch s) (sys_world s) consumed written
                  Hout Hne Hj) as (Ho & Hf & Hjj & Hp).
      destruct (flush l (batch s) (sys_world s)) as [b w']. cbn [fst snd] in *.
      injection Hstep as <-. exists consumed, (written ++ flushed (batch s)).
      cbn [sys_world batch accepted]. rewrite Hp. auto.
    + destruct (try_recv (logChan l) (sys_world s)) as [[m w1]|] eqn:Hr; [| discriminate].
      apply try_recv_Some in Hr as (Hp1 & _ & _ & Ho1 & _).
      assert (Hacc1 : accepted s = (consumed ++ [m]) ++ pending (logChan l) w1)
        by (rewrite Hacc, Hp1, <- app_assoc; reflexivity).
      assert (Hj1 : join written +:+ (batch s +:+ m) = join (consumed ++ [m])).
      { rewrite join_app, <- Hj. cbn [join]. string_norm. reflexivity. }
      rewrite <- Ho1 in Hout.
      case_decide as Hbig.
      * destruct (records_flush base (batch s +:+ m) w1 (consumed ++ [m]) written
                    Hout Hne Hj1) as (Ho & Hf & Hjj & Hp).
        destruct (flush l (batch s +:+ m) w1) as [b w']. cbn [fst snd] in *.
        injection Hstep as <-. exists (consumed ++ [m]), (written ++ flushed (batch s +:+ m)).
        cbn [sys_world batch accepted]. rewrite Hp. auto.
      * injection Hstep as <-. exists (consumed ++ [m]), written.
        cbn [sys_world batch accepted]. auto.
  - destruct (at_ s) eqn:Hat; try discriminate.
    unfold run_drain in Hstep.
    destruct (try_recv (logChan l) (sys_world s)) as [[m w1]|] eqn:Hr.
    + apply try_recv_Some in Hr as (Hp1 & _ & _ & Ho1 & _).
      injection Hstep as <-. exists (consumed ++ [m]), written.
      cbn [sys_world batch accepted]. rewrite Ho1.
      split; [rewrite Hacc, Hp1, <- app_assoc; reflexivity |].
      split; [exact Hout |]. split; [exact Hne |].
      rewrite join_app, <- Hj. cbn [join]. string_norm. reflexivity.
    + destruct (records_flush base (batch s) (sys_world s) consumed written
                  Hout Hne Hj) as (Ho & Hf & Hjj & Hp).
      destruct (flush l (batch s) (sys_world s)) as [b w']. cbn [fst snd] in *.
      injection Hstep as <-. exists consumed, (written ++ flushed (batch s)).
      cbn [sys_world batch accepted]. rewrite Hp. auto.
Qed.

(** Every call of [log] on the channel is accounted for once: it adds
    one accepted line or one warning on the error stream; the worker
    adds neither. *)
Lemma step_accounting a s s' :
  on_channel l a -> step l a s = Some s' ->
  length (accepted s') + length (stderr (sys_world s'))
  = length (accepted s) + length (stderr (sys_world s))
    + (if is_log a then 1 else 0).
Proof.
  intros Hon Hstep.
  destruct a as [lg level msg fields now | | c |]; cbn [step is_log] in *.
  - destruct (log_line lg level msg fields now (sys_world s)) as [line w1] eqn:Hll.
    destruct (log_line_streams lg level msg fields now (sys_world s)) as (_ & _ & He1).
    rewrite Hll in He1. cbn [snd] in He1.
    injection Hstep as <-. cbn [sys_world accepted]. unfold enqueue.
    rewrite decide_True by exact Hon.
    destruct (try_send (logChan lg) line w1) as [w2|] eqn:Hs.
    + apply try_send_Some in Hs as (_ & _ & _ & _ & _ & He2 & _).
      rewrite He2, He1, length_app. cbn [length]. lia.
    + cbn [write stderr]. rewrite He1, app_nil_r, length_app. cbn [length]. lia.
  - injection Hstep as <-. cbn. lia.
  - destruct (at_ s) eqn:Hat; try discriminate.
    destruct c; cbn [run_select] in Hstep.
    + destruct (ctx_done s); [| discriminate]. injection Hstep as <-. cbn. lia.
    + destruct (flush_spec l (batch s) (sys_world s) Hwriter) as (_ & _ & He & _).
      destruct (flush l (batch s) (sys_world s)) as [b w']. cbn [snd] in He.
      injection Hstep as <-. cbn [sys_world accepted]. rewrite He. lia.
    + destruct (try_recv (logChan l) (sys_world s)) as [[m w1]|] eqn:Hr; [| discriminate].
      apply try_recv_Some in Hr as (_ & _ & _ & _ & He1).
      case_decide.
      * destruct (flush_spec l (batch s +:+ m) w1 Hwriter) as (_ & _ & He & _).
        destruct (flush l (batch s +:+ m) w1) as [b w']. cbn [snd] in He.
        injection Hstep as <-. cbn [sys_world accepted]. rewrite He, He1. lia.
      * injection Hstep as <-. cbn [sys_world accepted]. rewrite He1. lia.
  - destruct (at_ s) eqn:Hat; try discriminate.
    unfold run_drain in Hstep.
    destruct (try_recv (logChan l) (sys_world s)) as [[m w1]|] eqn:Hr.
    + apply try_recv_Some in Hr as (_ & _ & _ & _ & He1).
      injection Hstep as <-. cbn [sys_world accepted]. rewrite He1. lia.
    + destruct (flush_spec l (batch s) (sys_world s) Hwriter) as (_ & _ & He & _).
      destruct (flush l (batch s) (sys_world s)) as [b w']. cbn [snd] in He.
      injection Hstep as <-. cbn [sys_world accepted]. rewrite He. lia.
Qed.

Lemma exec_accounting tr : forall s s',
  Forall (on_channel l) tr -> exec l tr s = Some s' ->
  length (accepted s') + length (stderr (sys_world s'))
  = length (accepted s) + length (stderr (sys_world s)) + log_calls tr.
Proof.
  induction tr as [|a tr IH]; intros s s' Hon Hex; cbn [exec] in Hex.
  - injection Hex as <-. unfold log_calls. cbn. lia.
  - apply Forall_cons in Hon as [Ha Hon].
    destruct (step l a s) as [s1|] eqn:Hst; [| discriminate].
    rewrite (IH _ _ Hon Hex), (step_accounting _ _ _ Ha Hst).
    unfold log_calls. rewrite filter_cons.
    destruct (is_log a); [rewrite decide_True by reflexivity
                         | rewrite decide_False by discriminate];
      cbn [length];
      generalize (length (filter (fun a0 => is_log a0 = true) tr));
      intros n; lia.
Qed.

Lemma step_close_inv a s s' :
  (at_ s <> Selecting -> ctx_done s = true) /\
  (at_ s = Returned -> batch s = EmptyString) ->
  step l a s = Some s' ->
  (at_ s' <> Selecting -> ctx_done s' = true) /\
  (at_ s' = Returned -> batch s' = EmptyString).
Proof.
  intros [Hd Hb] Hstep.
  destruct a as [lg level msg fields now | | c |]; cbn [step] in Hstep.
  - destruct (log_line lg level msg fields now (sys_world s)).
    injection Hstep as <-. cbn. auto.
  - injection Hstep as <-. cbn. auto.
  - destruct (at_ s) eqn:Hat; try discriminate.
    destruct (run_select l (ctx_done s) c (batch s) (sys_world s))
      as [[[b ph] w]|] eqn:Hsel; [| discriminate].
    pose proof (run_select_phase l _ _ _ _ _ _ _ Hsel) as Hph.
    injection Hstep as <-. cbn. split; [| done].
    intros Hne. destruct c; cbn [run_select] in Hsel.
    + destruct (ctx_done s); [reflexivity | discriminate].
    + destruct (flush l (batch s) (sys_world s)). injection Hsel as _ <- _. done.
    + destruct (try_recv (logChan l) (sys_world s)) as [[m w1]|]; [| discriminate].
      case_decide.
      * destruct (flush l (batch s +:+ m) w1). injection Hsel as _ <- _. done.
      * injection Hsel as _ <- _. done.
  - destruct (at_ s) eqn:Hat; try discriminate.
    assert (Hdone : ctx_done s = true) by (apply Hd; discriminate).
    unfold run_drain in Hstep.
    destruct (try_recv (logChan l) (sys_world s)) as [[m w1]|].
    + injection Hstep as <-. cbn. split; [auto | discriminate].
    + pose proof (flush_batch (batch s) (sys_world s)) as Hfb.
      destruct (flush l (batch s) (sys_world s)) as [b w']. cbn [fst] in Hfb.
      injection Hstep as <-. cbn. auto.
Qed.

End Writer.

Section Created.
Context `{GrowthPolicy}.

Lemma created_records c opts w0 l w1 tr s :
  Forall package_option opts ->
  NewAsyncLogger c opts w0 = Some (l, w1) ->
  exec l tr (boot w1) = Some s ->
  records_inv l (stdout w0) s.
Proof.
  intros Hopts Hnew Hex.
  destruct (NewAsyncLogger_spec c opts w0 l w1 Hopts Hnew)
    as (_ & Hw & _ & _ & _ & _ & Hpend & _ & Hout & _).
  apply (exec_preserves l (records_inv l (stdout w0))
           (step_records l Hw (stdout w0)) tr (boot w1) s); [| exact Hex].
  exists [], []. cbn [boot sys_world batch accepted join].
  rewrite Hpend, Hout.
  split; [reflexivity |]. split; [symmetry; apply app_nil_r |].
  split; [constructor | reflexivity].
Qed.

(** X2. Between two rounds of its outer [select] the worker of a logger made
    by [NewAsyncLogger] holds fewer bytes than the buffer size: a receive
    that fills the batch to the size flushes it at once. *)
Theorem batch_below_buffer_size c opts w0 l w1 tr s :
  Forall package_option opts ->
  NewAsyncLogger c opts w0 = Some (l, w1) ->
  exec l tr (boot w1) = Some s ->
  at_ s = Selecting ->
  (Z.of_nat (String.length (batch s)) < bufferSize l)%Z.
Proof.
  intros Hopts Hnew Hex.
  destruct (NewAsyncLogger_spec c opts w0 l w1 Hopts Hnew)
    as (_ & _ & _ & Hsize & _).
  apply (exec_preserves l (batch_small l)
           (fun a s s' => step_batch_small l a s s' (proj1 Hsize))
           tr (boot w1) s); [| exact Hex].
  intros _. cbn. lia.
Qed.

(** X3. In every state a logger made by [NewAsyncLogger] reaches, the lines
    its channel accepted are, in order, the lines the worker consumed
    followed by the lines still pending; the sink was only appended to,
    by non-empty writes; and the bytes written and batched are exactly
    the bytes of the consumed lines: no accepted line is lost, doubled or
    reordered on its way to the sink. *)
Theorem accepted_lines_in_order c opts w0 l w1 tr s :
  Forall package_option opts ->
  NewAsyncLogger c opts w0 = Some (l, w1) ->
  exec l tr (boot w1) = Some s ->
  exists consumed written,
    accepted s = consumed ++ pending (logChan l) (sys_world s) /\
    stdout (sys_world s) = stdout w0 ++ written /\
    Forall (fun data => data <> EmptyString) written /\
    join written +:+ batch s = join consumed.
Proof.
  intros Hopts Hnew Hex.
  exact (created_records c opts w0 l w1 tr s Hopts Hnew Hex).
Qed.

(** X4. When every call of [log] of a run goes through a logger on the
    channel, the accepted lines and the lines on the error stream add up
    to the calls made: each call is queued or reported as dropped, never
    both and never neither. *)
Theorem accepted_plus_dropped c opts w0 l w1 tr s :
  Forall package_option opts ->
  NewAsyncLogger c opts w0 = Some (l, w1) ->
  Forall (on_channel l) tr ->
  exec l tr (boot w1) = Some s ->
  length (accepted s) + length (stderr (sys_world s))
  = length (stderr w0) + log_calls tr.
Proof.
  intros Hopts Hnew Hon Hex.
  destruct (NewAsyncLogger_spec c opts w0 l w1 Hopts Hnew)
    as (_ & Hw & _ & _ & _ & _ & _ & _ & _ & Herr).
  rewrite (exec_accounting l Hw tr _ _ Hon Hex).
  cbn [boot accepted sys_world length]. rewrite Herr. lia.
Qed.

(** X5. [Close] returns only once the worker has returned, which takes a
    cancelled context: while the context is not cancelled it blocks in
    every state, and when it returns the batch is empty and the sink
    holds exactly the lines the worker consumed. *)
Theorem Close_waits_for_worker c opts w0 l w1 tr s :
  Forall package_option opts ->
  NewAsyncLogger c opts w0 = Some (l, w1) ->
  exec l tr (boot w1) = Some s ->
  (ctx_done s = false -> Close s = None) /\
  (forall s', Close s = Some s' ->
     s' = s /\ ctx_done s = true /\ batch s = EmptyString /\
     exists consumed written,
       accepted s = consumed ++ pending (logChan l) (sys_world s) /\
       stdout (sys_world s) = stdout w0 ++ written /\
       join written = join consumed).
Proof.
  intros Hopts Hnew Hex.
  assert (Hci : (at_ s <> Selecting -> ctx_done s = true) /\
                (at_ s = Returned -> batch s = EmptyString)).
  { apply (exec_preserves l _ (step_close_inv l) tr (boot w1) s); [| exact Hex].
    cbn. split; [done | discriminate]. }
  destruct Hci as [Hd Hb].
  destruct (created_records c opts w0 l w1 tr s Hopts Hnew Hex)
    as (consumed & written & Hacc & Hout & _ & Hj).
  unfold Close. split.
  - intros Hnd. destruct (at_ s) eqn:Hat; [reflexivity | |];
      rewrite Hd in Hnd by discriminate; discriminate.
  - intros s' Hc. destruct (at_ s) eqn:Hat; try discriminate.
    injection Hc as <-. specialize (Hb eq_refl).
    split; [reflexivity |]. split; [apply Hd; discriminate |].
    split; [exact Hb |]. exists consumed, written.
    rewrite Hb, append_nil_r in Hj. auto.
Qed.

End Created.

Lemma size_is_package_option size :
  GoInt.in_int size -> Forall package_option [WithBufferSize size].
Proof.
  intros Hsize. constructor; [| constructor]. left. exists size. auto.
Qed.

Lemma sixteen_in_int : GoInt.in_int 16.
Proof.
  unfold GoInt.in_int. rewrite GoIntFacts.min_int_val, GoIntFacts.max_int_val.
  lia.
Qed.

Lemma one_in_int : GoInt.in_int 1.
Proof.
  unfold GoInt.in_int. rewrite GoIntFacts.min_int_val, GoIntFacts.max_int_val.
  lia.
Qed.

Lemma batch_below_buffer_size_witness :
  exists l w1 s,
    NewAsyncLogger {| Level := InfoLevel; IsProduction := false |}
      [WithBufferSize 16] empty_world = Some (l, w1) /\
    exec l [ALog l "INFO" "a" [] "T"; ASelect CaseRecv] (boot w1) = Some s /\
    at_ s = Selecting /\
    (Z.of_nat (String.length (batch s)) < bufferSize l)%Z.
Proof.
  destruct (NewAsyncLogger {| Level := InfoLevel; IsProduction := false |}
              [WithBufferSize 16] empty_world) as [[l w1]|] eqn:Hnew;
    [| vm_compute in Hnew; discriminate].
  assert (Hlw : l = {| cfg := {| Level := InfoLevel; IsProduction := false |};
                       logChan := Some 0; writer := Stdout; bufferSize := 16;
                       flushInterval := defaultFlushInterval;
                       contextFields := nil_slice |} /\
                w1 = set_chans {[ 0 := {| ch_cap := 17; ch_buf := [] |} ]} empty_world).
  { vm_compute in Hnew. injection Hnew as <- <-. split; vm_compute; reflexivity. }
  destruct (exec l [ALog l "INFO" "a" [] "T"; ASelect CaseRecv] (boot w1))
    as [s|] eqn:Hex.
  2:{ destruct Hlw as [-> ->]. vm_compute in Hex. discriminate. }
  assert (Hat : at_ s = Selecting).
  { destruct Hlw as [-> ->]. vm_compute in Hex. injection Hex as <-. reflexivity. }
  exists l, w1, s. split; [reflexivity |]. split; [exact Hex |].
  split; [exact Hat |].
  exact (batch_below_buffer_size _ _ _ _ _ _ _
           (size_is_package_option 16 sixteen_in_int) Hnew Hex Hat).
Defined.

Lemma accepted_lines_in_order_witness :
  exists l w1 s consumed written,
    NewAsyncLogger {| Level := InfoLevel; IsProduction := false |}
      [WithBufferSize 16] empty_world = Some (l, w1) /\
    exec l [ALog l "INFO" "a" [] "T"; ASelect CaseRecv;
            ALog l "INFO" "b" [] "T"; ASelect CaseRecv;
            ALog l "INFO" "c" [] "T"] (boot w1) = Some s /\
    accepted s = consumed ++ pending (logChan l) (sys_world s) /\
    stdout (sys_world s) = stdout empty_world ++ written /\
    Forall (fun data => data <> EmptyString) written /\
    join written +:+ batch s = join consumed.
Proof.
  destruct (NewAsyncLogger {| Level := InfoLevel; IsProduction := false |}
              [WithBufferSize 16] empty_world) as [[l w1]|] eqn:Hnew;
    [| vm_compute in Hnew; discriminate].
  assert (Hlw : l = {| cfg := {| Level := InfoLevel; IsProduction := false |};
                       logChan := Some 0; writer := Stdout; bufferSize := 16;
                       flushInterval := defaultFlushInterval;
                       contextFields := nil_slice |} /\
                w1 = set_chans {[ 0 := {| ch_cap := 17; ch_buf := [] |} ]} empty_world).
  { vm_compute in Hnew. injection Hnew as <- <-. split; vm_compute; reflexivity. }
  destruct (exec l [ALog l "INFO" "a" [] "T"; ASelect CaseRecv;
                    ALog l "INFO" "b" [] "T"; ASelect CaseRecv;
                    ALog l "INFO" "c" [] "T"] (boot w1))
    as [s|] eqn:Hex.
  2:{ destruct Hlw as [-> ->]. vm_compute in Hex. discriminate. }
  destruct (accepted_lines_in_order _ _ _ _ _ _ _
              (size_is_package_option 16 sixteen_in_int) Hnew Hex)
    as (consumed & written & Hacc & Hout & Hne & Hj).
  exists l, w1, s, consumed, written. auto 10.
Defined.

Lemma accepted_plus_dropped_witness :
  exists l w1 s,
    NewAsyncLogger {| Level := InfoLevel; IsProduction := false |}
      [WithBufferSize 1] empty_world = Some (l, w1) /\
    exec l [ALog l "INFO" "a" [] "T"; ALog l "INFO" "b" [] "T";
            ALog l "INFO" "c" [] "T"] (boot w1) = Some s /\
    length (accepted s) + length (stderr (sys_world s)) = 3 /\
    length (stderr (sys_world s)) = 1.
Proof.
  destruct (NewAsyncLogger {| Level := InfoLevel; IsProduction := false |}
              [WithBufferSize 1] empty_world) as [[l w1]|] eqn:Hnew;
    [| vm_compute in Hnew; discriminate].
  assert (Hlw : l = {| cfg := {| Level := InfoLevel; IsProduction := false |};
                       logChan := Some 0; writer := Stdout; bufferSize := 1;
                       flushInterval := defaultFlushInterval;
                       contextFields := nil_slice |} /\
                w1 = set_chans {[ 0 := {| ch_cap := 2; ch_buf := [] |} ]} empty_world).
  { vm_compute in Hnew. injection Hnew as <- <-. split; vm_compute; reflexivity. }
  destruct (exec l [ALog l "INFO" "a" [] "T"; ALog l "INFO" "b" [] "T";
                    ALog l "INFO" "c" [] "T"] (boot w1))
    as [s|] eqn:Hex.
  2:{ destruct Hlw as [-> ->]. vm_compute in Hex. discriminate. }
  assert (Hon : Forall (on_channel l)
                  [ALog l "INFO" "a" [] "T"; ALog l "INFO" "b" [] "T";
                   ALog l "INFO" "c" [] "T"])
    by (repeat constructor).
  pose proof (accepted_plus_dropped _ _ _ _ _ _ _
                (size_is_package_option 1 one_in_int) Hnew Hon Hex) as Hsum.
  exists l, w1, s. split; [reflexivity |]. split; [exact Hex |].
  split; [exact Hsum |].
  destruct Hlw as [-> ->]. vm_compute in Hex. injection Hex as <-. reflexivity.
Defined.

Lemma Close_waits_for_worker_witness :
  exists l w1 s0 s,
    NewAsyncLogger {| Level := InfoLevel; IsProduction := false |}
      [WithBufferSize 16] empty_world = Some (l, w1) /\
    exec l [ALog l "INFO" "a" [] "T"] (boot w1) = Some s0 /\
    Close s0 = None /\
    exec l [ALog l "INFO" "a" [] "T"; ACancel; ASelect CaseDone; ADrain; ADrain]
      (boot w1) = Some s /\
    Close s = Some s /\
    batch s = EmptyString /\
    stdout (sys_world s) = ["T INFO a" +:+ nl].
Proof.
  destruct (NewAsyncLogger {| Level := InfoLevel; IsProduction := false |}
              [WithBufferSize 16] empty_world) as [[l w1]|] eqn:Hnew;
    [| vm_compute in Hnew; discriminate].
  assert (Hlw : l = {| cfg := {| Level := InfoLevel; IsProduction := false |};
                       logChan := Some 0; writer := Stdout; bufferSize := 16;
                       flushInterval := defaultFlushInterval;
                       contextFields := nil_slice |} /\
                w1 = set_chans {[ 0 := {| ch_cap := 17; ch_buf := [] |} ]} empty_world).
  { vm_compute in Hnew. injection Hnew as <- <-. split; vm_compute; reflexivity. }
  destruct (exec l [ALog l "INFO" "a" [] "T"] (boot w1)) as [s0|] eqn:Hex0.
  2:{ destruct Hlw as [-> ->]. vm_compute in Hex0. discriminate. }
  destruct (exec l [ALog l "INFO" "a" [] "T"; ACancel; ASelect CaseDone;
                    ADrain; ADrain] (boot w1)) as [s|] eqn:Hex.
  2:{ destruct Hlw as [-> ->]. vm_compute in Hex. discriminate. }
  destruct (Close_waits_for_worker _ _ _ _ _ _ _
              (size_is_package_option 16 sixteen_in_int) Hnew Hex0)
    as [Hblocks _].
  destruct (Close_waits_for_worker _ _ _ _ _ _ _
              (size_is_package_option 16 sixteen_in_int) Hnew Hex)
    as [_ Hreturns].
  assert (Hnd : ctx_done s0 = false).
  { destruct Hlw as [-> ->]. vm_compute in Hex0. injection Hex0 as <-. reflexivity. }
  assert (Hc : Close s = Some s).
  { destruct Hlw as [-> ->]. vm_compute in Hex. injection Hex as <-. reflexivity. }
  destruct (Hreturns s Hc) as (_ & _ & Hb & _).
  exists l, w1, s0, s. split; [reflexivity |]. split; [exact Hex0 |].
  split; [exact (Hblocks Hnd) |]. split; [exact Hex |].
  split; [exact Hc |]. split; [exact Hb |].
  destruct Hlw as [-> ->]. vm_compute in Hex. injection Hex as <-.
  vm_compute. reflexivity.
Defined.

End LoggerMoreSpec.

(** ** After the worker returned *)

Module AfterReturnSpec.
Import Slice Logger LoggerMore SliceFacts LoggerFacts StringFacts ChannelFacts.

Section Worker.
Context `{GrowthPolicy}.
Variable l : asyncLogger.

Lemma step_after_return a s s' :
  at_ s = Returned -> step l a s = Some s' ->
  at_ s' = Returned /\
  stdout (sys_world s') = stdout (sys_world s) /\
  batch s' = batch s /\
  (is_log a = true \/ a = ACancel) /\
  exists late,
    accepted s' = accepted s ++ late /\
    pending (logChan l) (sys_world s')
    = pending (logChan l) (sys_world s) ++ late.
Proof.
  intros Hat Hstep.
  destruct a as [lg level msg fields now | | c |]; cbn [step] in Hstep.
  - destruct (log_line lg level msg fields now (sys_world s)) as [line w1] eqn:Hll.
    pose proof (pending_log_line (logChan l) lg level msg fields now (sys_world s)) as Hp1.
    destruct (log_line_streams lg level msg fields now (sys_world s)) as (_ & Ho1 & _).
    rewrite Hll in Hp1, Ho1. cbn [snd] in Hp1, Ho1.
    injection Hstep as <-. cbn [sys_world batch accepted at_ is_log].
    split; [exact Hat |]. unfold enqueue.
    destruct (try_send (logChan lg) line w1) as [w2|] eqn:Hs.
    + apply try_send_Some in Hs as (_ & Hp2 & _ & _ & Ho2 & _ & Hother).
      split; [congruence |]. split; [reflexivity |]. split; [auto |].
      case_decide as Hsame.
      * exists [line]. split; [reflexivity |].
        rewrite <- Hsame, Hp2, Hsame, Hp1. reflexivity.
      * exists []. split; [reflexivity |].
        destruct (Hother (logChan l)) as [Hp3 _]; [congruence |].
        rewrite Hp3, Hp1, app_nil_r. reflexivity.
    + split; [cbn [write stdout]; exact Ho1 |]. split; [reflexivity |].
      split; [auto |]. exists [].
      assert ((if decide (logChan lg = logChan l) then [] else []) = @nil string)
        as -> by (case_decide; reflexivity).
      split; [reflexivity |]. rewrite pending_write, Hp1, app_nil_r. reflexivity.
  - injection Hstep as <-. cbn. repeat split; auto.
    exists []. rewrite !app_nil_r. auto.
  - rewrite Hat in Hstep. discriminate.
  - rewrite Hat in Hstep. discriminate.
Qed.

(** X6. Once the worker has returned nothing is written to the sink any
    more: only calls of [log] and cancellations can still happen, and a
    line logged from then on stays in the channel, or is reported as
    dropped once the channel is full, as when [main] cancels the context
    before the server has finished its requests. *)
Theorem lines_after_return_never_written tr : forall s s',
  at_ s = Returned -> exec l tr s = Some s' ->
  at_ s' = Returned /\
  stdout (sys_world s') = stdout (sys_world s) /\
  batch s' = batch s /\
  Forall (fun a => is_log a = true \/ a = ACancel) tr /\
  exists late,
    accepted s' = accepted s ++ late /\
    pending (logChan l) (sys_world s')
    = pending (logChan l) (sys_world s) ++ late.
Proof.
  induction tr as [|a tr IH]; intros s s' Hat Hex; cbn [exec] in Hex.
  - injection Hex as <-. repeat split; auto.
    exists []. rewrite !app_nil_r. auto.
  - destruct (step l a s) as [s1|] eqn:Hst; [| discriminate].
    destruct (step_after_return a s s1 Hat Hst)
      as (Hat1 & Ho1 & Hb1 & Ha & late1 & Hacc1 & Hp1).
    destruct (IH s1 s' Hat1 Hex) as (Hat' & Ho' & Hb' & Htr & late & Hacc & Hp).
    split; [exact Hat' |]. split; [congruence |]. split; [congruence |].
    split; [constructor; assumption |].
    exists (late1 ++ late). rewrite Hacc, Hacc1, Hp, Hp1, !app_assoc. auto.
Qed.

End Worker.

Lemma lines_after_return_never_written_witness :
  let l := {| cfg := {| Level := InfoLevel; IsProduction := false |};
              logChan := Some 0; writer := Stdout; bufferSize := 16;
              flushInterval := defaultFlushInterval;
              contextFields := nil_slice |} in
  let w1 := set_chans {[ 0 := {| ch_cap := 17; ch_buf := [] |} ]} empty_world in
  exists s s',
    exec l [ALog l "INFO" "a" [] "T"; ACancel; ASelect CaseDone; ADrain; ADrain]
      (boot w1) = Some s /\
    at_ s = Returned /\
    exec l [ALog l "INFO" "late" [] "T"] s = Some s' /\
    stdout (sys_world s') = ["T INFO a" +:+ nl] /\
    pending (logChan l) (sys_world s') = ["T INFO late" +:+ nl].
Proof.
  intros l w1.
  destruct (exec l [ALog l "INFO" "a" [] "T"; ACancel; ASelect CaseDone;
                    ADrain; ADrain] (boot w1)) as [s|] eqn:Hex;
    [| vm_compute in Hex; discriminate].
  assert (Hat : at_ s = Returned)
    by (vm_compute in Hex; injection Hex as <-; reflexivity).
  destruct (exec l [ALog l "INFO" "late" [] "T"] s) as [s'|] eqn:Hex';
    [| vm_compute in Hex; injection Hex as <-; vm_compute in Hex';
       discriminate].
  destruct (lines_after_return_never_written l _ s s' Hat Hex')
    as (_ & Hout & _ & _ & _).
  exists s, s'. split; [reflexivity |]. split; [exact Hat |].
  split; [exact Hex' |]. rewrite Hout.
  vm_compute in Hex. injection Hex as <-.
  vm_compute in Hex'. injection Hex' as <-.
  split; vm_compute; reflexivity.
Defined.

End AfterReturnSpec.

(** ** The correlation token and the request scope *)

Module TraceparentSpec.
Import Slice Logger Middleware StringFacts.
Local Open Scope Z_scope.

Lemma hex_length n : forall x, String.length (hex n x) = n.
Proof.
  induction n as [|n IH]; intros x; cbn [hex]; [reflexivity |].
  rewrite append_length, IH. cbn. lia.
Qed.

Lemma hexDigit_isHexDigit d : isHexDigit (hexDigit d) = true.
Proof.
  destruct d as [|p|p]; try reflexivity.
  do 4 (destruct p as [p|p|]; try reflexivity).
Qed.

Lemma allHex_app s t : allHex (s +:+ t) = allHex s && allHex t.
Proof.
  induction s as [|c s IH]; [rewrite append_nil_l; reflexivity |].
  rewrite append_cons. cbn [allHex]. rewrite IH, andb_assoc. reflexivity.
Qed.

Lemma hex_allHex n : forall x, allHex (hex n x) = true.
Proof.
  induction n as [|n IH]; intros x; cbn [hex]; [reflexivity |].
  rewrite allHex_app, IH. cbn [allHex]. rewrite hexDigit_isHexDigit. reflexivity.
Qed.

Lemma hexDigit_inj d e :
  0 <= d < 16 -> 0 <= e < 16 -> hexDigit d = hexDigit e -> d = e.
Proof.
  intros Hd He Heq.
  assert (Hcases : forall k, 0 <= k < 16 ->
            k = 0 \/ k = 1 \/ k = 2 \/ k = 3 \/ k = 4 \/ k = 5 \/ k = 6 \/
            k = 7 \/ k = 8 \/ k = 9 \/ k = 10 \/ k = 11 \/ k = 12 \/
            k = 13 \/ k = 14 \/ k = 15) by (intros k Hk; lia).
  destruct (Hcases d Hd) as [-> | [-> | [-> | [-> | [-> | [-> | [-> | [-> |
    [-> | [-> | [-> | [-> | [-> | [-> | [-> | ->]]]]]]]]]]]]]]];
  destruct (Hcases e He) as [-> | [-> | [-> | [-> | [-> | [-> | [-> | [-> |
    [-> | [-> | [-> | [-> | [-> | [-> | [-> | ->]]]]]]]]]]]]]]];
  first [reflexivity | discriminate Heq].
Qed.

Lemma append_inj_length s1 : forall s2 t1 t2,
  String.length s1 = String.length s2 ->
  s1 +:+ t1 = s2 +:+ t2 -> s1 = s2 /\ t1 = t2.
Proof.
  induction s1 as [|c s1 IH]; intros [|c2 s2] t1 t2 Hlen Heq;
    try discriminate Hlen.
  - rewrite !append_nil_l in Heq. auto.
  - rewrite !append_cons in Heq. injection Heq as -> Heq.
    cbn in Hlen. destruct (IH s2 t1 t2) as [-> ->]; [lia | exact Heq | auto].
Qed.

Lemma hex_inj n : forall x y,
  hex n x = hex n y -> x mod 16 ^ Z.of_nat n = y mod 16 ^ Z.of_nat n.
Proof.
  induction n as [|n IH]; intros x y Heq.
  - cbn. rewrite !Z.mod_1_r. reflexivity.
  - cbn [hex] in Heq.
    apply append_inj_length in Heq as [Hhi Hlo];
      [| rewrite !hex_length; reflexivity].
    injection Hlo as Hlo.
    apply hexDigit_inj in Hlo; [| apply Z.mod_pos_bound; lia ..].
    apply IH in Hhi.
    rewrite Nat2Z.inj_succ, Z.pow_succ_r by lia.
    rewrite !(Z.rem_mul_r _ 16) by lia.
    rewrite Hhi, Hlo. reflexivity.
Qed.

Lemma Sprintf_016x_inj x y :
  is_uint64 x -> is_uint64 y -> Sprintf_016x x = Sprintf_016x y -> x = y.
Proof.
  unfold is_uint64, Sprintf_016x. intros Hx Hy Heq.
  apply hex_inj in Heq.
  change (16 ^ Z.of_nat 16) with (2 ^ 64) in Heq.
  rewrite !Z.mod_small in Heq by assumption. exact Heq.
Qed.

(** X7. The correlation token has the shape of a W3C [traceparent]: version
    [00], 32 lower-case hexadecimal digits, 16 more, and the flags [01]
    or [00], joined by [-], 55 bytes in all, whatever was drawn; and two
    tokens share their trace id or their span id only when the draws
    were the same.  Nothing keeps an id from being all zeros. *)
Theorem traceparent_shape hi lo randomNum requests :
  let token :=
    (generateTraceparent (generateTraceID hi lo) (generateSpanID randomNum)
       requests).1 in
  String.length token = 55%nat /\
  token = "00-" +:+ generateTraceID hi lo +:+ "-" +:+ generateSpanID randomNum
          +:+ "-" +:+ (generateTraceFlags requests).1 /\
  String.length (generateTraceID hi lo) = 32%nat /\
  allHex (generateTraceID hi lo) = true /\
  String.length (generateSpanID randomNum) = 16%nat /\
  allHex (generateSpanID randomNum) = true /\
  ((generateTraceFlags requests).1 = "01"
   \/ (generateTraceFlags requests).1 = "00") /\
  (forall hi' lo',
      is_uint64 hi -> is_uint64 lo -> is_uint64 hi' -> is_uint64 lo' ->
      generateTraceID hi lo = generateTraceID hi' lo' ->
      hi = hi' /\ lo = lo') /\
  (forall randomNum',
      is_uint64 randomNum -> is_uint64 randomNum' ->
      generateSpanID randomNum = generateSpanID randomNum' ->
      randomNum = randomNum') /\
  generateTraceID 0 0 = "00000000000000000000000000000000".
Proof.
  intros token.
  assert (Ht : String.length (generateTraceID hi lo) = 32%nat).
  { unfold generateTraceID, Sprintf_016x. rewrite append_length, !hex_length.
    reflexivity. }
  assert (Hs : String.length (generateSpanID randomNum) = 16%nat)
    by apply hex_length.
  assert (Hf : (generateTraceFlags requests).1 = "01"
               \/ (generateTraceFlags requests).1 = "00").
  { unfold generateTraceFlags. cbn [fst]. case_decide; auto. }
  assert (Htok : token
                 = "00-" +:+ generateTraceID hi lo +:+ "-"
                   +:+ generateSpanID randomNum +:+ "-"
                   +:+ (generateTraceFlags requests).1).
  { subst token. unfold generateTraceparent.
    destruct (generateTraceFlags requests) as [flags n]. cbn [fst].
    string_norm. reflexivity. }
  split.
  { rewrite Htok, !append_length, Ht, Hs.
    destruct Hf as [-> | ->]; reflexivity. }
  split; [exact Htok |]. split; [exact Ht |].
  split.
  { unfold generateTraceID, Sprintf_016x. rewrite allHex_app, !hex_allHex.
    reflexivity. }
  split; [exact Hs |]. split; [apply hex_allHex |]. split; [exact Hf |].
  split.
  { intros hi' lo' Hhi Hlo Hhi' Hlo' Heq. unfold generateTraceID in Heq.
    apply append_inj_length in Heq as [H1 H2];
      [| unfold Sprintf_016x; rewrite !hex_length; reflexivity].
    split; apply Sprintf_016x_inj; assumption. }
  split; [| reflexivity].
  intros randomNum' H1 H2 Heq. apply Sprintf_016x_inj; assumption.
Qed.

End TraceparentSpec.

Module MiddlewareSpec.
Import Slice Logger Middleware SliceFacts LoggerFacts StringFacts.

(** X8. [FromContext] finds the logger attached last, through any values
    other packages attached after it; a nil logger attached last hides
    every logger attached before it, and the answer is the no-op
    logger, as on a context that never had one. *)
Theorem FromContext_finds_last_attached ctx l foreign :
  FromContext
    (foldr (fun kv c => WithValue c (foreignKey kv.1) kv.2)
       (NewContext ctx l) foreign)
  = match l with Some lg => lg | None => NewNoOpLogger end /\
  FromContext
    (foldr (fun kv c => WithValue c (foreignKey kv.1) kv.2)
       Background foreign)
  = NewNoOpLogger.
Proof.
  split.
  - induction foreign as [|[name v] foreign IH]; cbn [foldr].
    + destruct l; reflexivity.
    + exact IH.
  - induction foreign as [|[name v] foreign IH]; cbn [foldr];
      [reflexivity | exact IH].
Qed.

Section Serve.
Context `{GrowthPolicy}.

Lemma Info_frame q msg fields now w t :
  logger_ok w q -> logger_ok w t ->
  (ptr (contextFields t) <> ptr (contextFields q)
   \/ len (contextFields t) <= len (contextFields q)) ->
  context_of (Info q msg fields now w).1 t = context_of w t /\
  logger_ok (Info q msg fields now w).1 t /\
  (Info q msg fields now w).2 = Normal.
Proof.
  intros Hq Ht Hsep. unfold Info. case_decide; cbn [fst snd]; [| auto].
  destruct (log_frame q "INFO" msg fields now w t Hq Ht Hsep). auto.
Qed.

(** X9. With an [asyncLogger] as base, the middleware derives one logger per
    request whose fields are the base's followed by [traceparent] and the
    token, on the channel and with the threshold of the base; the
    handler finds this logger through [FromContext], and every line
    through it, the two of the middleware and those of the handler,
    carries these fields first; the base logger keeps its own fields;
    the counter has advanced by one when the handler starts.  A handler
    that panics is not followed by the [request completed] call. *)
Theorem RequestLogger_scopes_the_logger l next hi lo randomNum
  started completed elapsed r st :
  logger_ok (st_world st) l ->
  exists q w1 token,
    token = (generateTraceparent (generateTraceID hi lo)
               (generateSpanID randomNum) (requests st)).1 /\
    With l [VString "traceparent"; VString token] (st_world st) = (q, w1) /\
    cfg q = cfg l /\ logChan q = logChan l /\
    let r' := WithContext r (NewContext (Ctx r) (Some (Async q))) in
    let st1 :=
      {| st_world :=
           (Info q "request started"
              [VString "method"; VString (Method r);
               VString "path"; VString (Path r)] started w1).1;
         requests := GoInt.add (requests st) 1 |} in
    FromContext (Ctx r') = Async q /\
    (log_line q "INFO" "request started"
       [VString "method"; VString (Method r);
        VString "path"; VString (Path r)] started w1).1
    = build_line started "INFO" "request started"
        (context_of (st_world st) l
           ++ [VString "traceparent"; VString token;
               VString "method"; VString (Method r);
               VString "path"; VString (Path r)]) /\
    (forall level msg fields now,
        (log_line q level msg fields now (st_world st1)).1
        = build_line now level msg
            (context_of (st_world st) l
               ++ [VString "traceparent"; VString token] ++ fields)) /\
    context_of (st_world st1) l = context_of (st_world st) l /\
    (forall st' o,
        next r' st1 = (st', o) -> o <> Normal ->
        RequestLogger (Async l) next hi lo randomNum started completed
          elapsed r st = (st', o)) /\
    (forall st',
        next r' st1 = (st', Normal) ->
        RequestLogger (Async l) next hi lo randomNum started completed
          elapsed r st
        = ({| st_world :=
                (Info q "request completed"
                   [VString "duration"; VOther elapsed] completed
                   (st_world st')).1;
              requests := requests st' |}, Normal)).
Proof.
  intros Hl.
  set (token := (generateTraceparent (generateTraceID hi lo)
                   (generateSpanID randomNum) (requests st)).1).
  set (fs := [VString "traceparent"; VString token]).
  destruct (With_spec l fs (st_world st) Hl)
    as (Hc & Hch & _ & _ & _ & _ & _ & _ & Hx & Hp & Hlen & Hok & Hctx).
  destruct (With l fs (st_world st)) as [q w1] eqn:HW. cbn [fst snd] in *.
  exists q, w1, token. split; [reflexivity |]. split; [exact HW |].
  split; [exact Hc |]. split; [exact Hch |].
  cbv zeta.
  set (started_fields := [VString "method"; VString (Method r);
                          VString "path"; VString (Path r)]) in *.
  set (r' := WithContext r (NewContext (Ctx r) (Some (Async q)))).
  set (st1 := {| st_world := (Info q "request started" started_fields
                                started w1).1;
                 requests := GoInt.add (requests st) 1 |}).
  assert (Hl1 : logger_ok w1 l) by (eapply extends_ok; eauto).
  assert (Hcl1 : context_of w1 l = context_of (st_world st) l)
    by (apply extends_elems; assumption).
  destruct (Info_frame q "request started" started_fields started w1 q Hok Hok)
    as (Hcq & Hokq & Hnorm); [right; lia |].
  destruct (Info_frame q "request started" started_fields started w1 l Hok Hl1)
    as (Hcl & _ & _); [right; lia |].
  assert (Hreq : (generateTraceparent (generateTraceID hi lo)
                    (generateSpanID randomNum) (requests st))
                 = (token, GoInt.add (requests st) 1)).
  { subst token. unfold generateTraceparent, generateTraceFlags. reflexivity. }
  split; [reflexivity |].
  split.
  { rewrite log_line_text by exact Hok. rewrite Hctx, <- app_assoc. reflexivity. }
  split.
  { intros level msg fields now. subst st1. cbn [st_world].
    rewrite log_line_text by exact Hokq.
    rewrite Hcq, Hctx, <- app_assoc. reflexivity. }
  split.
  { subst st1. cbn [st_world]. rewrite Hcl. exact Hcl1. }
  assert (Hunfold :
    RequestLogger (Async l) next hi lo randomNum started completed elapsed r st
    = let '(st', o) := next r' st1 in
      match o with
      | Normal =>
          let '(w', o) :=
            Info q "request completed" [VString "duration"; VOther elapsed]
              completed (st_world st') in
          ({| st_world := w'; requests := requests st' |}, o)
      | _ => (st', o)
      end).
  { unfold RequestLogger. rewrite Hreq. cbn [call_With]. fold fs. rewrite HW.
    cbn [call_Info]. fold started_fields.
    destruct (Info q "request started" started_fields started w1)
      as [w2 o2] eqn:HI. cbn [fst snd] in *. subst o2. reflexivity. }
  split.
  { intros st' o Hnext Ho. rewrite Hunfold, Hnext.
    destruct o; [done | reflexivity | reflexivity]. }
  intros st' Hnext. rewrite Hunfold, Hnext.
  unfold Info. case_decide; reflexivity.
Qed.

(** X10. With the no-op logger as base the middleware is the handler itself,
    run on a context whose logger is the no-op logger: nothing is
    logged, but the counter still advances by one first. *)
Theorem RequestLogger_NoOp_is_next next hi lo randomNum
  started completed elapsed r st :
  RequestLogger NoOp next hi lo randomNum started completed elapsed r st
  = next (WithContext r (NewContext (Ctx r) (Some NoOp)))
      {| st_world := st_world st; requests := GoInt.add (requests st) 1 |}.
Proof.
  unfold RequestLogger, generateTraceparent, generateTraceFlags.
  cbn [call_With call_Info].
  destruct (next _ _) as [st' o]. destruct o; try reflexivity.
  destruct st'; reflexivity.
Qed.

End Serve.

Lemma RequestLogger_scopes_the_logger_witness :
  let base := defaults {| Level := InfoLevel; IsProduction := false |} in
  let next : http_Handler :=
    fun r st =>
      ({| st_world :=
            (call_Info (FromContext (Ctx r)) "listing" [VString "n"; VInt 3]
               "T2" (st_world st)).1;
          requests := requests st |}, Normal) in
  let w0 :=
    set_chans {[ 0%nat := {| ch_cap := 8; ch_buf := [] |} ]} empty_world in
  let l := set_logChan (Some 0%nat) base in
  logger_ok w0 l /\
  pending (Some 0%nat)
    (st_world
       (RequestLogger (Async l) next 1 2 3 "T1" "T3" "5ms"
          {| Method := "GET"; Path := "/tasks"; Ctx := Background |}
          {| st_world := w0; requests := 0 |}).1)
  = ["T1 INFO request started traceparent=00-00000000000000010000000000000002-0000000000000003-01 method=GET path=/tasks" +:+ nl;
     "T2 INFO listing traceparent=00-00000000000000010000000000000002-0000000000000003-01 n=3" +:+ nl;
     "T3 INFO request completed traceparent=00-00000000000000010000000000000002-0000000000000003-01 duration=5ms" +:+ nl].
Proof.
  intros base next w0 l.
  assert (Hok : logger_ok w0 l) by (split; [reflexivity | left; reflexivity]).
  split; [exact Hok |].
  destruct (RequestLogger_scopes_the_logger l next 1 2 3 "T1" "T3" "5ms"
              {| Method := "GET"; Path := "/tasks"; Ctx := Background |}
              {| st_world := w0; requests := 0 |} Hok)
    as (q & w1 & token & -> & HW & _ & _ & Hrest).
  cbv zeta in Hrest. destruct Hrest as (_ & _ & _ & _ & _ & Hnormal).
  rewrite (Hnormal _ eq_refl). cbn [fst st_world].
  vm_compute in HW. injection HW as <- <-. vm_compute. reflexivity.
Defined.

End MiddlewareSpec.

(** ** Decimal text read back *)

Module AtoiSpec.
Import Logger Handler.
Local Open Scope Z_scope.

Lemma digits_acc d : forall acc,
  digits (NilEmpty.string_of_uint d) (Z.pos acc)
  = Some (Z.pos (Pos.of_uint_acc d acc)).
Proof.
  induction d; intros acc; cbn [NilEmpty.string_of_uint digits Pos.of_uint_acc];
    [reflexivity | ..];
    match goal with
    | |- context [isDigit ?c] => change (isDigit c) with true
    end; cbv iota;
    match goal with
    | |- context [Z.of_nat ?k] =>
        let v := eval vm_compute in (Z.of_nat k) in
        change (Z.of_nat k) with v
    end;
    rewrite <- IHd; f_equal; lia.
Qed.

Lemma digits_zero d :
  digits (NilEmpty.string_of_uint d) 0 = Some (Z.of_N (Pos.of_uint d)).
Proof.
  induction d; cbn [NilEmpty.string_of_uint digits Pos.of_uint];
    [reflexivity | ..];
    match goal with
    | |- context [isDigit ?c] => change (isDigit c) with true
    end; cbv iota;
    first [ exact IHd | apply (digits_acc d) ].
Qed.

Lemma digits_to_uint p :
  digits (NilEmpty.string_of_uint (Pos.to_uint p)) 0 = Some (Z.pos p).
Proof.
  rewrite digits_zero, DecimalPos.Unsigned.of_to. reflexivity.
Qed.

Lemma to_uint_not_nil p : Pos.to_uint p <> Decimal.Nil.
Proof.
  intros Hnil. pose proof (DecimalPos.Unsigned.of_to p) as Hof.
  rewrite Hnil in Hof. discriminate.
Qed.

(** The text of a non-empty digit string starts with a digit. *)
Lemma string_of_uint_head d :
  d <> Decimal.Nil ->
  exists c rest, NilEmpty.string_of_uint d = String c rest /\ isDigit c = true.
Proof.
  destruct d; [done | ..]; intros _; cbn [NilEmpty.string_of_uint];
    eexists _, _; split; reflexivity.
Qed.

Lemma Atoi_digits_string body n :
  (exists c rest, body = String c rest /\ isDigit c = true) ->
  digits body 0 = Some n ->
  Atoi body
  = (if decide (GoInt.min_int <= n <= GoInt.max_int) then Ok n
     else Err (ErrRange body)) /\
  Atoi (String "-"%char body)
  = (if decide (GoInt.min_int <= - n <= GoInt.max_int) then Ok (- n)
     else Err (ErrRange (String "-"%char body))).
Proof.
  intros (c & rest & -> & Hc) Hd. split.
  - unfold Atoi.
    assert (Hsign : c <> "-"%char /\ c <> "+"%char)
      by (split; intros ->; discriminate).
    destruct Hsign as [Hm Hp].
    destruct c as [[] [] [] [] [] [] [] []]; try discriminate;
      try (exfalso; apply Hm; reflexivity); try (exfalso; apply Hp; reflexivity);
      rewrite Hd; reflexivity.
  - unfold Atoi. rewrite Hd. reflexivity.
Qed.

(** [strconv.Atoi] reads back what [strconv.Itoa] and
    [strconv.FormatInt(_, 10)] print. *)
Lemma Atoi_FormatInt n :
  GoInt.min_int <= n <= GoInt.max_int -> Atoi (FormatInt n) = Ok n.
Proof.
  intros Hn. unfold FormatInt. destruct n as [|p|p]; [reflexivity | |].
  - cbn [Z.to_int NilZero.string_of_int].
    unfold NilZero.string_of_uint.
    destruct (Pos.to_uint p) eqn:Hu;
      [exfalso; exact (to_uint_not_nil p Hu) | ..]; rewrite <- Hu;
      (destruct (Atoi_digits_string _ _
                   (string_of_uint_head _ (to_uint_not_nil p))
                   (digits_to_uint p)) as [-> _];
       rewrite decide_True by exact Hn; reflexivity).
  - cbn [Z.to_int NilZero.string_of_int].
    unfold NilZero.string_of_uint.
    destruct (Pos.to_uint p) eqn:Hu;
      [exfalso; exact (to_uint_not_nil p Hu) | ..]; rewrite <- Hu;
      (destruct (Atoi_digits_string _ _
                   (string_of_uint_head _ (to_uint_not_nil p))
                   (digits_to_uint p)) as [_ ->];
       change (- Z.pos p) with (Z.neg p);
       rewrite decide_True by exact Hn; reflexivity).
Qed.

End AtoiSpec.

(** ** Tasks stored and found *)

Module TaskAPISpec.
Import Logger Repository Handler TaskAPI AtoiSpec GetAllSpec.
Local Open Scope Z_scope.

Lemma Atoi_never_panics s reason : Atoi s <> Panicked reason.
Proof.
  unfold Atoi.
  destruct (match s with
            | String "-"%char s' => (true, s')
            | String "+"%char s' => (false, s')
            | _ => (false, s)
            end) as [neg body].
  destruct body; [discriminate |].
  destruct (digits _ 0); [| discriminate].
  case_decide; discriminate.
Qed.

Lemma GetAll_never_errs r statusFilter limit offset e :
  GetAll r statusFilter limit offset <> Err e.
Proof.
  unfold GetAll. case_decide; [discriminate |].
  destruct (slice_expr _ _ _); discriminate.
Qed.

Lemma Create_stores r t0 :
  ID (Create r t0).2 = GoInt.add (counter r) 1 /\
  Title (Create r t0).2 = Title t0 /\
  Status (Create r t0).2 = Status t0 /\
  tasksByID (Create r t0).1 !! ID (Create r t0).2 = Some (Create r t0).2.
Proof.
  cbn [Create fst snd ID Title Status tasksByID].
  rewrite lookup_insert_eq. auto.
Qed.


Lemma creates_snoc titles title repo :
  creates (titles ++ [title]) repo = (CreateTask (creates titles repo) title).1.
Proof. unfold creates. rewrite foldl_app. reflexivity. Qed.

Lemma ids_upto_S n : ids_upto (S n) = ids_upto n ++ [Z.of_nat (S n)].
Proof.
  unfold ids_upto. rewrite seq_S, fmap_app. reflexivity.
Qed.

Lemma ids_upto_length n : length (ids_upto n) = n.
Proof. unfold ids_upto. rewrite length_fmap, length_seq. reflexivity. Qed.

Lemma creates_state titles :
  Z.of_nat (length titles) <= GoInt.max_int ->
  counter (creates titles NewTaskRepository) = Z.of_nat (length titles) /\
  allTasksIDs (creates titles NewTaskRepository) = ids_upto (length titles) /\
  (forall k title,
      titles !! k = Some title ->
      tasksByID (creates titles NewTaskRepository) !! Z.of_nat (S k)
      = Some (nth_task k title)) /\
  (forall id,
      id <= 0 \/ Z.of_nat (length titles) < id ->
      tasksByID (creates titles NewTaskRepository) !! id = None) /\
  (forall status,
      tasksByStatus (creates titles NewTaskRepository) !! status
      = if decide (status = "new" /\ titles <> [])
        then Some (ids_upto (length titles)) else None).
Proof.
  induction titles as [|title titles IH] using rev_ind; intros Hlen.
  - cbn. repeat split; try done.
    intros status. rewrite decide_False by (intros [_ ?]; done). reflexivity.
  - rewrite length_app in *. cbn [length] in *.
    replace (length titles + 1)%nat with (S (length titles)) in * by lia.
    destruct IH as (Hc & Hids & Hin & Hout & Hst); [lia |].
    rewrite creates_snoc.
    set (r := creates titles NewTaskRepository) in *.
    assert (Hadd : GoInt.add (counter r) 1 = Z.of_nat (S (length titles))).
    { rewrite Hc, GoIntFacts.add_small; [lia |].
      unfold GoInt.in_int. rewrite GoIntFacts.min_int_val.
      rewrite GoIntFacts.max_int_val in *. lia. }
    unfold CreateTask. cbn [Create fst counter allTasksIDs tasksByID tasksByStatus
                            ID Title Status].
    rewrite Hadd.
    split; [reflexivity |]. split; [rewrite Hids, ids_upto_S; reflexivity |].
    split.
    { intros k t Hk.
      destruct (decide (k = length titles)) as [-> | Hne].
      - rewrite lookup_insert_eq. rewrite list_lookup_middle in Hk by reflexivity.
        injection Hk as <-. reflexivity.
      - assert (Hlt : (k < length titles)%nat).
        { apply lookup_lt_Some in Hk. rewrite length_app in Hk. cbn in Hk. lia. }
        rewrite lookup_app_l in Hk by exact Hlt.
        rewrite lookup_insert_ne by lia. apply Hin, Hk. }
    split.
    { intros id Hid. rewrite lookup_insert_ne by lia. apply Hout. lia. }
    intros status. destruct (decide (status = "new")) as [-> | Hne].
    + rewrite lookup_insert_eq, Hst.
      rewrite (decide_True (P := _ /\ titles ++ [title] <> []))
        by (split; [reflexivity | intros Happ; apply app_eq_nil in Happ as [_ ?]; done]).
      f_equal. rewrite ids_upto_S. f_equal.
      case_decide as Hd; cbn [default from_option id].
      * reflexivity.
      * assert (titles = []) as ->.
        { destruct titles; [reflexivity |]. exfalso. apply Hd. split; done. }
        reflexivity.
    + rewrite lookup_insert_ne by congruence. rewrite Hst.
      rewrite !decide_False by (intros [? _]; done). reflexivity.
Qed.

(** X12. What a repository holds after [CreateTask] was called once per title
    on a new repository (fewer than [2^63] times): the counter is the
    number of tasks, the ids are [1..n] in order and without repetition,
    each id maps to the task of its title with status [new] and this id,
    no other id is known, and the only status list is the one of [new]:
    the three indexes agree, and no listed id is without its task. *)
Theorem creates_contents titles :
  Z.of_nat (length titles) <= GoInt.max_int ->
  counter (creates titles NewTaskRepository) = Z.of_nat (length titles) /\
  allTasksIDs (creates titles NewTaskRepository) = ids_upto (length titles) /\
  NoDup (allTasksIDs (creates titles NewTaskRepository)) /\
  Forall (fun id =>
            exists t, tasksByID (creates titles NewTaskRepository) !! id = Some t
                      /\ ID t = id /\ Status t = "new")
    (allTasksIDs (creates titles NewTaskRepository)) /\
  (forall k title,
      titles !! k = Some title ->
      tasksByID (creates titles NewTaskRepository) !! Z.of_nat (S k)
      = Some (nth_task k title)) /\
  (forall id,
      id <= 0 \/ Z.of_nat (length titles) < id ->
      tasksByID (creates titles NewTaskRepository) !! id = None) /\
  (forall status,
      tasksByStatus (creates titles NewTaskRepository) !! status
      = if decide (status = "new" /\ titles <> [])
        then Some (ids_upto (length titles)) else None).
Proof.
  intros Hlen.
  destruct (creates_state titles Hlen) as (Hc & Hids & Hin & Hout & Hst).
  split; [exact Hc |]. split; [exact Hids |].
  split.
  { rewrite Hids. unfold ids_upto. apply NoDup_fmap_2; [| apply NoDup_seq].
    intros a b Hab. lia. }
  split.
  { rewrite Hids. unfold ids_upto. apply Forall_fmap, Forall_forall.
    intros k Hk. apply elem_of_seq in Hk.
    destruct (lookup_lt_is_Some_2 titles k) as [title Ht]; [lia |].
    exists (nth_task k title). split; [apply Hin, Ht |]. split; reflexivity. }
  auto.
Qed.

Lemma creates_contents_witness :
  counter (creates ["a"; "b"; "c"] NewTaskRepository) = 3 /\
  allTasksIDs (creates ["a"; "b"; "c"] NewTaskRepository) = [1; 2; 3] /\
  tasksByID (creates ["a"; "b"; "c"] NewTaskRepository) !! 2
  = Some {| ID := 2; Title := "b"; Status := "new" |} /\
  tasksByID (creates ["a"; "b"; "c"] NewTaskRepository) !! 4 = None /\
  tasksByStatus (creates ["a"; "b"; "c"] NewTaskRepository) !! "new"
  = Some [1; 2; 3] /\
  tasksByStatus (creates ["a"; "b"; "c"] NewTaskRepository) !! "done" = None.
Proof.
  destruct (creates_contents ["a"; "b"; "c"])
    as (Hc & Hids & _ & _ & Hin & Hout & Hst).
  { rewrite GoIntFacts.max_int_val. cbn. lia. }
  split; [exact Hc |]. split; [exact Hids |].
  split; [exact (Hin 1%nat "b" eq_refl) |].
  split; [apply Hout; right; cbn; lia |].
  split; [exact (Hst "new") | exact (Hst "done")].
Defined.

End TaskAPISpec.

(** ** Pages *)

Module PagingSpec.
Import Logger Repository Handler TaskAPI AtoiSpec GetAllSpec TaskAPISpec.
Local Open Scope Z_scope.

Lemma wrap_above x :
  GoInt.max_int < x <= 2 * GoInt.max_int + 1 ->
  GoInt.wrap 64 x = x - 2 ^ 64.
Proof.
  rewrite GoIntFacts.max_int_val. intros Hx. unfold GoInt.wrap.
  change (2 ^ (64 - 1)) with 9223372036854775808.
  change (2 ^ 64) with 18446744073709551616.
  replace (x + 9223372036854775808)
    with ((x - 9223372036854775808) + 1 * 18446744073709551616) by lia.
  rewrite Z_mod_plus_full, Z.mod_small; lia.
Qed.

Lemma page_all {A} (l : list A) (limit : Z) :
  Z.of_nat (length l) <= limit -> page l 0 limit = l.
Proof.
  intros Hl. unfold page. cbn [Z.to_nat drop]. apply take_ge. lia.
Qed.

Lemma page_length {A} (l : list A) (offset limit : Z) :
  0 <= offset -> 0 <= limit ->
  Z.of_nat (length (page l offset limit))
  = Z.min limit (Z.max 0 (Z.of_nat (length l) - offset)).
Proof.
  intros Ho Hl. unfold page. rewrite length_take, length_drop. lia.
Qed.

Lemma page_app {A} (l : list A) (offset a b : Z) :
  0 <= offset -> 0 <= a -> 0 <= b ->
  page l offset a ++ page l (offset + a) b = page l offset (a + b).
Proof.
  intros Ho Ha Hb. unfold page.
  rewrite !Z2Nat.inj_add by lia.
  rewrite <- drop_drop.
  generalize (drop (Z.to_nat offset) l). intros m.
  generalize (Z.to_nat a) (Z.to_nat b). clear. intros n k.
  revert m. induction n as [|n IH]; intros m; [reflexivity |].
  destruct m as [|x m]; cbn [take drop Nat.add app].
  - rewrite take_nil. reflexivity.
  - rewrite IH. reflexivity.
Qed.

Lemma GetAll_page r statusFilter limit offset :
  0 <= offset -> 0 <= limit -> offset + limit <= GoInt.max_int ->
  GetAll r statusFilter limit offset
  = Ok ((fun id => tasksByID r !! id)
          <$> page (selectIDs r statusFilter) offset limit).
Proof.
  intros Ho Hl Hsum. unfold GetAll, page.
  set (ids := selectIDs r statusFilter).
  case_decide as Hpast.
  - rewrite drop_ge by lia. rewrite take_nil. reflexivity.
  - rewrite GoIntFacts.add_small
      by (unfold GoInt.in_int; rewrite GoIntFacts.min_int_val; lia).
    case_decide as Hend; unfold slice_expr.
    + rewrite decide_True by lia. f_equal. f_equal.
      rewrite (take_ge _ (Z.to_nat limit)) by (rewrite length_drop; lia).
      apply take_ge. rewrite length_drop. lia.
    + rewrite decide_True by lia. f_equal. f_equal. f_equal. lia.
Qed.

(** X13. For an offset and a limit that are not negative and whose sum fits
    an [int], [GetAll] answers with the page of the selected ids, at most
    [limit] ids from [offset] on, each mapped through [tasksByID], and
    never with an error or a panic; the page holds [limit] tasks or what
    is left after [offset], whichever is less, so none for a limit of
    zero or an offset at or past the end. *)
Theorem GetAll_is_the_page r statusFilter limit offset :
  0 <= offset -> 0 <= limit -> offset + limit <= GoInt.max_int ->
  exists tasks,
    GetAll r statusFilter limit offset = Ok tasks /\
    tasks = (fun id => tasksByID r !! id)
              <$> page (selectIDs r statusFilter) offset limit /\
    Z.of_nat (length tasks)
    = Z.min limit
        (Z.max 0 (Z.of_nat (length (selectIDs r statusFilter)) - offset)).
Proof.
  intros Ho Hl Hsum. eexists. split; [apply GetAll_page; assumption |].
  split; [reflexivity |]. rewrite length_fmap. apply page_length; assumption.
Qed.

Lemma GetAll_is_the_page_witness :
  GetAll (creates ["a"; "b"; "c"] NewTaskRepository) EmptyString 2 1
  = Ok [Some (nth_task 1 "b"); Some (nth_task 2 "c")].
Proof.
  destruct (GetAll_is_the_page (creates ["a"; "b"; "c"] NewTaskRepository)
              EmptyString 2 1) as (tasks & Hget & Htasks & _);
    [lia | lia | rewrite GoIntFacts.max_int_val; lia |].
  rewrite Hget, Htasks. vm_compute. reflexivity.
Defined.

(** X14. Pages follow each other: the page of [a] ids from [offset] followed
    by the page of [b] ids from [offset + a] is the page of [a + b] ids
    from [offset]; and a limit at or above the number of ids gives them
    all from offset 0. *)
Theorem GetAll_pages_compose r statusFilter offset a b p1 p2 :
  0 <= offset -> 0 <= a -> 0 <= b -> offset + a + b <= GoInt.max_int ->
  GetAll r statusFilter a offset = Ok p1 ->
  GetAll r statusFilter b (offset + a) = Ok p2 ->
  GetAll r statusFilter (a + b) offset = Ok (p1 ++ p2).
Proof.
  intros Ho Ha Hb Hsum H1 H2.
  rewrite GetAll_page in H1 by lia.
  rewrite GetAll_page in H2 by lia.
  rewrite GetAll_page by lia.
  injection H1 as <-. injection H2 as <-.
  rewrite <- fmap_app, page_app by lia. reflexivity.
Qed.

Lemma GetAll_pages_compose_witness :
  GetAll (creates ["a"; "b"; "c"] NewTaskRepository) EmptyString (1 + 1) 1
  = Ok ([Some (nth_task 1 "b")] ++ [Some (nth_task 2 "c")]).
Proof.
  apply (GetAll_pages_compose _ EmptyString 1 1 1);
    [lia | lia | lia | rewrite GoIntFacts.max_int_val; lia | |];
    vm_compute; reflexivity.
Defined.

(** X15. A limit so large that [offset + limit] overflows the [int] makes
    [end] negative, the cap on [end] does not apply, and the slice
    expression panics: with a positive offset below the length, and with
    it the request [limit=9223372036854775807&offset=1] on a repository
    of two tasks or more. *)
Theorem GetAll_limit_overflow r statusFilter limit offset :
  0 < offset < Z.of_nat (length (selectIDs r statusFilter)) ->
  offset <= GoInt.max_int -> limit <= GoInt.max_int ->
  GoInt.max_int < offset + limit ->
  GetAll r statusFilter limit offset = Panicked "slice bounds out of range".
Proof.
  intros Ho Hom Hlm Hsum. unfold GetAll. case_decide; [lia |].
  unfold GoInt.add. rewrite wrap_above by lia.
  assert (Hneg : offset + limit - 2 ^ 64 < 0).
  { rewrite GoIntFacts.max_int_val in *.
    change (2 ^ 64) with 18446744073709551616. lia. }
  case_decide; [lia |].
  rewrite slice_expr_high_below_low by lia. reflexivity.
Qed.

Lemma GetAll_limit_overflow_witness :
  getTasks (creates ["a"; "b"] NewTaskRepository)
    {[ "limit" := ["9223372036854775807"]; "offset" := ["1"] ]}
  = Panics "slice bounds out of range" /\
  GetAll (creates ["a"; "b"] NewTaskRepository) EmptyString
    9223372036854775807 1
  = Panicked "slice bounds out of range".
Proof.
  split; [vm_compute; reflexivity |].
  apply GetAll_limit_overflow;
    [vm_compute; split; reflexivity | vm_compute; discriminate
    | vm_compute; discriminate | vm_compute; reflexivity].
Defined.

End PagingSpec.

(** ** The handlers *)

Module HandlerSpec.
Import Logger Repository Handler TaskAPI StringFacts AtoiSpec GetAllSpec TaskAPISpec PagingSpec.
Local Open Scope Z_scope.

Lemma substring_all s : String.substring 0 (String.length s) s = s.
Proof.
  induction s as [|c s IH]; [reflexivity |].
  cbn [String.length String.substring]. rewrite IH. reflexivity.
Qed.

Lemma prefix_append p s : String.prefix p (p +:+ s) = true.
Proof.
  induction p as [|c p IH]; [destruct s; reflexivity |].
  rewrite append_cons. cbn [String.prefix].
  destruct (ascii_dec c c); [exact IH | done].
Qed.

Lemma substring_append p s n :
  String.substring (String.length p) n (p +:+ s) = String.substring 0 n s.
Proof.
  induction p as [|c p IH]; [reflexivity |].
  rewrite append_cons. cbn [String.length String.substring]. exact IH.
Qed.

Lemma TrimPrefix_append p s : TrimPrefix (p +:+ s) p = s.
Proof.
  unfold TrimPrefix. rewrite prefix_append, substring_append, append_length.
  replace (String.length p + String.length s - String.length p)%nat
    with (String.length s) by lia.
  apply substring_all.
Qed.

Lemma FormatInt_not_empty n :
  GoInt.min_int <= n <= GoInt.max_int -> FormatInt n <> EmptyString.
Proof.
  intros Hn Hempty. pose proof (Atoi_FormatInt n Hn) as Ha.
  rewrite Hempty in Ha. discriminate.
Qed.

Lemma getTasks_never_500 repo query message :
  getTasks repo query <> WriteError StatusInternalServerError message.
Proof.
  unfold getTasks, StatusBadRequest, StatusInternalServerError, StatusOK.
  destruct (parseIntQueryParam query "limit" defaultLimit) as [limit | |];
    cbv beta iota; [| (intros Heq; discriminate Heq) ..].
  destruct (parseIntQueryParam query "offset" defaultOffset) as [offset | |];
    cbv beta iota; [| (intros Heq; discriminate Heq) ..].
  unfold Service.GetAllTasks.
  destruct (GetAll repo (Get query "status") limit offset) eqn:Hg;
    cbv beta iota; [intros Heq; discriminate Heq | | intros Heq; discriminate Heq].
  exfalso. exact (GetAll_never_errs _ _ _ _ _ Hg).
Qed.

Lemma parse_bad query key defaultValue e :
  Get query key <> EmptyString -> Atoi (Get query key) = Err e ->
  parseIntQueryParam query key defaultValue = Err e.
Proof.
  intros Hv Ha. unfold parseIntQueryParam. rewrite decide_False by exact Hv.
  rewrite Ha. reflexivity.
Qed.

Lemma parse_good query key defaultValue n :
  Get query key <> EmptyString -> Atoi (Get query key) = Ok n ->
  parseIntQueryParam query key defaultValue = Ok n.
Proof.
  intros Hv Ha. unfold parseIntQueryParam. rewrite decide_False by exact Hv.
  rewrite Ha. reflexivity.
Qed.

Section ByID.
Variable strconvText : error -> string.

Lemma getTaskByID_cases repo id :
  (forall e, ParseInt id = Err e ->
             getTaskByID strconvText repo id
             = Failure StatusInternalServerError "error getting task") /\
  (forall k, ParseInt id = Ok k -> tasksByID repo !! k = None ->
             getTaskByID strconvText repo id
             = Failure StatusNotFound
                 "service: error getting task: task not found") /\
  (forall k t, ParseInt id = Ok k -> tasksByID repo !! k = Some t ->
               getTaskByID strconvText repo id = One StatusOK t).
Proof.
  unfold getTaskByID, GetTaskByID, GetByID.
  repeat split.
  - intros e ->. reflexivity.
  - intros k -> ->. reflexivity.
  - intros k t -> ->. reflexivity.
Qed.

Lemma handleTaskByID_GET repo id :
  id <> EmptyString ->
  handleTaskByID strconvText repo "GET" ("/tasks/" +:+ id)
  = getTaskByID strconvText repo id.
Proof.
  intros Hid. unfold handleTaskByID.
  rewrite decide_False by (intros Hm; apply Hm; reflexivity).
  cbv zeta. rewrite TrimPrefix_append, decide_False by exact Hid. reflexivity.
Qed.

End ByID.
End HandlerSpec.

Module APISpec.
Import Logger Repository Handler TaskAPI StringFacts AtoiSpec GetAllSpec TaskAPISpec PagingSpec HandlerSpec.
Local Open Scope Z_scope.

(** X16. [getTasks] answers 400 for a limit that does not parse, then 400 for
    an offset that does not parse, and otherwise, for values that are not
    negative and whose sum fits an [int], 200 with the page of the
    selected tasks, the first ten when no parameter is given.  It never
    answers 500: [GetAll] returns no error, so that branch is dead. *)
Theorem getTasks_answers repo query :
  (forall message,
      getTasks repo query <> WriteError StatusInternalServerError message) /\
  (forall e,
      Get query "limit" <> EmptyString -> Atoi (Get query "limit") = Err e ->
      getTasks repo query = WriteError StatusBadRequest "Invalid limit") /\
  (forall limit e,
      parseIntQueryParam query "limit" defaultLimit = Ok limit ->
      Get query "offset" <> EmptyString -> Atoi (Get query "offset") = Err e ->
      getTasks repo query = WriteError StatusBadRequest "Invalid offset") /\
  (forall limit offset,
      parseIntQueryParam query "limit" defaultLimit = Ok limit ->
      parseIntQueryParam query "offset" defaultOffset = Ok offset ->
      0 <= offset -> 0 <= limit -> offset + limit <= GoInt.max_int ->
      getTasks repo query
      = WriteJSON StatusOK
          ((fun id => tasksByID repo !! id)
             <$> page (selectIDs repo (Get query "status")) offset limit)) /\
  (Get query "limit" = EmptyString -> Get query "offset" = EmptyString ->
   getTasks repo query
   = WriteJSON StatusOK
       ((fun id => tasksByID repo !! id)
          <$> page (selectIDs repo (Get query "status")) 0 10)).
Proof.
  split; [apply getTasks_never_500 |].
  split.
  { intros e Hv Ha. unfold getTasks.
    rewrite (parse_bad _ _ _ _ Hv Ha). reflexivity. }
  split.
  { intros limit e Hl Hv Ha. unfold getTasks.
    rewrite Hl, (parse_bad _ _ _ _ Hv Ha). reflexivity. }
  assert (Hpage : forall limit offset,
      parseIntQueryParam query "limit" defaultLimit = Ok limit ->
      parseIntQueryParam query "offset" defaultOffset = Ok offset ->
      0 <= offset -> 0 <= limit -> offset + limit <= GoInt.max_int ->
      getTasks repo query
      = WriteJSON StatusOK
          ((fun id => tasksByID repo !! id)
             <$> page (selectIDs repo (Get query "status")) offset limit)).
  { intros limit offset Hl Ho H0 H1 Hs. unfold getTasks, Service.GetAllTasks.
    rewrite Hl, Ho, GetAll_page by assumption. reflexivity. }
  split; [exact Hpage |].
  intros Hl Ho. apply Hpage.
  - apply parseIntQueryParam_absent, Hl.
  - apply parseIntQueryParam_absent, Ho.
  - lia.
  - lia.
  - rewrite GoIntFacts.max_int_val. lia.
Qed.

Section ByID.
Variable strconvText : error -> string.

(** X17. The answers of [handleTaskByID]: 405 for any method but GET; 400
    when nothing follows [/tasks/]; 500, not 400, when the id is no
    decimal [int64]; 404 with the wrapped not-found text when no task has
    the id; 200 with the task otherwise. *)
Theorem handleTaskByID_answers repo method id :
  (method <> "GET" ->
   handleTaskByID strconvText repo method ("/tasks/" +:+ id)
   = Failure StatusMethodNotAllowed "Method not allowed") /\
  (handleTaskByID strconvText repo "GET" "/tasks/"
   = Failure StatusBadRequest "Invalid task ID") /\
  (forall e,
      id <> EmptyString -> ParseInt id = Err e ->
      handleTaskByID strconvText repo "GET" ("/tasks/" +:+ id)
      = Failure StatusInternalServerError "error getting task") /\
  (forall k,
      ParseInt id = Ok k -> tasksByID repo !! k = None ->
      handleTaskByID strconvText repo "GET" ("/tasks/" +:+ id)
      = Failure StatusNotFound "service: error getting task: task not found") /\
  (forall k t,
      ParseInt id = Ok k -> tasksByID repo !! k = Some t ->
      handleTaskByID strconvText repo "GET" ("/tasks/" +:+ id)
      = One StatusOK t).
Proof.
  destruct (getTaskByID_cases strconvText repo id) as (Hbad & Hmiss & Hfound).
  assert (Hne : forall k, ParseInt id = Ok k -> id <> EmptyString).
  { intros k Hk ->. discriminate Hk. }
  pose proof (handleTaskByID_GET strconvText repo id) as Hget.
  split.
  { intros Hm. unfold handleTaskByID. rewrite decide_True by exact Hm. reflexivity. }
  split; [reflexivity |].
  split.
  { intros e Hid He. rewrite Hget by exact Hid. eapply Hbad, He. }
  split.
  { intros k Hk Hnone. rewrite Hget by (eapply Hne, Hk). eapply Hmiss; eauto. }
  intros k t Hk Hsome. rewrite Hget by (eapply Hne, Hk). eapply Hfound; eauto.
Qed.

(** X18. A task created by a POST with a title can be fetched at once: the
    answer is 201 with a task of that title, status [new] and the next
    id, and a GET of [/tasks/<id>], the id in decimal, answers 200 with
    the same task. *)
Theorem created_task_is_fetched repo query title :
  title <> EmptyString ->
  exists t,
    (handleTasks repo "POST" query (Some title)).2 = One StatusCreated t /\
    Title t = title /\ Status t = "new" /\
    ID t = GoInt.add (counter repo) 1 /\
    handleTaskByID strconvText (handleTasks repo "POST" query (Some title)).1
      "GET" ("/tasks/" +:+ FormatInt (ID t))
    = One StatusOK t.
Proof.
  intros Htitle. unfold handleTasks.
  rewrite decide_False by discriminate. rewrite decide_True by reflexivity.
  unfold createTask. rewrite decide_False by exact Htitle.
  unfold CreateTask.
  set (t0 := {| ID := 0; Title := title; Status := "new" |}).
  destruct (Create_stores repo t0) as (Hid & Ht & Hs & Hget).
  destruct (Create repo t0) as [repo' t] eqn:Hc. cbn [fst snd] in *.
  exists t. split; [reflexivity |]. split; [exact Ht |]. split; [exact Hs |].
  split; [exact Hid |].
  assert (Hin : GoInt.min_int <= ID t <= GoInt.max_int)
    by (rewrite Hid; apply GoIntFacts.wrap_in_int).
  rewrite handleTaskByID_GET by (apply FormatInt_not_empty, Hin).
  destruct (getTaskByID_cases strconvText repo' (FormatInt (ID t)))
    as (_ & _ & Hfound).
  apply (Hfound (ID t)); [apply Atoi_FormatInt, Hin | exact Hget].
Qed.

End ByID.

(** X19. Only a POST with a decoded, non-empty title changes the repository:
    a GET, any other method, a body that does not decode and an empty
    title leave it as it was, the last three with the answers 405, 400
    and 400. *)
Theorem handleTasks_changes_only_on_create repo method query body :
  (method = "GET" ->
   handleTasks repo method query body = (repo, Listed (getTasks repo query))) /\
  (method <> "GET" -> method <> "POST" ->
   handleTasks repo method query body
   = (repo, Failure StatusMethodNotAllowed "Method not allowed")) /\
  (handleTasks repo "POST" query None
   = (repo, Failure StatusBadRequest "Invalid request body")) /\
  (handleTasks repo "POST" query (Some EmptyString)
   = (repo, Failure StatusBadRequest "Title is required")) /\
  ((handleTasks repo method query body).1 <> repo ->
   method = "POST" /\ exists title, body = Some title /\ title <> EmptyString).
Proof.
  split.
  { intros ->. reflexivity. }
  split.
  { intros Hg Hp. unfold handleTasks. rewrite !decide_False by assumption.
    reflexivity. }
  split; [reflexivity |]. split; [reflexivity |].
  unfold handleTasks. case_decide as Hg; [intros Hne; done |].
  case_decide as Hp; [| intros Hne; done].
  unfold createTask. destruct body as [title|]; [| intros Hne; done].
  case_decide as Ht; [intros Hne; done |].
  intros _. split; [exact Hp |]. exists title. auto.
Qed.

(** X20. After [CreateTask] was called once per title on a new repository,
    the list without filter, or with the filter [new], from offset 0 with
    a limit of at least the number of tasks, holds every task, in the
    order of creation; any other filter gives the empty list. *)
Theorem listing_after_creates titles limit :
  Z.of_nat (length titles) <= limit <= GoInt.max_int ->
  GetAll (creates titles NewTaskRepository) EmptyString limit 0
  = Ok (Some <$> imap nth_task titles) /\
  GetAll (creates titles NewTaskRepository) "new" limit 0
  = Ok (Some <$> imap nth_task titles) /\
  (forall status,
      status <> EmptyString -> status <> "new" ->
      GetAll (creates titles NewTaskRepository) status limit 0 = Ok []).
Proof.
  intros Hlim.
  destruct (creates_state titles) as (Hc & Hids & Hin & Hout & Hst); [lia |].
  set (r := creates titles NewTaskRepository) in *.
  assert (Hmap : (fun id => tasksByID r !! id) <$> ids_upto (length titles)
                 = Some <$> imap nth_task titles).
  { apply list_eq. intros k. unfold ids_upto.
    rewrite !list_lookup_fmap, list_lookup_imap.
    destruct (titles !! k) as [title|] eqn:Hk.
    - rewrite lookup_seq_lt by (eapply lookup_lt_Some, Hk).
      cbn. f_equal. apply Hin, Hk.
    - rewrite lookup_seq_ge by (eapply lookup_ge_None, Hk). reflexivity. }
  assert (Hall : selectIDs r EmptyString = ids_upto (length titles)).
  { unfold selectIDs. rewrite decide_False by (intros Hne; apply Hne; reflexivity).
    exact Hids. }
  assert (Hnew : selectIDs r "new" = ids_upto (length titles)).
  { unfold selectIDs. rewrite decide_True by discriminate. rewrite Hst.
    case_decide as Hd; [reflexivity |].
    assert (titles = []) as ->.
    { destruct titles; [reflexivity |]. exfalso. apply Hd. split; done. }
    reflexivity. }
  split; [| split].
  - rewrite GetAll_page by lia. rewrite Hall, page_all, Hmap;
      [reflexivity | rewrite ids_upto_length; lia].
  - rewrite GetAll_page by lia. rewrite Hnew, page_all, Hmap;
      [reflexivity | rewrite ids_upto_length; lia].
  - intros status Hne Hnn. apply GetAll_guarded.
    unfold selectIDs. rewrite decide_True by exact Hne. rewrite Hst.
    rewrite decide_False by (intros [? _]; done). cbn. lia.
Qed.

Lemma created_task_is_fetched_witness :
  exists t,
    (handleTasks NewTaskRepository "POST" ∅ (Some "write tests")).2
    = One StatusCreated t /\
    t = {| ID := 1; Title := "write tests"; Status := "new" |} /\
    handleTaskByID (fun _ => EmptyString)
      (handleTasks NewTaskRepository "POST" ∅ (Some "write tests")).1
      "GET" "/tasks/1"
    = One StatusOK t.
Proof.
  destruct (created_task_is_fetched (fun _ => EmptyString) NewTaskRepository ∅
              "write tests") as (t & Hpost & Ht & Hs & Hid & Hget);
    [discriminate |].
  exists t. split; [exact Hpost |].
  assert (Heq : t = {| ID := 1; Title := "write tests"; Status := "new" |}).
  { destruct t as [i ti st]. cbn in Ht, Hs, Hid. subst. reflexivity. }
  split; [exact Heq |].
  rewrite Heq in Hget |- *. exact Hget.
Defined.

Lemma listing_after_creates_witness :
  GetAll (creates ["a"; "b"] NewTaskRepository) EmptyString 10 0
  = Ok [Some {| ID := 1; Title := "a"; Status := "new" |};
        Some {| ID := 2; Title := "b"; Status := "new" |}] /\
  GetAll (creates ["a"; "b"] NewTaskRepository) "done" 10 0 = Ok [].
Proof.
  destruct (listing_after_creates ["a"; "b"] 10) as (Hall & _ & Hother).
  { rewrite GoIntFacts.max_int_val. cbn. lia. }
  split; [exact Hall |]. apply Hother; discriminate.
Defined.

End APISpec.
